(** * render_kinect: kinematic state resolution ([src/robot_state.cpp])

    A shallow embedding of [RobotState] and of the member functions of
    [robot_state.cpp], followed by the properties of the design document
    that concern them.

    Conventions of the embedding.
    - C++ objects reached through [boost::shared_ptr] live in an arena (a
      list); a pointer is an [option nat], [None] being the null pointer.
    - A member function is a computation over a [World]: the [RobotState]
      object together with the console ([ROS_ERROR], [ROS_INFO], [std::cout]).
      A computation ends normally, or stops at a fault (null dereference,
      access out of range, uncaught [std::out_of_range]), or runs out of the
      fuel given to an unbounded [while] loop.  The world reached so far is
      kept in all three cases.
    - A [double] is only stored and copied by this file, never computed
      with: its type is a parameter.  A cell of an Eigen vector that was
      allocated and not written is [Indeterminate].
    - The KDL solvers, frame algebra and the URDF/KDL parsers are libraries
      outside the repository: solvers and frame product are parameters of
      the development, parser results are inputs of the constructor.
    - Containers are taken to have fewer than [2 ^ 32] elements, so that a
      loop counter of type [unsigned] does not wrap; conversions to [int]
      are written out ([to_int]).

    Layout: the program ([Section Program]); the vocabulary in which the
    properties are stated; a concrete robot ([Module Scenario]) with
    concrete frames and solvers; the properties, first for every instance
    of the parameters ([Section Resolution]), then on the concrete robot. *)

From Stdlib Require Import ZArith String List Lia.
From stdpp Require Import base option list strings gmap.

Local Open Scope Z_scope.
Local Open Scope list_scope.

(** ** Outcomes and the computation monad *)

Inductive Fault : Type :=
| NullDeref                       (* [p->f] on a null [shared_ptr] *)
| IndexOutOfRange (i : Z)         (* [v[i]] / [v(i)] past the end *)
| StdOutOfRange.                  (* [std::string::substr] with [pos > size()] *)

Inductive Outcome (A : Type) : Type :=
| Ok (a : A)
| Crash (f : Fault)
| OutOfFuel.
Arguments Ok {A} a.
Arguments Crash {A} f.
Arguments OutOfFuel {A}.

Definition M (S A : Type) : Type := S -> S * Outcome A.

Definition ret {S A} (a : A) : M S A := fun s => (s, Ok a).

Definition bind {S A B} (m : M S A) (k : A -> M S B) : M S B :=
  fun s =>
    match m s with
    | (s', Ok a) => k a s'
    | (s', Crash f) => (s', Crash f)
    | (s', OutOfFuel) => (s', OutOfFuel)
    end.

Definition fault {S A} (f : Fault) : M S A := fun s => (s, Crash f).
Definition diverge {S A} : M S A := fun s => (s, OutOfFuel).
Definition gets {S A} (f : S -> A) : M S A := fun s => (s, Ok (f s)).
Definition modify {S} (f : S -> S) : M S unit := fun s => (f s, Ok tt).

Notation "'let!' x ':=' m 'in' k" := (bind m (fun x => k))
  (at level 10, x name, m at level 100, k at level 200).
Notation "m ';;;' k" := (bind m (fun _ => k))
  (at level 100, k at level 200, right associativity).

(** [for (x : l) body(x)] for a loop whose range is fixed before it starts. *)
Fixpoint for_each {S A} (l : list A) (body : A -> M S unit) : M S unit :=
  match l with
  | [] => ret tt
  | x :: l' => body x ;;; for_each l' body
  end.

(** Lifting of a pointer dereference. *)
Definition deref {S A} (p : option A) : M S A :=
  match p with
  | Some a => ret a
  | None => fault NullDeref
  end.

(** ** Machine integers *)

(** Conversion of an unsigned quantity to [int] (32 bits, two's complement). *)
Definition to_int (z : Z) : Z :=
  let r := z mod 2 ^ 32 in
  if r <? 2 ^ 31 then r else r - 2 ^ 32.

(** [a - b] in [size_t] (64 bits). *)
Definition size_t_sub (a b : Z) : Z := (a - b) mod 2 ^ 64.

(** ** Arrays of [double]

    [Eigen::VectorXd::resize] allocates without initialising: the cells of a
    freshly sized vector are indeterminate.  [Indeterminate] stands for a
    cell whose content the program does not determine: two such cells need
    not hold the same value. *)

Inductive cell (double : Type) : Type :=
| Indeterminate
| Val (d : double).
Arguments Indeterminate {double}.
Arguments Val {double} d.

(** [v.resize(n)]: nothing happens when the size is unchanged, otherwise the
    storage is reallocated and its contents are not initialised. *)
Definition Eigen_resize {double} (v : list (cell double)) (n : nat)
  : list (cell double) :=
  if decide (length v = n) then v else replicate n Indeterminate.

(** [v(i)] as an rvalue. *)
Definition array_read {S A} (v : list A) (i : Z) : M S A :=
  if 0 <=? i then
    match v !! Z.to_nat i with
    | Some a => ret a
    | None => fault (IndexOutOfRange i)
    end
  else fault (IndexOutOfRange i).

(** [v(i) = a]. *)
Definition array_write {S A} (v : list A) (i : Z) (a : A) : M S (list A) :=
  if (0 <=? i) && (i <? Z.of_nat (length v))
  then ret (<[Z.to_nat i := a]> v)
  else fault (IndexOutOfRange i).

(** ** The part of KDL the program reads *)

Module KDL.

(** [KDL::Joint::JointType] *)
Inductive JointType : Type :=
| RotAxis | RotX | RotY | RotZ
| TransAxis | TransX | TransY | TransZ
| Joint_None.                   (* [KDL::Joint::None] *)

Global Instance JointType_eq_dec : EqDecision JointType.
Proof. solve_decision. Defined.

Record Joint : Type := { getJointName : string; getType : JointType }.

Record Segment : Type := { getName : string; getJoint : Joint }.

(** [KDL::TreeElement]: the segment and the position [q_nr] of its joint
    in a joint array. *)
Record TreeElement : Type := { segment : Segment; q_nr : nat }.

(** [KDL::SegmentMap] is a [std::map] from segment name to element: the
    list is its sequence of entries in iteration order. *)
Abbreviation SegmentMap := (list (string * TreeElement)).

Record Tree : Type := { getSegments : SegmentMap; getNrOfJoints : nat }.

Record Chain : Type := { segments : list Segment }.

Definition movable (s : Segment) : bool :=
  bool_decide (getType (getJoint s) <> Joint_None).

Definition getNrOfSegments (c : Chain) : nat := length (segments c).

(** [Chain::getNrOfJoints]: the segments whose joint is not [None]. *)
Definition getChainNrOfJoints (c : Chain) : nat :=
  length (filter (fun s => movable s = true) (segments c)).

End KDL.

(** ** The part of the URDF model the program reads *)

Module URDF.

(** [urdf::Joint::type] *)
Inductive JointType : Type :=
| UNKNOWN | REVOLUTE | CONTINUOUS | PRISMATIC | FLOATING | PLANAR | FIXED.

Global Instance JointType_eq_dec : EqDecision JointType.
Proof. solve_decision. Defined.

Record JointLimits (double : Type) : Type :=
  { lower : double; upper : double }.
Arguments lower {double} _.
Arguments upper {double} _.

Record Joint (double : Type) : Type :=
  { joint_name : string;
    type : JointType;
    limits : option (JointLimits double) }.   (* [shared_ptr<JointLimits>] *)
Arguments joint_name {double} _.
Arguments type {double} _.
Arguments limits {double} _.

(** [urdf::Geometry] with its [type] tag; only a mesh carries a file name. *)
Inductive Geometry : Type :=
| SPHERE | BOX | CYLINDER
| MESH (filename : string).

Record Visual : Type := { geometry : option Geometry }.

(** A link; [parent_link] is the pointer returned by [getParent()]. *)
Record Link : Type :=
  { name : string;
    parent_link : option nat;
    visual : option Visual }.

(** [urdf::Model]: [links] is the arena of links in the order in which
    [getLinks] returns them, [joints] the map behind [getJoint], [root] the
    pointer returned by [getRoot()]. *)
Record Model (double : Type) : Type :=
  { links : list Link;
    joints : gmap string (Joint double);
    root : option nat }.
Arguments links {double} _.
Arguments joints {double} _.
Arguments root {double} _.

Definition getLink {double} (m : Model double) (p : option nat) : option Link :=
  match p with
  | Some i => links m !! i
  | None => None
  end.

Definition getJoint {double} (m : Model double) (n : string)
  : option (Joint double) := joints m !! n.

End URDF.


(** ** The object and its world *)

(** What the program writes to the console; the arguments are those of the
    format string. *)
Inductive Event : Type :=
| ROS_ERROR_no_urdf                                   (* line 45 *)
| ROS_ERROR_parse_urdf                                (* line 49 *)
| ROS_ERROR_kdl_tree                                  (* line 53 *)
| ROS_INFO_chain (cam_frame base_frame : string)      (* line 93 *)
| ROS_ERROR_chain (cam_frame base_frame : string)     (* line 95 *)
| cout_descendant (link ancestor : string)            (* line 135 *)
| ROS_ERROR_joint_not_in_chain                        (* line 197 *)
| ROS_ERROR_camera_transform                          (* line 206 *)
| ROS_ERROR_tree_solver (link : string)               (* line 221 *)
| ROS_ERROR_no_joint_index (i : Z) (joint : string).  (* line 257 *)

(** [sensor_msgs::JointState], the two fields that are read. *)
Record JointState (double : Type) : Type :=
  { js_name : list string; js_position : list double }.
Arguments js_name {double} _.
Arguments js_position {double} _.

(** The data members of [RobotState].  The two solver members are pointers
    to solver objects built over the chain and over the tree.  The element
    type of the two limit tables is declared in [robot_state.h]: a cell holds
    the value of a [double] after conversion to that type. *)
Record RobotState (double Frame : Type) : Type :=
  { urdf_ : URDF.Model double;
    kin_tree_ : KDL.Tree;
    description_path_ : string;
    segment_map_ : KDL.SegmentMap;
    joint_map_ : list string;
    lower_limit_ : list double;
    upper_limit_ : list double;
    base_2_cam_ : KDL.Chain;
    chain_solver_ : option KDL.Chain;
    tree_solver_ : option KDL.Tree;
    part_mesh_map_ : list string;
    frame_map_ : gmap string Frame;
    jnt_array_ : list (cell double);
    cam_frame_ : Frame }.
Arguments urdf_ {double Frame} _.
Arguments kin_tree_ {double Frame} _.
Arguments description_path_ {double Frame} _.
Arguments segment_map_ {double Frame} _.
Arguments joint_map_ {double Frame} _.
Arguments lower_limit_ {double Frame} _.
Arguments upper_limit_ {double Frame} _.
Arguments base_2_cam_ {double Frame} _.
Arguments chain_solver_ {double Frame} _.
Arguments tree_solver_ {double Frame} _.
Arguments part_mesh_map_ {double Frame} _.
Arguments frame_map_ {double Frame} _.
Arguments jnt_array_ {double Frame} _.
Arguments cam_frame_ {double Frame} _.

Record World (double Frame : Type) : Type :=
  { this : RobotState double Frame; console : list Event }.
Arguments this {double Frame} _.
Arguments console {double Frame} _.

(** What the constructor obtains from its collaborators: the parameter
    server, the URDF parser, [kdl_parser] and [KDL::Tree::getChain]. *)
Record Collaborators (double : Type) : Type :=
  { getParam_robot_description : bool;
    initString : bool * URDF.Model double;
    treeFromUrdfModel : bool * KDL.Tree;
    param_robot_description_package_path : string;
    param_camera_frame : string;
    param_kinematic_frame : string;
    getChain : bool * KDL.Chain }.
Arguments getParam_robot_description {double} _.
Arguments initString {double} _.
Arguments treeFromUrdfModel {double} _.
Arguments param_robot_description_package_path {double} _.
Arguments param_camera_frame {double} _.
Arguments param_kinematic_frame {double} _.
Arguments getChain {double} _.

(** [std::vector::resize(n)]: truncate, or pad with value-initialised
    elements. *)
Definition vector_resize {A} (dflt : A) (n : nat) (v : list A) : list A :=
  take n v ++ replicate (n - length v)%nat dflt.

(** [std::find(v.begin(), v.end(), x) - v.begin()]: the first position
    holding [x], [v.size()] when there is none. *)
Fixpoint std_find (v : list string) (x : string) : nat :=
  match v with
  | [] => 0%nat
  | y :: v' => if String.eqb y x then 0%nat else S (std_find v' x)
  end.

(** [s.substr(pos, n)], which throws when [pos > s.size()]. *)
Definition substr {S} (s : string) (pos : Z) (n : nat) : M S string :=
  if Z.of_nat (String.length s) <? pos then fault StdOutOfRange
  else ret (substring (Z.to_nat pos) n s).

(** How a parameter of class type is passed.  By value the callee works on
    a copy that is destroyed when it returns; by reference it works on the
    caller's object. *)
Inductive PassMode : Type := ByValue | ByReference.

(** A call [f(arg)]: [body] maps the parameter object at entry to the
    parameter object at exit; the result is the caller's [arg] after the
    call. *)
Definition call {S A} (mode : PassMode) (body : A -> M S A) (arg : A) : M S A :=
  let! arg' := body arg in
  ret (match mode with ByValue => arg | ByReference => arg' end).

Section Program.

Context {double Frame Affine3d : Type}.
(** [0.0]; the conversion of a [double] to the element type of the limit
    tables, which [robot_state.h] declares (the identity when that type is
    [double], a rounding when it is narrower); and [KDL::Frame]: the default
    frame (identity) and [operator*]. *)
Context (zero : double) (limit_cast : double -> double).
Context (Frame_Identity : Frame) (Frame_mul : Frame -> Frame -> Frame).
(** [tf::transformKDLToEigen] *)
Context (transformKDLToEigen : Frame -> Affine3d).
(** [ChainFkSolverPos_recursive::JntToCart(q_in, p_out)] and
    [TreeFkSolverPos_recursive::JntToCart(q_in, p_out, segmentName)]: from
    the solved structure, the joint array and the frame object passed for
    output, the returned status and the frame object afterwards. *)
Context (ChainFk_JntToCart : KDL.Chain -> list (cell double) -> Frame -> Z * Frame).
Context (TreeFk_JntToCart :
           KDL.Tree -> list (cell double) -> Frame -> string -> Z * Frame).

Local Abbreviation RState := (RobotState double Frame).
Local Abbreviation W := (World double Frame).

Definition print (e : Event) : M W unit :=
  modify (fun w => {| this := this w; console := console w ++ [e] |}).

Definition update (f : RState -> RState) : M W unit :=
  modify (fun w => {| this := f (this w); console := console w |}).

Definition member {A} (f : RState -> A) : M W A := gets (fun w => f (this w)).

Definition set_part_mesh_map_ (v : list string) (s : RState) : RState :=
  {| urdf_ := urdf_ s; kin_tree_ := kin_tree_ s;
     description_path_ := description_path_ s;
     segment_map_ := segment_map_ s; joint_map_ := joint_map_ s;
     lower_limit_ := lower_limit_ s; upper_limit_ := upper_limit_ s;
     base_2_cam_ := base_2_cam_ s; chain_solver_ := chain_solver_ s;
     tree_solver_ := tree_solver_ s; part_mesh_map_ := v;
     frame_map_ := frame_map_ s; jnt_array_ := jnt_array_ s;
     cam_frame_ := cam_frame_ s |}.

Definition set_frame_map_ (v : gmap string Frame) (s : RState) : RState :=
  {| urdf_ := urdf_ s; kin_tree_ := kin_tree_ s;
     description_path_ := description_path_ s;
     segment_map_ := segment_map_ s; joint_map_ := joint_map_ s;
     lower_limit_ := lower_limit_ s; upper_limit_ := upper_limit_ s;
     base_2_cam_ := base_2_cam_ s; chain_solver_ := chain_solver_ s;
     tree_solver_ := tree_solver_ s; part_mesh_map_ := part_mesh_map_ s;
     frame_map_ := v; jnt_array_ := jnt_array_ s;
     cam_frame_ := cam_frame_ s |}.

Definition set_jnt_array_ (v : list (cell double)) (s : RState) : RState :=
  {| urdf_ := urdf_ s; kin_tree_ := kin_tree_ s;
     description_path_ := description_path_ s;
     segment_map_ := segment_map_ s; joint_map_ := joint_map_ s;
     lower_limit_ := lower_limit_ s; upper_limit_ := upper_limit_ s;
     base_2_cam_ := base_2_cam_ s; chain_solver_ := chain_solver_ s;
     tree_solver_ := tree_solver_ s; part_mesh_map_ := part_mesh_map_ s;
     frame_map_ := frame_map_ s; jnt_array_ := v;
     cam_frame_ := cam_frame_ s |}.

Definition set_cam_frame_ (v : Frame) (s : RState) : RState :=
  {| urdf_ := urdf_ s; kin_tree_ := kin_tree_ s;
     description_path_ := description_path_ s;
     segment_map_ := segment_map_ s; joint_map_ := joint_map_ s;
     lower_limit_ := lower_limit_ s; upper_limit_ := upper_limit_ s;
     base_2_cam_ := base_2_cam_ s; chain_solver_ := chain_solver_ s;
     tree_solver_ := tree_solver_ s; part_mesh_map_ := part_mesh_map_ s;
     frame_map_ := frame_map_ s; jnt_array_ := jnt_array_ s;
     cam_frame_ := v |}.

(** Joint tables while the constructor fills them. *)
Definition set_joint_tables (jm : list string) (lo up : list double)
  (s : RState) : RState :=
  {| urdf_ := urdf_ s; kin_tree_ := kin_tree_ s;
     description_path_ := description_path_ s;
     segment_map_ := segment_map_ s; joint_map_ := jm;
     lower_limit_ := lo; upper_limit_ := up;
     base_2_cam_ := base_2_cam_ s; chain_solver_ := chain_solver_ s;
     tree_solver_ := tree_solver_ s; part_mesh_map_ := part_mesh_map_ s;
     frame_map_ := frame_map_ s; jnt_array_ := jnt_array_ s;
     cam_frame_ := cam_frame_ s |}.

(** *** [RobotState::RobotState] (lines 39-100) *)

(** The members before the constructor body runs: containers empty, the
    frame the identity, the solver pointers not yet set. *)
Definition members_at_entry (u : URDF.Model double) : RState :=
  {| urdf_ := u;
     kin_tree_ := {| KDL.getSegments := []; KDL.getNrOfJoints := 0 |};
     description_path_ := EmptyString;
     segment_map_ := []; joint_map_ := [];
     lower_limit_ := []; upper_limit_ := [];
     base_2_cam_ := {| KDL.segments := [] |};
     chain_solver_ := None; tree_solver_ := None;
     part_mesh_map_ := []; frame_map_ := ∅; jnt_array_ := [];
     cam_frame_ := Frame_Identity |}.

(** Body of the loop over [segment_map_] (lines 66-86). *)
Definition ctor_segment (e : string * KDL.TreeElement) : M W unit :=
  let seg := KDL.segment (snd e) in
  if KDL.movable seg then
    let! joint :=
      member (fun s => URDF.getJoint (urdf_ s) (KDL.getJointName (KDL.getJoint seg))) in
    (* [!joint]: the arguments of [ROS_FATAL] read [joint->name] *)
    let! joint := deref joint in
    if bool_decide (URDF.type joint <> URDF.UNKNOWN)
       && bool_decide (URDF.type joint <> URDF.FIXED)
    then
      let i := Z.of_nat (KDL.q_nr (snd e)) in
      let! jm := member joint_map_ in
      let! jm := array_write jm i (URDF.joint_name joint) in
      update (fun s => set_joint_tables jm (lower_limit_ s) (upper_limit_ s) s) ;;;
      let! lim := deref (URDF.limits joint) in
      let! lo := member lower_limit_ in
      let! lo := array_write lo i (limit_cast (URDF.lower lim)) in
      update (fun s => set_joint_tables (joint_map_ s) lo (upper_limit_ s) s) ;;;
      let! lim := deref (URDF.limits joint) in
      let! up := member upper_limit_ in
      let! up := array_write up i (limit_cast (URDF.upper lim)) in
      update (fun s => set_joint_tables (joint_map_ s) (lower_limit_ s) up s)
    else ret tt
  else ret tt.

Definition ctor_body (env : Collaborators double) : M W unit :=
  (if getParam_robot_description env then ret tt else print ROS_ERROR_no_urdf) ;;;
  (if fst (initString env) then ret tt else print ROS_ERROR_parse_urdf) ;;;
  if negb (fst (treeFromUrdfModel env)) then print ROS_ERROR_kdl_tree
  else
    let tree := snd (treeFromUrdfModel env) in
    let n := KDL.getNrOfJoints tree in
    update (fun s =>
      {| urdf_ := urdf_ s; kin_tree_ := tree;
         description_path_ := param_robot_description_package_path env;
         segment_map_ := KDL.getSegments tree;
         joint_map_ := vector_resize EmptyString n (joint_map_ s);
         lower_limit_ := vector_resize zero n (lower_limit_ s);
         upper_limit_ := vector_resize zero n (upper_limit_ s);
         base_2_cam_ := base_2_cam_ s; chain_solver_ := chain_solver_ s;
         tree_solver_ := tree_solver_ s; part_mesh_map_ := part_mesh_map_ s;
         frame_map_ := frame_map_ s; jnt_array_ := jnt_array_ s;
         cam_frame_ := cam_frame_ s |}) ;;;
    let! segs := member segment_map_ in
    for_each segs ctor_segment ;;;
    let cam_frame := param_camera_frame env in
    let base_frame := param_kinematic_frame env in
    (if fst (getChain env) then print (ROS_INFO_chain cam_frame base_frame)
     else print (ROS_ERROR_chain cam_frame base_frame)) ;;;
    update (fun s =>
      {| urdf_ := urdf_ s; kin_tree_ := kin_tree_ s;
         description_path_ := description_path_ s;
         segment_map_ := segment_map_ s; joint_map_ := joint_map_ s;
         lower_limit_ := lower_limit_ s; upper_limit_ := upper_limit_ s;
         base_2_cam_ := snd (getChain env);
         chain_solver_ := Some (snd (getChain env));
         tree_solver_ := Some (kin_tree_ s);
         part_mesh_map_ := part_mesh_map_ s;
         frame_map_ := frame_map_ s; jnt_array_ := jnt_array_ s;
         cam_frame_ := cam_frame_ s |}).

(** The constructor, run on the freshly allocated object and an empty
    console. *)
Definition RobotState_ctor (env : Collaborators double) : W * Outcome unit :=
  ctor_body env
    {| this := members_at_entry (snd (initString env)); console := [] |}.

(** *** [RobotState::GetJointIndex] (lines 264-270) *)

Fixpoint GetJointIndex_from (i : nat) (jm : list string) (name : string) : Z :=
  match jm with
  | [] => -1
  | x :: jm' =>
      if String.eqb x name then to_int (Z.of_nat i)
      else GetJointIndex_from (S i) jm' name
  end.

Definition GetJointIndex (s : RState) (name : string) : Z :=
  GetJointIndex_from 0 (joint_map_ s) name.

(** *** [RobotState::num_joints] (lines 272-275) *)

Definition num_joints (s : RState) : nat := KDL.getNrOfJoints (kin_tree_ s).

(** *** [RobotState::GetInitialJoints] (lines 244-262) *)

(** The loop over [state.position]; [i] is [jnt - state.position.begin()]. *)
Fixpoint GetInitialJoints_loop (name : list string) (position : list double)
  (i : nat) (jnt_angles : list (cell double)) : M W (list (cell double)) :=
  match position with
  | [] => ret jnt_angles
  | jnt :: position' =>
      let! nm := array_read name (Z.of_nat i) in
      let! tmp_index := member (fun s => GetJointIndex s nm) in
      let! jnt_angles :=
        (if 0 <=? tmp_index
         then array_write jnt_angles tmp_index (Val jnt)
         else print (ROS_ERROR_no_joint_index (to_int (Z.of_nat i)) nm) ;;;
              ret jnt_angles) in
      GetInitialJoints_loop name position' (S i) jnt_angles
  end.

Definition GetInitialJoints_body (state : JointState double)
  (jnt_angles : list (cell double)) : M W (list (cell double)) :=
  let! n := member num_joints in
  GetInitialJoints_loop (js_name state) (js_position state) 0
    (Eigen_resize jnt_angles n).

Definition GetInitialJoints (state : JointState double)
  : list (cell double) -> M W (list (cell double)) :=
  call ByReference (GetInitialJoints_body state).

(** *** [RobotState::SetCameraTransform] (lines 182-207) *)

(** The loop over the chain's segments; the variables [j] and
    [chain_jnt_array] are threaded through the iterations [idxs]. *)
Fixpoint SetCameraTransform_loop (idxs : list nat) (j : Z)
  (chain_jnt_array : list (cell double)) : M W (list (cell double)) :=
  match idxs with
  | [] => ret chain_jnt_array
  | i :: idxs' =>
      let! chain := member base_2_cam_ in
      let! seg := array_read (KDL.segments chain) (Z.of_nat i) in
      if KDL.movable seg then
        let name := KDL.getJointName (KDL.getJoint seg) in
        let! jm := member joint_map_ in
        let location := std_find jm name in
        (if decide (location = length jm)
         then print ROS_ERROR_joint_not_in_chain else ret tt) ;;;
        let! q := member jnt_array_ in
        let! v := array_read q (Z.of_nat location) in
        let! chain_jnt_array := array_write chain_jnt_array j v in
        SetCameraTransform_loop idxs' (j + 1) chain_jnt_array
      else SetCameraTransform_loop idxs' j chain_jnt_array
  end.

Definition SetCameraTransform : M W unit :=
  let! chain := member base_2_cam_ in
  let chain_jnt_array := replicate (KDL.getChainNrOfJoints chain) (Val zero) in
  let n_segments := to_int (Z.of_nat (KDL.getNrOfSegments chain)) in
  let! chain_jnt_array :=
    SetCameraTransform_loop (seq 0 (Z.to_nat n_segments)) 0 chain_jnt_array in
  let! solver := member chain_solver_ in
  let! solver := deref solver in
  let! p_out := member cam_frame_ in
  let r := ChainFk_JntToCart solver chain_jnt_array p_out in
  update (set_cam_frame_ (snd r)) ;;;
  if fst r <? 0 then print ROS_ERROR_camera_transform else ret tt.

(** *** [RobotState::ComputeLinkTransforms] (lines 209-226) *)

(** [std::find(part_mesh_map_.begin(), part_mesh_map_.end(), n) !=
    part_mesh_map_.end()] *)
Definition tracked (s : RState) (n : string) : bool :=
  bool_decide (std_find (part_mesh_map_ s) n <> length (part_mesh_map_ s)).

Definition ComputeLinkTransforms_segment (e : string * KDL.TreeElement)
  : M W unit :=
  let n := KDL.getName (KDL.segment (snd e)) in
  let! found := member (fun s => tracked s n) in
  if found then
    let! solver := member tree_solver_ in
    let! solver := deref solver in
    let! q := member jnt_array_ in
    let r := TreeFk_JntToCart solver q Frame_Identity n in
    (if fst r <? 0 then print (ROS_ERROR_tree_solver n) else ret tt) ;;;
    let! cam := member cam_frame_ in
    update (fun s => set_frame_map_ (<[n := Frame_mul cam (snd r)]> (frame_map_ s)) s)
  else ret tt.

Definition ComputeLinkTransforms : M W unit :=
  let! segs := member segment_map_ in
  for_each segs ComputeLinkTransforms_segment.

(** *** [RobotState::InitKDLData] (lines 169-180) *)

Definition InitKDLData (joint_state : JointState double) : M W unit :=
  let! jnt_angles := GetInitialJoints joint_state [] in
  update (set_jnt_array_ jnt_angles) ;;;
  SetCameraTransform ;;;
  ComputeLinkTransforms.

(** *** [RobotState::GetTransforms] (lines 145-167) *)

(** [frame_map_[n]] as an rvalue: [std::map::operator[]] inserts a default
    frame when the key is absent. *)
Definition frame_map_at (n : string) : M W Frame :=
  let! fm := member frame_map_ in
  match fm !! n with
  | Some f => ret f
  | None =>
      update (set_frame_map_ (<[n := Frame_Identity]> fm)) ;;;
      ret Frame_Identity
  end.

Fixpoint GetTransforms_loop (segs : KDL.SegmentMap)
  (current_tfs : list Affine3d) : M W (list Affine3d) :=
  match segs with
  | [] => ret current_tfs
  | e :: segs' =>
      let n := KDL.getName (KDL.segment (snd e)) in
      let! found := member (fun s => tracked s n) in
      if found then
        let! f := frame_map_at n in
        let tmp := transformKDLToEigen f in
        GetTransforms_loop segs' (current_tfs ++ [tmp])
      else GetTransforms_loop segs' current_tfs
  end.

(** [current_tfs.reserve] leaves the content of the vector as it is. *)
Definition GetTransforms_body (joint_state : JointState double) (noisy : bool)
  (current_tfs : list Affine3d) : M W (list Affine3d) :=
  InitKDLData joint_state ;;;
  let! segs := member segment_map_ in
  GetTransforms_loop segs current_tfs.

(** The parameter is declared [std::vector<Eigen::Affine3d> current_tfs]. *)
Definition GetTransforms (joint_state : JointState double)
  (current_tfs : list Affine3d) (noisy : bool) : M W (list Affine3d) :=
  call ByValue (GetTransforms_body joint_state noisy) current_tfs.

(** *** [RobotState::GetPartMeshPaths] (lines 108-142) *)

(** The [while] loop of lines 118-122 on the pointer [tmp_link]; the result
    is the pointer at loop exit. *)
Fixpoint walk_to_root (fuel : nat) (u : URDF.Model double) (global_root : string)
  (tmp_link : option nat) : Outcome (option nat) :=
  match fuel with
  | O => OutOfFuel
  | S fuel' =>
      match URDF.getLink u tmp_link with
      | None => Crash NullDeref
      | Some l =>
          if negb (String.eqb (URDF.name l) global_root)
          then walk_to_root fuel' u global_root (URDF.parent_link l)
          else Ok tmp_link
      end
  end.

Definition lift {A} (o : Outcome A) : M W A := fun w => (w, o).

(** Lines 124-140 for the link [tmp_link] points to; [links_i] is the
    pointer [links[i]]. *)
Definition record_mesh (u : URDF.Model double) (links_i : option nat)
  (tmp_link : URDF.Link) (part_mesh_paths : list string) : M W (list string) :=
  match URDF.visual tmp_link with
  | Some {| URDF.geometry := Some (URDF.MESH mesh_filename) |} =>
      let filename := mesh_filename in
      let pos := size_t_sub (Z.of_nat (String.length filename)) 4 in
      let! ext := substr filename pos 4 in
      let! is_mesh :=
        (if String.eqb ext ".stl" then ret true
         else let! ext := substr filename pos 4 in ret (String.eqb ext ".dae")) in
      if (is_mesh : bool) then
        let! link_i := deref (URDF.getLink u links_i) in
        print (cout_descendant (URDF.name link_i) (URDF.name tmp_link)) ;;;
        update (fun s => set_part_mesh_map_
                           (part_mesh_map_ s ++ [URDF.name tmp_link]) s) ;;;
        ret (part_mesh_paths ++ [filename])
      else ret part_mesh_paths
  | _ => ret part_mesh_paths
  end.

(** Body of the [for] loop for [links[i]]. *)
Definition GetPartMeshPaths_link (fuel : nat) (global_root : string) (i : nat)
  (part_mesh_paths : list string) : M W (list string) :=
  let! u := member urdf_ in
  let! tmp_link := lift (walk_to_root fuel u global_root (Some i)) in
  let! tmp_link := deref (URDF.getLink u tmp_link) in
  record_mesh u (Some i) tmp_link part_mesh_paths.

Fixpoint GetPartMeshPaths_loop (fuel : nat) (global_root : string)
  (idxs : list nat) (part_mesh_paths : list string) : M W (list string) :=
  match idxs with
  | [] => ret part_mesh_paths
  | i :: idxs' =>
      let! part_mesh_paths :=
        GetPartMeshPaths_link fuel global_root i part_mesh_paths in
      GetPartMeshPaths_loop fuel global_root idxs' part_mesh_paths
  end.

Definition GetPartMeshPaths_body (fuel : nat) (part_mesh_paths : list string)
  : M W (list string) :=
  let! u := member urdf_ in
  let! root := deref (URDF.getLink u (URDF.root u)) in
  let global_root := URDF.name root in
  GetPartMeshPaths_loop fuel global_root (seq 0 (length (URDF.links u)))
    part_mesh_paths.

(** The parameter is declared [std::vector<std::string> &part_mesh_paths];
    [fuel] bounds the iterations of each run of the [while] loop. *)
Definition GetPartMeshPaths (fuel : nat) (part_mesh_paths : list string)
  : M W (list string) :=
  call ByReference (GetPartMeshPaths_body fuel) part_mesh_paths.

End Program.

(** * Vocabulary of the properties *)

(** A name has an index when [GetJointIndex] does not return [-1]. *)
Definition has_index (jm : list string) (nm : string) : bool :=
  0 <=? GetJointIndex_from 0 jm nm.

(** The reports expected for the names without index among [names], the
    first of which stands at input position [i]. *)
Fixpoint unknown_entries (jm : list string) (i : nat) (names : list string)
  : list Event :=
  match names with
  | [] => []
  | nm :: names' =>
      (if has_index jm nm then []
       else [ROS_ERROR_no_joint_index (Z.of_nat i) nm])
      ++ unknown_entries jm (S i) names'
  end.

(** [k] is the index of the name [nm] in the joint table [jm]: the first
    position of the table that holds the name. *)
Definition index_of (jm : list string) (nm : string) (k : nat) : Prop :=
  jm !! k = Some nm /\ forall k', (k' < k)%nat -> jm !! k' <> Some nm.

(** The reports a sparse update is to give: one for every input position
    whose name is not a name of the joint table [jm], in input order; [i] is
    the input position of the first name of [names]. *)
Fixpoint unknown_reports (jm : list string) (i : nat) (names : list string)
  : list Event :=
  match names with
  | [] => []
  | nm :: names' =>
      (if bool_decide (nm ∈ jm) then []
       else [ROS_ERROR_no_joint_index (Z.of_nat i) nm])
      ++ unknown_reports jm (S i) names'
  end.

(** The effect of one (name, value) entry on a dense vector, and of a
    sequence of entries taken in order. *)
Definition apply_entry {double} (jm : list string) (ja : list (cell double))
  (e : string * double) : list (cell double) :=
  if has_index jm (fst e)
  then <[Z.to_nat (GetJointIndex_from 0 jm (fst e)) := Val (snd e)]> ja
  else ja.

Definition apply_entries {double} (jm : list string)
  (es : list (string * double)) (ja : list (cell double)) : list (cell double) :=
  foldl (apply_entry jm) ja es.

(** The world after [es] has been written to the console. *)
Definition say {double Frame} (es : list Event) (w : World double Frame)
  : World double Frame :=
  {| this := this w; console := console w ++ es |}.

(** [m] relates, by [R], every state to the state it reaches, whatever the
    outcome. *)
Definition preserves {S A} (R : S -> S -> Prop) (m : M S A) : Prop :=
  forall s, R s (fst (m s)).

(** The member read by [f] has the same value in both worlds. *)
Definition keeps {double Frame A} (f : RobotState double Frame -> A)
  (w w' : World double Frame) : Prop :=
  f (this w') = f (this w).

(** The frame map after the names [ns] have been visited in order, [value]
    giving the frame stored for a name, if any. *)
Definition store_frames {Frame} (value : string -> option Frame)
  (ns : list string) (fm : gmap string Frame) : gmap string Frame :=
  foldl (fun fm n => match value n with
                     | Some f => <[n := f]> fm
                     | None => fm
                     end) fm ns.

(** The reports of the tree solver for the names of [ns] selected by
    [failing], in order. *)
Definition tree_reports (failing : string -> bool) (ns : list string)
  : list Event :=
  ROS_ERROR_tree_solver <$> filter (fun n => failing n = true) ns.

(** The names of the segments of a segment map, in iteration order. *)
Definition segment_names (segs : KDL.SegmentMap) : list string :=
  (fun e => KDL.getName (KDL.segment (snd e))) <$> segs.

(** The frame stored for the segment name [n], if it is tracked: the product
    of [cam_frame_] and of the frame object the tree solver leaves; and
    whether the tree solver reports an error for a tracked [n]. *)
Definition link_frame_of {double Frame} (Frame_Identity : Frame)
  (Frame_mul : Frame -> Frame -> Frame)
  (TreeFk_JntToCart :
     KDL.Tree -> list (cell double) -> Frame -> string -> Z * Frame)
  (s : RobotState double Frame) (t : KDL.Tree) (n : string) : option Frame :=
  if tracked s n
  then Some (Frame_mul (cam_frame_ s)
               (snd (TreeFk_JntToCart t (jnt_array_ s) Frame_Identity n)))
  else None.

Definition link_fails_of {double Frame} (Frame_Identity : Frame)
  (TreeFk_JntToCart :
     KDL.Tree -> list (cell double) -> Frame -> string -> Z * Frame)
  (s : RobotState double Frame) (t : KDL.Tree) (n : string) : bool :=
  tracked s n && (fst (TreeFk_JntToCart t (jnt_array_ s) Frame_Identity n) <? 0).

(** The transforms of the tracked names among [ns], in the order of [ns]. *)
Definition tracked_frames {double Frame Affine3d}
  (transformKDLToEigen : Frame -> Affine3d) (s : RobotState double Frame)
  (ns : list string) : list Affine3d :=
  omap (fun n => if tracked s n
                 then transformKDLToEigen <$> frame_map_ s !! n
                 else None) ns.

(** The cells of the dense vector [q] that belong to the movable joints of
    the chain segments [segs], in chain order. *)
Definition chain_joint_values {double} (jm : list string)
  (q : list (cell double)) (segs : list KDL.Segment) : list (cell double) :=
  omap (fun seg =>
          if KDL.movable seg
          then q !! std_find jm (KDL.getJointName (KDL.getJoint seg))
          else None) segs.

(** An object as the constructor leaves it for a consistent topology: the
    joint table has one entry per joint of the tree, every movable joint of
    the chain is in the joint table, the solvers are built over the chain
    and the tree; sizes fit an [int]. *)
Record well_formed {double Frame} (s : RobotState double Frame) : Prop :=
  { wf_joint_map : length (joint_map_ s) = num_joints s;
    wf_joint_map_size : Z.of_nat (length (joint_map_ s)) <= 2 ^ 31;
    wf_chain_size : Z.of_nat (length (KDL.segments (base_2_cam_ s))) < 2 ^ 31;
    wf_chain_joints :
      forall seg, seg ∈ KDL.segments (base_2_cam_ s) ->
                  KDL.movable seg = true ->
                  KDL.getJointName (KDL.getJoint seg) ∈ joint_map_ s;
    wf_chain_solver : chain_solver_ s = Some (base_2_cam_ s);
    wf_tree_solver : tree_solver_ s = Some (kin_tree_ s) }.

(** The joint-array position and the joint name of every segment of the
    tree whose joint is not [None], in iteration order. *)
Definition movable_joints (segs : KDL.SegmentMap) : list (nat * string) :=
  (fun e => (KDL.q_nr (snd e), KDL.getJointName (KDL.getJoint (KDL.segment (snd e)))))
    <$> filter (fun e => KDL.movable (KDL.segment (snd e)) = true) segs.

(** What KDL and the parsers guarantee for a topology they accept: the tree
    was built; the positions of its [N] movable joints are [0 .. N-1], each
    used once; joint names are unique; every movable joint of the tree is a
    joint of the description under the same name, of a movable kind and with
    limits.  [N] fits an [int]. *)
Record valid_topology {double} (env : Collaborators double) : Prop :=
  { vt_tree : fst (treeFromUrdfModel env) = true;
    vt_q_nr :
      fst <$> movable_joints (KDL.getSegments (snd (treeFromUrdfModel env)))
      ≡ₚ seq 0 (KDL.getNrOfJoints (snd (treeFromUrdfModel env)));
    vt_names :
      NoDup (snd <$> movable_joints
                       (KDL.getSegments (snd (treeFromUrdfModel env))));
    vt_urdf :
      forall q nm,
        (q, nm) ∈ movable_joints (KDL.getSegments (snd (treeFromUrdfModel env))) ->
        exists j,
          URDF.getJoint (snd (initString env)) nm = Some j
          /\ URDF.joint_name j = nm
          /\ URDF.type j <> URDF.UNKNOWN /\ URDF.type j <> URDF.FIXED
          /\ is_Some (URDF.limits j);
    vt_size :
      Z.of_nat (KDL.getNrOfJoints (snd (treeFromUrdfModel env))) <= 2 ^ 31 }.

(** The pointer reached from [p] by [k] calls of [getParent()]. *)
Fixpoint nth_parent {double} (u : URDF.Model double) (k : nat) (p : option nat)
  : option nat :=
  match k with
  | O => p
  | S k' =>
      match URDF.getLink u p with
      | Some l => nth_parent u k' (URDF.parent_link l)
      | None => None
      end
  end.

(** A file name with one of the two recognised extensions. *)
Definition recognized (filename : string) : bool :=
  let ext := substring (String.length filename - 4) 4 filename in
  (4 <=? String.length filename)%nat
  && (String.eqb ext ".stl" || String.eqb ext ".dae").

(** The mesh file of a link: the file name of its visual geometry when this
    is a mesh with a recognised extension. *)
Definition mesh_file (l : URDF.Link) : option string :=
  match URDF.visual l with
  | Some {| URDF.geometry := Some (URDF.MESH f) |} =>
      if recognized f then Some f else None
  | _ => None
  end.

(** Link selection in the words of the design document: the walk from a link
    stops at the first ancestor that is the topology root or bears a mesh
    with a recognised extension ([None] when there is no such ancestor within
    [fuel] steps); a link is included when the walk ends at a mesh-bearing
    ancestor, under that ancestor's name. *)
Fixpoint spec_walk {double} (fuel : nat) (u : URDF.Model double)
  (global_root : string) (p : option nat) : option URDF.Link :=
  match fuel with
  | O => None
  | S fuel' =>
      match URDF.getLink u p with
      | None => None
      | Some l =>
          if String.eqb (URDF.name l) global_root || bool_decide (is_Some (mesh_file l))
          then Some l
          else spec_walk fuel' u global_root (URDF.parent_link l)
      end
  end.

Definition spec_LinkSet {double} (u : URDF.Model double) (global_root : string)
  : list string :=
  flat_map
    (fun i =>
       match spec_walk (S (length (URDF.links u))) u global_root (Some i) with
       | Some l => if bool_decide (is_Some (mesh_file l)) then [URDF.name l] else []
       | None => []
       end)
    (seq 0 (length (URDF.links u))).

(** A relation between objects, read between the worlds that hold them. *)
Definition on_this {double Frame}
  (Q : RobotState double Frame -> RobotState double Frame -> Prop)
  (w w' : World double Frame) : Prop :=
  Q (this w) (this w').

(** The frame map of [s'] has an entry under every name under which the
    frame map of [s] has one. *)
Definition frame_map_grows {double Frame} (s s' : RobotState double Frame)
  : Prop :=
  forall n, is_Some (frame_map_ s !! n) -> is_Some (frame_map_ s' !! n).

(** The list of tracked links of [s'] starts with that of [s]. *)
Definition part_mesh_map_grows {double Frame} (s s' : RobotState double Frame)
  : Prop :=
  part_mesh_map_ s `prefix_of` part_mesh_map_ s'.

(** * Concrete instances *)

(** Frames of the instances: translations with integer coordinates, that is
    [KDL::Frame]s whose rotation is the identity.  The product adds the
    translations, the inverse negates them. *)
Module Translation.

Definition frame : Type := Z * Z * Z.

Definition Identity : frame := (0, 0, 0).

Definition mul (a b : frame) : frame :=
  let '(ax, ay, az) := a in
  let '(bx, by_, bz) := b in
  (ax + bx, ay + by_, az + bz).

Definition Inverse (a : frame) : frame :=
  let '(ax, ay, az) := a in (- ax, - ay, - az).

End Translation.

(** Solvers of the instances, for structures whose joints all slide along
    [x] and whose segments have no offset.  As the KDL solvers do, they
    report an error only for a joint array of the wrong size and, for the
    tree, for an unknown segment: the chain solver has set the output frame
    to the identity by then, the tree solver leaves it as it was.  An
    indeterminate cell is read as [0]. *)
Module Sliding.

Definition value (c : cell Z) : Z :=
  match c with Val d => d | Indeterminate => 0 end.

(** The chains of the instances are those [Tree::getChain] cuts from a
    segment up to the root of the tree, as the constructor asks for (from the
    camera frame to the kinematic frame): every segment of such a chain is a
    segment of the tree inverted.  Forward kinematics along the chain gives
    the pose of the root in the frame the chain starts from, which is the
    inverse of the pose the tree solver gives for that frame.  For a chain
    without segments and an empty array the result is the identity, with
    status [0]. *)
Definition ChainFk_JntToCart (c : KDL.Chain) (q : list (cell Z))
  (p_out : Translation.frame) : Z * Translation.frame :=
  if decide (length q = KDL.getChainNrOfJoints c)
  then (0, Translation.Inverse (foldr Z.add 0 (value <$> q), 0, 0))
  else (-4, Translation.Identity).

Definition find_segment (t : KDL.Tree) (n : string) : option KDL.TreeElement :=
  (fun r => snd (snd r))
    <$> list_find (fun e => KDL.getName (KDL.segment (snd e)) = n)
          (KDL.getSegments t).

(** The pose computed for a segment accounts for the joint of the segment
    alone: it is the pose in the tree of the root and of the segments that
    hang from the root, the only ones the instances ask for. *)
Definition TreeFk_JntToCart (t : KDL.Tree) (q : list (cell Z))
  (p_out : Translation.frame) (n : string) : Z * Translation.frame :=
  if decide (length q = KDL.getNrOfJoints t) then
    match find_segment t n with
    | Some e =>
        (0, (if KDL.movable (KDL.segment e)
             then from_option value 0 (q !! KDL.q_nr e) else 0, 0, 0))
    | None => (-2, p_out)
    end
  else (-1, p_out).

End Sliding.

(** A robot with a base, an arm lifted by a prismatic joint, a camera on a
    prismatic slide and a tool mounted rigidly on the arm. *)
Module Scenario.

(** The limit tables of the robot hold [double]s: the conversion changes
    nothing. *)
Definition as_double (x : Z) : Z := x.

Definition mesh (f : string) : option URDF.Visual :=
  Some {| URDF.geometry := Some (URDF.MESH f) |}.

(** Links in the order of [getLinks] (by name); [base] is the root. *)
Definition robot_links : list URDF.Link :=
  [ {| URDF.name := "arm"; URDF.parent_link := Some 1%nat;
       URDF.visual := mesh "arm.stl" |};
    {| URDF.name := "base"; URDF.parent_link := None;
       URDF.visual := mesh "base.dae" |};
    {| URDF.name := "camera"; URDF.parent_link := Some 1%nat;
       URDF.visual := None |};
    {| URDF.name := "tool"; URDF.parent_link := Some 0%nat;
       URDF.visual := Some {| URDF.geometry := Some URDF.BOX |} |} ].

Definition robot_joints : gmap string (URDF.Joint Z) :=
  <["lift" := {| URDF.joint_name := "lift"; URDF.type := URDF.PRISMATIC;
                 URDF.limits := Some {| URDF.lower := 0; URDF.upper := 10 |} |}]>
  (<["mount" := {| URDF.joint_name := "mount"; URDF.type := URDF.FIXED;
                   URDF.limits := None |}]>
  (<["slide" := {| URDF.joint_name := "slide"; URDF.type := URDF.PRISMATIC;
                   URDF.limits := Some {| URDF.lower := 0; URDF.upper := 5 |} |}]>
   ∅)).

Definition robot : URDF.Model Z :=
  {| URDF.links := robot_links; URDF.joints := robot_joints;
     URDF.root := Some 1%nat |}.

Definition seg (n j : string) (ty : KDL.JointType) : KDL.Segment :=
  {| KDL.getName := n;
     KDL.getJoint := {| KDL.getJointName := j; KDL.getType := ty |} |}.

(** The KDL tree of the robot: segments by name; the joint of the arm was
    added after the joint of the camera. *)
Definition robot_tree : KDL.Tree :=
  {| KDL.getSegments :=
       [ ("arm", {| KDL.segment := seg "arm" "lift" KDL.TransX; KDL.q_nr := 1 |});
         ("base", {| KDL.segment := seg "base" "NoName" KDL.Joint_None;
                     KDL.q_nr := 0 |});
         ("camera", {| KDL.segment := seg "camera" "slide" KDL.TransX;
                       KDL.q_nr := 0 |});
         ("tool", {| KDL.segment := seg "tool" "mount" KDL.Joint_None;
                     KDL.q_nr := 0 |}) ];
     KDL.getNrOfJoints := 2 |}.

(** The chain from the camera frame to the kinematic frame. *)
Definition camera_chain : KDL.Chain :=
  {| KDL.segments := [seg "base" "slide" KDL.TransX] |}.

Definition collaborators : Collaborators Z :=
  {| getParam_robot_description := true;
     initString := (true, robot);
     treeFromUrdfModel := (true, robot_tree);
     param_robot_description_package_path := "..";
     param_camera_frame := "camera";
     param_kinematic_frame := "base";
     getChain := (true, camera_chain) |}.

Abbreviation RobotWorld := (World Z Translation.frame).

Definition constructed : RobotWorld :=
  fst (RobotState_ctor 0 as_double Translation.Identity collaborators).

(** The object once the mesh paths have been asked for. *)
Definition selected : RobotWorld :=
  fst (GetPartMeshPaths 5 [] constructed).

Definition robot_InitKDLData (joint_state : JointState Z) : M RobotWorld unit :=
  InitKDLData 0 Translation.Identity Translation.mul
    Sliding.ChainFk_JntToCart Sliding.TreeFk_JntToCart joint_state.

Definition robot_GetTransforms (joint_state : JointState Z)
  (current_tfs : list Translation.frame) (noisy : bool)
  : M RobotWorld (list Translation.frame) :=
  GetTransforms 0 Translation.Identity Translation.mul (fun f => f)
    Sliding.ChainFk_JntToCart Sliding.TreeFk_JntToCart joint_state
    current_tfs noisy.

(** An update with one unknown name among its three entries. *)
Definition update_lift_wrist_slide : JointState Z :=
  {| js_name := ["lift"; "wrist"; "slide"]; js_position := [3; 9; 2] |}.

Definition update_lift : JointState Z :=
  {| js_name := ["lift"]; js_position := [3] |}.

Definition update_slide : JointState Z :=
  {| js_name := ["slide"]; js_position := [2] |}.

Definition update_lift_slide : JointState Z :=
  {| js_name := ["lift"; "slide"]; js_position := [3; 2] |}.

(** A description in which two links are each other's parent, beside the
    root: the parser accepts it, as it has exactly one link without parent. *)
Definition cyclic : URDF.Model Z :=
  {| URDF.links :=
       [ {| URDF.name := "left"; URDF.parent_link := Some 1%nat;
            URDF.visual := None |};
         {| URDF.name := "right"; URDF.parent_link := Some 0%nat;
            URDF.visual := None |};
         {| URDF.name := "world"; URDF.parent_link := None;
            URDF.visual := None |} ];
     URDF.joints := ∅;
     URDF.root := Some 2%nat |}.

(** A link arena with a second link that has no parent. *)
Definition orphaned : URDF.Model Z :=
  {| URDF.links :=
       [ {| URDF.name := "fixture"; URDF.parent_link := None;
            URDF.visual := None |};
         {| URDF.name := "world"; URDF.parent_link := None;
            URDF.visual := None |} ];
     URDF.joints := ∅;
     URDF.root := Some 1%nat |}.

Definition world_of (u : URDF.Model Z) : RobotWorld :=
  {| this := members_at_entry Translation.Identity u; console := [] |}.

(** The object after a resolution call with the update [{lift: 3, slide: 2}]. *)
Definition resolved : RobotWorld :=
  fst (robot_InitKDLData update_lift_slide selected).

(** An update with three names and one position, and an update with one
    name and two positions. *)
Definition update_surplus_names : JointState Z :=
  {| js_name := ["lift"; "wrist"; "slide"]; js_position := [3] |}.

Definition update_surplus_positions : JointState Z :=
  {| js_name := ["lift"]; js_position := [3; 2] |}.

(** A description whose only link bears a mesh with a file name of three
    characters. *)
Definition short_named : URDF.Model Z :=
  {| URDF.links :=
       [ {| URDF.name := "base"; URDF.parent_link := None;
            URDF.visual := mesh "b.x" |} ];
     URDF.joints := ∅;
     URDF.root := Some 0%nat |}.

(** The collaborators when the joint [lift] of the description is continuous
    and carries no limits. *)
Definition unlimited : Collaborators Z :=
  {| getParam_robot_description := true;
     initString :=
       (true,
        {| URDF.links := robot_links;
           URDF.joints :=
             <["lift" := {| URDF.joint_name := "lift";
                            URDF.type := URDF.CONTINUOUS;
                            URDF.limits := None |}]> robot_joints;
           URDF.root := Some 1%nat |});
     treeFromUrdfModel := (true, robot_tree);
     param_robot_description_package_path := "..";
     param_camera_frame := "camera";
     param_kinematic_frame := "base";
     getChain := (true, camera_chain) |}.

(** The collaborators when the camera frame is the kinematic frame: the
    chain [getChain] cuts from [base] to [base] has no segment. *)
Definition sensor_at_root : Collaborators Z :=
  {| getParam_robot_description := true;
     initString := (true, robot);
     treeFromUrdfModel := (true, robot_tree);
     param_robot_description_package_path := "..";
     param_camera_frame := "base";
     param_kinematic_frame := "base";
     getChain := (true, {| KDL.segments := [] |}) |}.

(** The object built with the sensor at the root, once the mesh paths have
    been asked for. *)
Definition selected_at_root : RobotWorld :=
  fst (GetPartMeshPaths 5 []
         (fst (RobotState_ctor 0 as_double Translation.Identity sensor_at_root))).

(** The collaborators when the camera frame, left at its default [XTION], is
    no segment of the tree: [getChain] fails and leaves the chain empty. *)
Definition chainless : Collaborators Z :=
  {| getParam_robot_description := true;
     initString := (true, robot);
     treeFromUrdfModel := (true, robot_tree);
     param_robot_description_package_path := "..";
     param_camera_frame := "XTION";
     param_kinematic_frame := "base";
     getChain := (false, {| KDL.segments := [] |}) |}.

(** The collaborators when no tree can be built from the description. *)
Definition treeless : Collaborators Z :=
  {| getParam_robot_description := true;
     initString := (true, robot);
     treeFromUrdfModel :=
       (false, {| KDL.getSegments := []; KDL.getNrOfJoints := 0 |});
     param_robot_description_package_path := "..";
     param_camera_frame := "camera";
     param_kinematic_frame := "base";
     getChain := (false, {| KDL.segments := [] |}) |}.

End Scenario.

(** * Properties *)

(** ** Generic facts on computations *)

Section Frames.

Context {S : Type} (R : S -> S -> Prop).
Context (R_refl : forall s, R s s).
Context (R_trans : forall s1 s2 s3, R s1 s2 -> R s2 s3 -> R s1 s3).

Lemma preserves_ret {A} (a : A) : preserves R (ret a).
Proof using R_refl. intros s. apply R_refl. Qed.

Lemma preserves_fault {A} (f : Fault) : preserves R (@fault S A f).
Proof using R_refl. intros s. apply R_refl. Qed.

Lemma preserves_gets {A} (f : S -> A) : preserves R (gets f).
Proof using R_refl. intros s. apply R_refl. Qed.

Lemma preserves_bind {A B} (m : M S A) (k : A -> M S B) :
  preserves R m -> (forall a, preserves R (k a)) -> preserves R (bind m k).
Proof using R_trans.
  intros Hm Hk s. unfold bind. specialize (Hm s).
  destruct (m s) as [s' [a | f |]]; simpl in *; auto.
  eapply R_trans; [exact Hm | apply Hk].
Qed.

Lemma preserves_for_each {A} (l : list A) (body : A -> M S unit) :
  (forall a, preserves R (body a)) -> preserves R (for_each l body).
Proof using R_refl R_trans.
  intros Hb. induction l as [| x l IH]; simpl.
  - apply preserves_ret.
  - apply preserves_bind; auto.
Qed.

Lemma preserves_deref {A} (p : option A) : preserves R (deref p).
Proof using R_refl. destruct p; [apply preserves_ret | apply preserves_fault]. Qed.

Lemma preserves_array_read {A} (v : list A) i : preserves R (array_read v i).
Proof using R_refl.
  unfold array_read. destruct (0 <=? i); [| apply preserves_fault].
  destruct (v !! Z.to_nat i); [apply preserves_ret | apply preserves_fault].
Qed.

Lemma preserves_array_write {A} (v : list A) i a :
  preserves R (array_write v i a).
Proof using R_refl.
  unfold array_write.
  destruct ((0 <=? i) && (i <? Z.of_nat (length v)));
    [apply preserves_ret | apply preserves_fault].
Qed.

Lemma preserves_substr s pos n : preserves R (substr s pos n).
Proof using R_refl.
  unfold substr. destruct (Z.of_nat (String.length s) <? pos);
    [apply preserves_fault | apply preserves_ret].
Qed.

Lemma preserves_call {A} mode (body : A -> M S A) arg :
  preserves R (body arg) -> preserves R (call mode body arg).
Proof using R_refl R_trans.
  intros H. unfold call. apply preserves_bind; [exact H |].
  intros a. apply preserves_ret.
Qed.

End Frames.

(** Results of [bind] by cases on the first computation. *)
Lemma bind_Ok {S A B} (m : M S A) (k : A -> M S B) s s' a :
  m s = (s', Ok a) -> bind m k s = k a s'.
Proof. intros H. unfold bind. now rewrite H. Qed.

Lemma bind_Crash {S A B} (m : M S A) (k : A -> M S B) s s' f :
  m s = (s', Crash f) -> bind m k s = (s', Crash f).
Proof. intros H. unfold bind. now rewrite H. Qed.

(** ** Machine integers and searches *)

Lemma to_int_small z : 0 <= z < 2 ^ 31 -> to_int z = z.
Proof.
  intros H. unfold to_int. rewrite Z.mod_small by lia.
  destruct (Z.ltb_spec z (2 ^ 31)); lia.
Qed.

Lemma std_find_absent v x : std_find v x = length v <-> x ∉ v.
Proof.
  induction v as [| y v IH]; simpl.
  - split; [intros _; apply not_elem_of_nil | reflexivity].
  - destruct (String.eqb_spec y x) as [-> | Hne].
    + split; [discriminate | intros H; exfalso; apply H; left].
    + rewrite not_elem_of_cons. split.
      * intros H. split; [congruence | apply IH; lia].
      * intros [_ H]. f_equal. now apply IH.
Qed.

Lemma std_find_present v x :
  x ∈ v -> v !! std_find v x = Some x /\ (std_find v x < length v)%nat.
Proof.
  induction v as [| y v IH]; simpl.
  - intros H. now apply elem_of_nil in H.
  - intros H. destruct (String.eqb_spec y x) as [-> | Hne].
    + split; [reflexivity | lia].
    + apply elem_of_cons in H as [-> | H]; [congruence |].
      destruct (IH H). split; [assumption | lia].
Qed.

Lemma std_find_first v x j : (j < std_find v x)%nat -> v !! j <> Some x.
Proof.
  revert j. induction v as [| y v IH]; simpl; intros j Hj; [lia |].
  destruct (String.eqb_spec y x) as [-> | Hne]; [lia |].
  destruct j as [| j]; simpl; [congruence | apply IH; lia].
Qed.

(** [GetJointIndex_from] returns [-1] exactly for the names that are not in
    the table, and otherwise the first position of the name. *)
Lemma GetJointIndex_from_absent i jm nm :
  nm ∉ jm -> GetJointIndex_from i jm nm = -1.
Proof.
  revert i. induction jm as [| y jm IH]; simpl; intros i H; [reflexivity |].
  apply not_elem_of_cons in H as [Hne H].
  destruct (String.eqb_spec y nm); [congruence | now apply IH].
Qed.

Lemma GetJointIndex_from_find i jm nm :
  nm ∈ jm -> Z.of_nat (i + length jm) <= 2 ^ 31 ->
  GetJointIndex_from i jm nm = Z.of_nat (i + std_find jm nm).
Proof.
  revert i. induction jm as [| y jm IH]; simpl; intros i H Hlen.
  - now apply elem_of_nil in H.
  - destruct (String.eqb_spec y nm) as [-> | Hne].
    + rewrite to_int_small by lia. f_equal. lia.
    + apply elem_of_cons in H as [-> | H]; [congruence |].
      rewrite IH by (auto; lia). f_equal. lia.
Qed.

Lemma GetJointIndex_from_first i jm nm k :
  NoDup jm -> jm !! k = Some nm -> Z.of_nat (i + length jm) <= 2 ^ 31 ->
  GetJointIndex_from i jm nm = Z.of_nat (i + k).
Proof.
  intros Hnd Hk Hlen.
  assert (Hin : nm ∈ jm) by (eapply list_elem_of_lookup_2; eauto).
  rewrite GetJointIndex_from_find by auto.
  destruct (std_find_present jm nm Hin) as [Hf _].
  do 2 f_equal. eapply NoDup_lookup; eauto.
Qed.

Lemma GetJointIndex_from_range jm nm :
  Z.of_nat (length jm) <= 2 ^ 31 ->
  has_index jm nm = true ->
  0 <= GetJointIndex_from 0 jm nm < Z.of_nat (length jm)
  /\ jm !! Z.to_nat (GetJointIndex_from 0 jm nm) = Some nm.
Proof.
  intros Hlen Hi. unfold has_index in Hi. apply Z.leb_le in Hi.
  destruct (decide (nm ∈ jm)) as [Hin | Hout].
  - rewrite GetJointIndex_from_find by (auto; simpl; lia). simpl.
    destruct (std_find_present jm nm Hin) as [Hl Hlt].
    rewrite Nat2Z.id. split; [lia | assumption].
  - rewrite GetJointIndex_from_absent in Hi by assumption. lia.
Qed.

Lemma has_index_elem_of jm nm :
  Z.of_nat (length jm) <= 2 ^ 31 -> has_index jm nm = true <-> nm ∈ jm.
Proof.
  intros Hlen. split.
  - intros H. destruct (GetJointIndex_from_range jm nm Hlen H) as [_ Hl].
    eapply list_elem_of_lookup_2; eauto.
  - intros Hin. unfold has_index. apply Z.leb_le.
    rewrite GetJointIndex_from_find by (auto; simpl; lia). lia.
Qed.

Lemma unknown_entries_reports jm i names :
  Z.of_nat (length jm) <= 2 ^ 31 ->
  unknown_entries jm i names = unknown_reports jm i names.
Proof.
  intros Hlen. revert i.
  induction names as [| nm names IH]; intros i; simpl; [reflexivity |].
  rewrite IH. f_equal.
  destruct (has_index jm nm) eqn:Hi.
  - apply has_index_elem_of in Hi; [| assumption].
    now rewrite bool_decide_eq_true_2.
  - rewrite bool_decide_eq_false_2; [reflexivity |].
    intros Hin. apply has_index_elem_of in Hin; [| assumption]. congruence.
Qed.

Lemma index_of_std_find jm nm k :
  index_of jm nm k <-> nm ∈ jm /\ std_find jm nm = k.
Proof.
  split.
  - intros [Hk Hfirst].
    assert (Hin : nm ∈ jm) by (eapply list_elem_of_lookup_2; eauto).
    split; [exact Hin |].
    destruct (std_find_present jm nm Hin) as [Hf _].
    destruct (Nat.lt_trichotomy (std_find jm nm) k) as [Hlt | [Heq | Hgt]].
    + exfalso. now apply (Hfirst _ Hlt).
    + exact Heq.
    + exfalso. now apply (std_find_first jm nm k Hgt).
  - intros [Hin <-]. destruct (std_find_present jm nm Hin) as [Hf _].
    split; [exact Hf |]. intros k' Hk'. now apply std_find_first.
Qed.

Lemma apply_entry_length {double} jm (ja : list (cell double)) e :
  length (apply_entry jm ja e) = length ja.
Proof.
  unfold apply_entry. destruct (has_index jm (fst e)); [| reflexivity].
  apply length_insert.
Qed.

Lemma apply_entries_length {double} jm es (ja : list (cell double)) :
  length (apply_entries jm es ja) = length ja.
Proof.
  unfold apply_entries. revert ja.
  induction es as [| e es IH]; intros ja; simpl; [reflexivity |].
  rewrite IH. apply apply_entry_length.
Qed.

Lemma apply_entries_app {double} jm es1 es2 (ja : list (cell double)) :
  apply_entries jm (es1 ++ es2) ja
  = apply_entries jm es2 (apply_entries jm es1 ja).
Proof. unfold apply_entries. apply foldl_app. Qed.

(** A position no entry of [es] is mapped to keeps its content. *)
Lemma apply_entries_other {double} jm es (ja : list (cell double)) (k : nat) :
  (forall e, e ∈ es -> has_index jm (fst e) = true ->
             Z.to_nat (GetJointIndex_from 0 jm (fst e)) <> k) ->
  apply_entries jm es ja !! k = ja !! k.
Proof.
  unfold apply_entries. revert ja.
  induction es as [| e es IH]; intros ja H; simpl; [reflexivity |].
  rewrite IH by (intros e' He'; apply H; now right).
  unfold apply_entry. destruct (has_index jm (fst e)) eqn:Hi; [| reflexivity].
  apply list_lookup_insert_ne. apply H; [left | assumption].
Qed.

(** The last entry mapped to a position decides its content. *)
Lemma apply_entries_last {double} jm es1 nm (x : double) es2
  (ja : list (cell double)) :
  Z.of_nat (length jm) <= 2 ^ 31 ->
  length ja = length jm ->
  has_index jm nm = true ->
  (forall e, e ∈ es2 -> has_index jm (fst e) = true ->
             GetJointIndex_from 0 jm (fst e) <> GetJointIndex_from 0 jm nm) ->
  apply_entries jm (es1 ++ (nm, x) :: es2) ja
    !! Z.to_nat (GetJointIndex_from 0 jm nm) = Some (Val x).
Proof.
  intros Hlen Hja Hi Hlater.
  rewrite apply_entries_app. change ((nm, x) :: es2) with ([(nm, x)] ++ es2).
  rewrite apply_entries_app. rewrite apply_entries_other.
  - unfold apply_entries at 1. simpl. unfold apply_entry. simpl. rewrite Hi.
    apply list_lookup_insert_eq. rewrite apply_entries_length.
    destruct (GetJointIndex_from_range jm nm Hlen Hi) as [Hr _]. lia.
  - intros e He Hie Heq. apply (Hlater e He Hie).
    destruct (GetJointIndex_from_range jm nm Hlen Hi) as [Hr _].
    destruct (GetJointIndex_from_range jm (fst e) Hlen Hie) as [Hr' _]. lia.
Qed.

(** ** The member functions *)

Section Resolution.

Context {double Frame Affine3d : Type}.
Context (zero : double) (limit_cast : double -> double).
Context (Frame_Identity : Frame) (Frame_mul : Frame -> Frame -> Frame).
Context (transformKDLToEigen : Frame -> Affine3d).
Context (ChainFk_JntToCart : KDL.Chain -> list (cell double) -> Frame -> Z * Frame).
Context (TreeFk_JntToCart :
           KDL.Tree -> list (cell double) -> Frame -> string -> Z * Frame).

Local Abbreviation W := (World double Frame).
Local Abbreviation RState := (RobotState double Frame).
Local Abbreviation link_frame :=
  (link_frame_of Frame_Identity Frame_mul TreeFk_JntToCart).
Local Abbreviation link_fails := (link_fails_of Frame_Identity TreeFk_JntToCart).

Lemma say_nil (w : W) : say [] w = w.
Proof. destruct w. unfold say. simpl. now rewrite app_nil_r. Qed.

Lemma say_say es1 es2 (w : W) : say es2 (say es1 w) = say (es1 ++ es2) w.
Proof. unfold say. simpl. now rewrite app_assoc. Qed.

(** *** [GetInitialJoints] *)

Lemma GetInitialJoints_loop_spec (position : list double) :
  forall (used pre post : list string) (ja : list (cell double)) (w : W),
    length used = length position ->
    length ja = length (joint_map_ (this w)) ->
    Z.of_nat (length (joint_map_ (this w))) <= 2 ^ 31 ->
    Z.of_nat (length pre + length used) <= 2 ^ 31 ->
    GetInitialJoints_loop (pre ++ used ++ post) position (length pre) ja w
    = (say (unknown_entries (joint_map_ (this w)) (length pre) used) w,
       Ok (apply_entries (joint_map_ (this w)) (zip used position) ja)).
Proof.
  induction position as [| x position IH];
    intros [| nm used] pre post ja w Hu Hja Hjm Hlen; try discriminate.
  - simpl. now rewrite say_nil.
  - simpl in Hu. injection Hu as Hu.
    cbn [GetInitialJoints_loop].
    assert (Hread : @array_read W _ (pre ++ (nm :: used) ++ post)
                      (Z.of_nat (length pre)) w = (w, Ok nm)).
    { unfold array_read. destruct (Z.leb_spec 0 (Z.of_nat (length pre))); [| lia].
      rewrite Nat2Z.id. simpl. now rewrite list_lookup_middle. }
    rewrite (bind_Ok _ _ _ _ _ Hread).
    unfold member at 1. unfold gets at 1. unfold bind at 1.
    unfold GetJointIndex. fold (has_index (joint_map_ (this w)) nm).
    replace (pre ++ (nm :: used) ++ post) with ((pre ++ [nm]) ++ used ++ post)
      by (now rewrite <- app_assoc).
    replace (S (length pre)) with (length (pre ++ [nm]))
      by (rewrite length_app; simpl; lia).
    assert (Hlen' : Z.of_nat (length (pre ++ [nm]) + length used) <= 2 ^ 31).
    { rewrite length_app. simpl in *. lia. }
    cbn [zip zip_with unknown_entries]. unfold apply_entries. cbn [foldl].
    unfold apply_entry at 2. cbn [fst snd].
    destruct (has_index (joint_map_ (this w)) nm) eqn:Hi.
    + destruct (GetJointIndex_from_range _ _ Hjm Hi) as [Hr _].
      unfold array_write.
      destruct (Z.leb_spec 0 (GetJointIndex_from 0 (joint_map_ (this w)) nm));
        [| lia].
      destruct (Z.ltb_spec (GetJointIndex_from 0 (joint_map_ (this w)) nm)
                  (Z.of_nat (length ja))); [| lia].
      cbn [andb]. unfold bind at 1, ret at 1.
      rewrite IH by (auto; rewrite length_insert; auto).
      rewrite length_app. simpl. now replace (length pre + 1)%nat with (S (length pre)) by lia.
    + unfold bind at 1. unfold bind at 1. unfold print at 1, modify at 1.
      unfold ret at 1.
      rewrite to_int_small by (simpl in Hlen; lia).
      change {| this := this w;
                console := console w
                  ++ [ROS_ERROR_no_joint_index (Z.of_nat (length pre)) nm] |}
        with (say [ROS_ERROR_no_joint_index (Z.of_nat (length pre)) nm] w).
      rewrite IH by auto. rewrite say_say. cbn [this say].
      rewrite length_app. simpl.
      now replace (length pre + 1)%nat with (S (length pre)) by lia.
Qed.

(** The call [GetInitialJoints(state, jnt_angles)] on a sparse update whose
    names and values are paired. *)
Lemma GetInitialJoints_spec (state : JointState double)
  (jnt_angles : list (cell double)) (w : W) :
  length (js_name state) = length (js_position state) ->
  length (joint_map_ (this w)) = num_joints (this w) ->
  Z.of_nat (length (joint_map_ (this w))) <= 2 ^ 31 ->
  Z.of_nat (length (js_name state)) <= 2 ^ 31 ->
  GetInitialJoints state jnt_angles w
  = (say (unknown_entries (joint_map_ (this w)) 0 (js_name state)) w,
     Ok (apply_entries (joint_map_ (this w))
           (zip (js_name state) (js_position state))
           (Eigen_resize jnt_angles (num_joints (this w))))).
Proof.
  intros Hnp Hn Hjm Hlen.
  unfold GetInitialJoints, call, GetInitialJoints_body.
  unfold member at 1, gets at 1. unfold bind at 2. unfold bind at 1.
  pose proof (GetInitialJoints_loop_spec (js_position state) (js_name state)
                [] [] (Eigen_resize jnt_angles (num_joints (this w))) w) as H.
  simpl in H. rewrite app_nil_r in H. rewrite H; [reflexivity | auto .. ].
  unfold Eigen_resize. destruct (decide _) as [-> | _]; [now rewrite Hn |].
  rewrite length_replicate. now rewrite Hn.
Qed.

Lemma unknown_entries_elem_of jm k names i nm :
  names !! i = Some nm -> has_index jm nm = false ->
  ROS_ERROR_no_joint_index (Z.of_nat (k + i)) nm ∈ unknown_entries jm k names.
Proof.
  revert k i. induction names as [| y names IH]; intros k i Hl Hi;
    [discriminate |].
  simpl. destruct i as [| i]; simpl in Hl.
  - injection Hl as ->. rewrite Hi. rewrite Nat.add_0_r. now left.
  - apply elem_of_app. right.
    replace (k + S i)%nat with (S k + i)%nat by lia. now apply IH.
Qed.

Lemma unknown_entries_length jm k names :
  length (unknown_entries jm k names)
  = length (filter (fun nm => has_index jm nm = false) names).
Proof.
  revert k. induction names as [| y names IH]; intros k; [reflexivity |].
  simpl. rewrite length_app, IH, filter_cons.
  destruct (decide (has_index jm y = false)) as [-> | Hn]; [reflexivity |].
  destruct (has_index jm y); [reflexivity | congruence].
Qed.

Lemma unknown_entries_inv jm k names e :
  e ∈ unknown_entries jm k names ->
  exists i nm, names !! i = Some nm /\ has_index jm nm = false
               /\ e = ROS_ERROR_no_joint_index (Z.of_nat (k + i)) nm.
Proof.
  revert k. induction names as [| y names IH]; intros k H; simpl in H.
  - now apply elem_of_nil in H.
  - apply elem_of_app in H as [H | H].
    + destruct (has_index jm y) eqn:Hi; [now apply elem_of_nil in H |].
      apply list_elem_of_singleton in H as ->.
      exists 0%nat, y. rewrite Nat.add_0_r. auto.
    + destruct (IH _ H) as (i & nm & Hl & Hi & ->).
      exists (S i), nm. replace (k + S i)%nat with (S k + i)%nat by lia. auto.
Qed.

(** The value of the entry at input position [i] is what the dense vector
    holds at the entry's index, unless a later entry has the same index. *)
Lemma apply_entries_lookup jm (names : list string) (positions : list double)
  (ja : list (cell double)) i nm x :
  Z.of_nat (length jm) <= 2 ^ 31 ->
  length ja = length jm ->
  names !! i = Some nm -> positions !! i = Some x ->
  has_index jm nm = true ->
  (forall j nm', (i < j)%nat -> names !! j = Some nm' ->
                 has_index jm nm' = true ->
                 GetJointIndex_from 0 jm nm' <> GetJointIndex_from 0 jm nm) ->
  apply_entries jm (zip names positions) ja
    !! Z.to_nat (GetJointIndex_from 0 jm nm) = Some (Val x).
Proof.
  intros Hjm Hja Hn Hp Hi Hlater.
  assert (Hz : zip names positions !! i = Some (nm, x))
    by (apply lookup_zip_Some; auto).
  rewrite <- (take_drop_middle _ _ _ Hz).
  apply apply_entries_last; auto.
  intros e He Hie. apply list_elem_of_lookup in He as [j Hj].
  rewrite lookup_drop in Hj. destruct e as [nm' x'].
  apply lookup_zip_Some in Hj as [Hj _].
  apply (Hlater (S i + j)%nat nm'); auto. lia.
Qed.

(** The same in terms of the joint table alone: the cell at the index of a
    name holds the value of the last entry of that name, and a cell that is
    the index of no name of the update keeps its content. *)
Lemma apply_entries_index_of jm (names : list string) (positions : list double)
  (ja : list (cell double)) i nm x k :
  Z.of_nat (length jm) <= 2 ^ 31 ->
  length ja = length jm ->
  names !! i = Some nm -> positions !! i = Some x ->
  index_of jm nm k ->
  (forall j, (i < j)%nat -> names !! j <> Some nm) ->
  apply_entries jm (zip names positions) ja !! k = Some (Val x).
Proof.
  intros Hjm Hja Hl Hp Hk Hlater.
  assert (Hidx : forall nm, nm ∈ jm ->
             Z.to_nat (GetJointIndex_from 0 jm nm) = std_find jm nm).
  { intros nm0 Hin. rewrite GetJointIndex_from_find by (auto; simpl; lia).
    simpl. apply Nat2Z.id. }
  apply index_of_std_find in Hk as [Hin <-].
  rewrite <- (Hidx nm Hin).
  apply (apply_entries_lookup _ names positions _ i nm x); auto.
  - now apply has_index_elem_of.
  - intros j nm' Hij Hj Hi' Heq.
    apply has_index_elem_of in Hi'; [| assumption].
    apply (Hlater j Hij). rewrite Hj. f_equal.
    assert (Hs : std_find jm nm' = std_find jm nm).
    { rewrite <- (Hidx nm' Hi'), <- (Hidx nm Hin). now rewrite Heq. }
    destruct (std_find_present _ _ Hi') as [H1 _].
    destruct (std_find_present _ _ Hin) as [H2 _].
    rewrite Hs in H1. congruence.
Qed.

Lemma apply_entries_unnamed jm (names : list string) (positions : list double)
  (ja : list (cell double)) k :
  Z.of_nat (length jm) <= 2 ^ 31 ->
  (forall nm, nm ∈ names -> ~ index_of jm nm k) ->
  apply_entries jm (zip names positions) ja !! k = ja !! k.
Proof.
  intros Hjm Hk. apply apply_entries_other. intros [nm x] He Hi Hidx.
  apply elem_of_zip_l in He. cbn [fst] in *.
  apply has_index_elem_of in Hi; [| assumption].
  apply (Hk nm He). apply index_of_std_find. split; [exact Hi |].
  rewrite GetJointIndex_from_find in Hidx by (auto; simpl; lia).
  simpl in Hidx. now rewrite Nat2Z.id in Hidx.
Qed.

(** C4. In a sparse update, every entry whose name is not a name of the
    joint table is reported with its input position and skipped, and the
    update is not aborted: the reports are exactly those, one per such entry,
    in input order.  Every entry whose name is in the table takes effect: the
    cell at the index of the name, its first position in the table, holds the
    value of the last entry of that name.  A cell that is the index of no name
    of the update is as the resizing of the vector left it. *)
Theorem unknown_joint_reported_and_skipped (state : JointState double)
  (jnt_angles : list (cell double)) (w : W) :
  length (js_name state) = length (js_position state) ->
  length (joint_map_ (this w)) = num_joints (this w) ->
  Z.of_nat (length (joint_map_ (this w))) <= 2 ^ 31 ->
  Z.of_nat (length (js_name state)) <= 2 ^ 31 ->
  exists (w' : W) (res : list (cell double)) (reports : list Event),
    GetInitialJoints state jnt_angles w = (w', Ok res)
    /\ this w' = this w
    /\ console w' = console w ++ reports
    /\ reports = unknown_reports (joint_map_ (this w)) 0 (js_name state)
    /\ (forall i nm, js_name state !! i = Some nm ->
                     nm ∉ joint_map_ (this w) ->
                     ROS_ERROR_no_joint_index (Z.of_nat i) nm ∈ reports)
    /\ (forall e, e ∈ reports ->
                  exists i nm, js_name state !! i = Some nm
                               /\ (nm ∉ joint_map_ (this w))
                               /\ e = ROS_ERROR_no_joint_index (Z.of_nat i) nm)
    /\ length reports
       = length (filter (fun nm => nm ∉ joint_map_ (this w)) (js_name state))
    /\ length res = num_joints (this w)
    /\ (forall i nm x k,
          js_name state !! i = Some nm -> js_position state !! i = Some x ->
          index_of (joint_map_ (this w)) nm k ->
          (forall j, (i < j)%nat -> js_name state !! j <> Some nm) ->
          res !! k = Some (Val x))
    /\ (forall k,
          (forall nm, nm ∈ js_name state ->
                      ~ index_of (joint_map_ (this w)) nm k) ->
          res !! k = Eigen_resize jnt_angles (num_joints (this w)) !! k).
Proof.
  intros Hnp Hn Hjm Hlen.
  eexists _, _, _. split; [apply GetInitialJoints_spec; auto |].
  assert (Hneg : forall nm, has_index (joint_map_ (this w)) nm = false
                            <-> nm ∉ joint_map_ (this w)).
  { intros nm. pose proof (has_index_elem_of (joint_map_ (this w)) nm Hjm) as H.
    destruct (has_index (joint_map_ (this w)) nm); split; intros H'.
    - discriminate.
    - exfalso. apply H'. now apply H.
    - intros Hin. apply H in Hin. discriminate.
    - reflexivity. }
  assert (Hsz : length (Eigen_resize jnt_angles (num_joints (this w)))
                = length (joint_map_ (this w))).
  { unfold Eigen_resize. destruct (decide _) as [-> | _]; [now rewrite Hn |].
    rewrite length_replicate. now rewrite Hn. }
  split; [reflexivity |]. split; [reflexivity |].
  split; [now apply unknown_entries_reports |].
  split; [| split; [| split; [| split; [| split]]]].
  - intros i nm Hl Hi. apply Hneg in Hi.
    apply (unknown_entries_elem_of _ 0%nat _ i nm Hl Hi).
  - intros e He. apply unknown_entries_inv in He as (i & nm & Hl & Hi & ->).
    exists i, nm. rewrite <- Hneg. auto.
  - rewrite unknown_entries_length. f_equal. apply list_filter_iff.
    intros nm. apply Hneg.
  - rewrite apply_entries_length, Hsz. exact Hn.
  - intros i nm x k Hl Hp Hk Hlater.
    now apply (apply_entries_index_of _ (js_name state) (js_position state)
                 _ i nm x k).
  - intros k Hk. now apply apply_entries_unnamed.
Qed.

(** *** Members a function leaves alone *)

Lemma keeps_refl {A} (f : RState -> A) (w : W) : keeps f w w.
Proof. reflexivity. Qed.

Lemma keeps_trans {A} (f : RState -> A) (w1 w2 w3 : W) :
  keeps f w1 w2 -> keeps f w2 w3 -> keeps f w1 w3.
Proof. unfold keeps. congruence. Qed.

Lemma keeps_print {A} (f : RState -> A) e : preserves (keeps f) (print e).
Proof. intros w. reflexivity. Qed.

Lemma keeps_member {A B} (f : RState -> A) (g : RState -> B) :
  preserves (keeps f) (member g).
Proof. intros w. reflexivity. Qed.

Lemma keeps_lift {A B} (f : RState -> A) (o : Outcome B) :
  preserves (keeps f) (lift o).
Proof. intros w. reflexivity. Qed.

Lemma keeps_update {A} (f : RState -> A) (g : RState -> RState) :
  (forall s, f (g s) = f s) -> preserves (keeps f) (update g).
Proof. intros H w. unfold keeps. simpl. apply H. Qed.

Ltac frame_step :=
  match goal with
  | |- preserves _ (bind _ _) =>
      apply preserves_bind; [apply keeps_trans | | intros ?]
  | |- preserves _ (ret _) => apply preserves_ret, keeps_refl
  | |- preserves _ (fault _) => apply preserves_fault, keeps_refl
  | |- preserves _ (deref _) => apply preserves_deref, keeps_refl
  | |- preserves _ (array_read _ _) => apply preserves_array_read, keeps_refl
  | |- preserves _ (array_write _ _ _) =>
      apply preserves_array_write, keeps_refl
  | |- preserves _ (substr _ _ _) => apply preserves_substr, keeps_refl
  | |- preserves _ (print _) => apply keeps_print
  | |- preserves _ (member _) => apply keeps_member
  | |- preserves _ (lift _) => apply keeps_lift
  | |- preserves _ (update _) => apply keeps_update; intros ?; auto
  | |- preserves _ (for_each _ _) =>
      apply preserves_for_each; [apply keeps_refl | apply keeps_trans | intros ?]
  | |- preserves _ (call _ _ _) =>
      apply preserves_call; [apply keeps_refl | apply keeps_trans |]
  | |- preserves _ (if ?b then _ else _) => destruct b
  | |- preserves _ (match ?x with _ => _ end) => destruct x
  end.

Ltac frame := repeat frame_step.

Lemma GetInitialJoints_keeps {A} (f : RState -> A) state jnt_angles :
  preserves (keeps f) (GetInitialJoints state jnt_angles).
Proof.
  unfold GetInitialJoints, GetInitialJoints_body. frame.
  generalize (Eigen_resize jnt_angles a), 0%nat.
  induction (js_position state) as [| x l IH]; intros ja i; simpl; frame.
  apply IH.
Qed.

Lemma SetCameraTransform_loop_keeps {A} (f : RState -> A) idxs j arr :
  preserves (keeps f) (SetCameraTransform_loop idxs j arr).
Proof.
  revert j arr. induction idxs as [| i idxs IH]; intros j arr; simpl; frame;
    apply IH.
Qed.

Lemma SetCameraTransform_keeps {A} (f : RState -> A) :
  (forall v s, f (set_cam_frame_ v s) = f s) ->
  preserves (keeps f) (SetCameraTransform zero ChainFk_JntToCart).
Proof.
  intros H. unfold SetCameraTransform. frame.
  apply SetCameraTransform_loop_keeps.
Qed.

Lemma ComputeLinkTransforms_keeps {A} (f : RState -> A) :
  (forall v s, f (set_frame_map_ v s) = f s) ->
  preserves (keeps f)
    (ComputeLinkTransforms Frame_Identity Frame_mul TreeFk_JntToCart).
Proof.
  intros H. unfold ComputeLinkTransforms, ComputeLinkTransforms_segment. frame.
Qed.

Lemma InitKDLData_keeps {A} (f : RState -> A) joint_state :
  (forall v s, f (set_jnt_array_ v s) = f s) ->
  (forall v s, f (set_cam_frame_ v s) = f s) ->
  (forall v s, f (set_frame_map_ v s) = f s) ->
  preserves (keeps f)
    (InitKDLData zero Frame_Identity Frame_mul ChainFk_JntToCart
       TreeFk_JntToCart joint_state).
Proof.
  intros H1 H2 H3. unfold InitKDLData. frame.
  - apply GetInitialJoints_keeps.
  - now apply SetCameraTransform_keeps.
  - now apply ComputeLinkTransforms_keeps.
Qed.

Lemma GetTransforms_loop_keeps {A} (f : RState -> A) segs tfs :
  (forall v s, f (set_frame_map_ v s) = f s) ->
  preserves (keeps f)
    (GetTransforms_loop Frame_Identity transformKDLToEigen segs tfs).
Proof.
  intros H. revert tfs.
  induction segs as [| e segs IH]; intros tfs; simpl; unfold frame_map_at;
    frame; apply IH.
Qed.

Lemma GetTransforms_keeps {A} (f : RState -> A) joint_state tfs noisy :
  (forall v s, f (set_jnt_array_ v s) = f s) ->
  (forall v s, f (set_cam_frame_ v s) = f s) ->
  (forall v s, f (set_frame_map_ v s) = f s) ->
  preserves (keeps f)
    (GetTransforms zero Frame_Identity Frame_mul transformKDLToEigen
       ChainFk_JntToCart TreeFk_JntToCart joint_state tfs noisy).
Proof.
  intros H1 H2 H3. unfold GetTransforms, GetTransforms_body. frame.
  - now apply InitKDLData_keeps.
  - now apply GetTransforms_loop_keeps.
Qed.

Lemma GetPartMeshPaths_keeps {A} (f : RState -> A) fuel paths :
  (forall v s, f (set_part_mesh_map_ v s) = f s) ->
  preserves (keeps f) (GetPartMeshPaths (Frame := Frame) fuel paths).
Proof.
  intros H. unfold GetPartMeshPaths, GetPartMeshPaths_body. frame.
  generalize (seq 0 (length (URDF.links a))). intros idxs. revert paths.
  induction idxs as [| i idxs IH]; intros paths; simpl; frame; try apply IH.
  all: unfold GetPartMeshPaths_link, record_mesh; frame.
Qed.

(** *** [InitKDLData]: the dense joint vector *)

Lemma Eigen_resize_nil (n : nat) :
  Eigen_resize (@nil (cell double)) n = replicate n Indeterminate.
Proof.
  unfold Eigen_resize. destruct (decide _) as [H | _]; [| reflexivity].
  simpl in H. now subst n.
Qed.

Lemma InitKDLData_jnt_array (joint_state : JointState double) (w : W) :
  length (js_name joint_state) = length (js_position joint_state) ->
  length (joint_map_ (this w)) = num_joints (this w) ->
  Z.of_nat (length (joint_map_ (this w))) <= 2 ^ 31 ->
  Z.of_nat (length (js_name joint_state)) <= 2 ^ 31 ->
  jnt_array_ (this (fst (InitKDLData zero Frame_Identity Frame_mul
                           ChainFk_JntToCart TreeFk_JntToCart joint_state w)))
  = apply_entries (joint_map_ (this w))
      (zip (js_name joint_state) (js_position joint_state))
      (replicate (num_joints (this w)) Indeterminate).
Proof.
  intros Hnp Hn Hjm Hlen. unfold InitKDLData.
  rewrite (bind_Ok _ _ _ _ _ (GetInitialJoints_spec _ [] w Hnp Hn Hjm Hlen)).
  rewrite Eigen_resize_nil.
  set (res := apply_entries _ _ _).
  set (w1 := say _ w).
  unfold bind at 1. unfold update at 1, modify at 1.
  set (w2 := {| this := set_jnt_array_ res (this w1); console := console w1 |}).
  assert (H : preserves (keeps jnt_array_)
                (SetCameraTransform zero ChainFk_JntToCart ;;;
                 ComputeLinkTransforms Frame_Identity Frame_mul TreeFk_JntToCart)).
  { frame.
    - now apply SetCameraTransform_keeps.
    - now apply ComputeLinkTransforms_keeps. }
  specialize (H w2). unfold keeps in H. rewrite H. reflexivity.
Qed.


(** *** [ComputeLinkTransforms] *)

Lemma set_frame_map_id (w : W) :
  {| this := set_frame_map_ (frame_map_ (this w)) (this w);
     console := console w ++ [] |} = w.
Proof. destruct w as [[] c]. unfold set_frame_map_. simpl. now rewrite app_nil_r. Qed.

Lemma tree_reports_cons failing n ns :
  tree_reports failing (n :: ns)
  = (if failing n then [ROS_ERROR_tree_solver n] else [])
    ++ tree_reports failing ns.
Proof.
  unfold tree_reports. rewrite filter_cons.
  destruct (decide (failing n = true)) as [-> | H]; [reflexivity |].
  destruct (failing n); [congruence | reflexivity].
Qed.

Lemma ComputeLinkTransforms_segment_spec (e : string * KDL.TreeElement)
  (w : W) (t : KDL.Tree) :
  tree_solver_ (this w) = Some t ->
  let n := KDL.getName (KDL.segment (snd e)) in
  ComputeLinkTransforms_segment Frame_Identity Frame_mul TreeFk_JntToCart e w
  = ({| this := set_frame_map_
                  (match link_frame (this w) t n with
                   | Some f => <[n := f]> (frame_map_ (this w))
                   | None => frame_map_ (this w)
                   end) (this w);
        console := console w
                   ++ (if link_fails (this w) t n
                       then [ROS_ERROR_tree_solver n] else []) |},
     Ok tt).
Proof.
  intros Ht n. unfold ComputeLinkTransforms_segment, link_frame_of, link_fails_of.
  fold n. unfold member, gets, bind, deref, update, modify, ret, print.
  destruct (tracked (this w) n).
  - rewrite Ht. cbn [andb].
    destruct (fst (TreeFk_JntToCart t (jnt_array_ (this w)) Frame_Identity n) <? 0);
      [reflexivity | now rewrite app_nil_r].
  - simpl. now rewrite set_frame_map_id.
Qed.

Lemma ComputeLinkTransforms_loop_spec (segs : KDL.SegmentMap) :
  forall (w : W) (t : KDL.Tree),
    tree_solver_ (this w) = Some t ->
    for_each segs
      (ComputeLinkTransforms_segment Frame_Identity Frame_mul TreeFk_JntToCart) w
    = ({| this := set_frame_map_
                    (store_frames (link_frame (this w) t) (segment_names segs)
                       (frame_map_ (this w)))
                    (this w);
          console := console w
                     ++ tree_reports (link_fails (this w) t) (segment_names segs) |},
       Ok tt).
Proof.
  induction segs as [| e segs IH]; intros w t Ht.
  - simpl. unfold ret, tree_reports, store_frames. simpl.
    now rewrite set_frame_map_id.
  - cbn [for_each].
    rewrite (bind_Ok _ _ _ _ _ (ComputeLinkTransforms_segment_spec e w t Ht)).
    rewrite (IH _ t) by exact Ht.
    unfold segment_names. rewrite fmap_cons. fold (segment_names segs).
    rewrite tree_reports_cons. unfold store_frames. cbn [foldl this console].
    rewrite <- app_assoc. reflexivity.
Qed.

Lemma store_frames_lookup (value : string -> option Frame) ns fm n f :
  n ∈ ns -> value n = Some f -> store_frames value ns fm !! n = Some f.
Proof.
  unfold store_frames. revert fm.
  induction ns as [| m ns IH] using rev_ind; intros fm Hin Hv.
  - now apply elem_of_nil in Hin.
  - rewrite foldl_app. simpl. destruct (decide (m = n)) as [-> | Hne].
    + rewrite Hv. apply lookup_insert_eq.
    + apply elem_of_app in Hin as [Hin | Hin];
        [| apply list_elem_of_singleton in Hin; congruence].
      destruct (value m); [rewrite lookup_insert_ne by assumption |]; auto.
Qed.

Lemma store_frames_other (value : string -> option Frame) ns fm n :
  n ∉ ns \/ value n = None -> store_frames value ns fm !! n = fm !! n.
Proof.
  unfold store_frames. revert fm.
  induction ns as [| m ns IH]; intros fm H; [reflexivity |].
  simpl. rewrite IH.
  - destruct (value m) eqn:Hm; [| reflexivity].
    apply lookup_insert_ne. intros ->. destruct H as [H | H]; [| congruence].
    apply H. left.
  - destruct H as [H | H]; [left | now right].
    intros Hin. apply H. now right.
Qed.

Lemma tree_reports_elem_of failing ns n :
  ROS_ERROR_tree_solver n ∈ tree_reports failing ns
  <-> n ∈ ns /\ failing n = true.
Proof.
  unfold tree_reports. rewrite list_elem_of_fmap. split.
  - intros (m & Heq & Hm). injection Heq as ->.
    apply list_elem_of_filter in Hm. destruct Hm. split; assumption.
  - intros [Hin Hf]. exists n. split; [reflexivity |].
    apply list_elem_of_filter. split; assumption.
Qed.

(** *** The constructor *)

Lemma writes_lookup (ws : list (nat * string)) :
  forall init : list string,
    NoDup (fst <$> ws) ->
    (forall p, p ∈ ws -> (fst p < length init)%nat) ->
    forall p, p ∈ ws ->
      foldl (fun jm p => <[fst p := snd p]> jm) init ws !! fst p = Some (snd p).
Proof.
  induction ws as [| p' ws IH] using rev_ind; intros init Hnd Hlt p Hp.
  - now apply elem_of_nil in Hp.
  - rewrite fmap_app in Hnd. apply NoDup_app in Hnd as (Hnd & Hdisj & _).
    rewrite foldl_app. simpl.
    assert (Hlen : forall l : list (nat * string),
               length (foldl (fun jm p => <[fst p := snd p]> jm) init l)
               = length init).
    { induction l as [| x l IHl] using rev_ind; [reflexivity |].
      rewrite foldl_app. simpl. now rewrite length_insert. }
    apply elem_of_app in Hp as [Hp | Hp].
    + rewrite list_lookup_insert_ne.
      * apply IH; auto. intros p0 Hp0. apply Hlt, elem_of_app. now left.
      * intros Heq. apply (Hdisj (fst p)).
        -- apply list_elem_of_fmap. eauto.
        -- rewrite <- Heq. simpl. left.
    + apply list_elem_of_singleton in Hp as ->.
      apply list_lookup_insert_eq. rewrite Hlen.
      apply Hlt, elem_of_app. right. left.
Qed.

Lemma writes_length (ws : list (nat * string)) (init : list string) :
  length (foldl (fun jm p => <[fst p := snd p]> jm) init ws) = length init.
Proof.
  revert init. induction ws as [| p ws IH]; intros init; [reflexivity |].
  simpl. rewrite IH. apply length_insert.
Qed.

Lemma set_joint_tables_id (w : W) :
  {| this := set_joint_tables (joint_map_ (this w)) (lower_limit_ (this w))
               (upper_limit_ (this w)) (this w);
     console := console w |} = w.
Proof. now destruct w as [[] c]. Qed.

Lemma movable_joints_cons e segs :
  movable_joints (e :: segs)
  = if KDL.movable (KDL.segment (snd e))
    then (KDL.q_nr (snd e),
          KDL.getJointName (KDL.getJoint (KDL.segment (snd e))))
         :: movable_joints segs
    else movable_joints segs.
Proof.
  unfold movable_joints. rewrite filter_cons.
  destruct (KDL.movable (KDL.segment (snd e))).
  - destruct (decide (true = true)); [reflexivity | congruence].
  - destruct (decide (false = true)); [congruence | reflexivity].
Qed.

Lemma ctor_segment_movable (e : string * KDL.TreeElement) (w : W) j lim :
  KDL.movable (KDL.segment (snd e)) = true ->
  URDF.getJoint (urdf_ (this w))
    (KDL.getJointName (KDL.getJoint (KDL.segment (snd e)))) = Some j ->
  URDF.type j <> URDF.UNKNOWN -> URDF.type j <> URDF.FIXED ->
  URDF.limits j = Some lim ->
  (KDL.q_nr (snd e) < length (joint_map_ (this w)))%nat ->
  length (lower_limit_ (this w)) = length (joint_map_ (this w)) ->
  length (upper_limit_ (this w)) = length (joint_map_ (this w)) ->
  (ctor_segment limit_cast) e w
  = ({| this := set_joint_tables
                  (<[KDL.q_nr (snd e) := URDF.joint_name j]> (joint_map_ (this w)))
                  (<[KDL.q_nr (snd e) := limit_cast (URDF.lower lim)]> (lower_limit_ (this w)))
                  (<[KDL.q_nr (snd e) := limit_cast (URDF.upper lim)]> (upper_limit_ (this w)))
                  (this w);
        console := console w |}, Ok tt).
Proof.
  intros Hmov Hj Hty1 Hty2 Hlim Hq Hlo Hup.
  assert (Hin : (0 <=? Z.of_nat (KDL.q_nr (snd e)))
                && (Z.of_nat (KDL.q_nr (snd e))
                    <? Z.of_nat (length (joint_map_ (this w)))) = true).
  { apply andb_true_intro. split; [apply Z.leb_le | apply Z.ltb_lt]; lia. }
  assert (Hw : forall (v : list string) (x : string),
             length v = length (joint_map_ (this w)) ->
             @array_write W _ v (Z.of_nat (KDL.q_nr (snd e))) x w
             = (w, Ok (<[KDL.q_nr (snd e) := x]> v))).
  { intros v x Hv. unfold array_write. rewrite Hv.
    destruct (Z.leb_spec 0 (Z.of_nat (KDL.q_nr (snd e)))); [| lia].
    destruct (Z.ltb_spec (Z.of_nat (KDL.q_nr (snd e)))
                (Z.of_nat (length (joint_map_ (this w))))); [| lia].
    cbn [andb]. now rewrite Nat2Z.id. }
  unfold ctor_segment. rewrite Hmov.
  unfold member at 1, gets at 1. unfold bind at 1. rewrite Hj.
  unfold deref at 1, ret at 1. unfold bind at 1.
  rewrite !bool_decide_eq_true_2 by assumption. cbn [andb].
  unfold member at 1, gets at 1. unfold bind at 1.
  rewrite (bind_Ok _ _ _ _ _ (Hw _ _ eq_refl)).
  unfold update at 1, modify at 1. unfold bind at 1.
  rewrite Hlim. unfold deref at 1, ret at 1. unfold bind at 1.
  unfold member at 1, gets at 1. unfold bind at 1.
  unfold array_write at 1. cbn [this lower_limit_ set_joint_tables].
  rewrite Hlo. rewrite Hin. unfold ret at 1. unfold bind at 1.
  unfold update at 1, modify at 1. unfold bind at 1.
  unfold deref at 1, ret at 1. unfold bind at 1.
  unfold member at 1, gets at 1. unfold bind at 1.
  unfold array_write at 1. cbn [this upper_limit_ set_joint_tables].
  rewrite Hup. rewrite Hin. unfold ret at 1. unfold bind at 1.
  unfold update, modify. cbn [this console set_joint_tables joint_map_
                                lower_limit_ upper_limit_].
  rewrite Nat2Z.id. reflexivity.
Qed.

Lemma ctor_loop_spec (segs : KDL.SegmentMap) :
  forall w : W,
    (forall q nm, (q, nm) ∈ movable_joints segs ->
       (q < length (joint_map_ (this w)))%nat
       /\ exists j, URDF.getJoint (urdf_ (this w)) nm = Some j
                    /\ URDF.joint_name j = nm
                    /\ URDF.type j <> URDF.UNKNOWN /\ URDF.type j <> URDF.FIXED
                    /\ is_Some (URDF.limits j)) ->
    length (lower_limit_ (this w)) = length (joint_map_ (this w)) ->
    length (upper_limit_ (this w)) = length (joint_map_ (this w)) ->
    exists lo up,
      for_each segs (ctor_segment limit_cast) w
      = ({| this := set_joint_tables
                      (foldl (fun jm p => <[fst p := snd p]> jm)
                         (joint_map_ (this w)) (movable_joints segs))
                      lo up (this w);
            console := console w |}, Ok tt).
Proof.
  induction segs as [| e segs IH]; intros w Hgood Hlo Hup.
  - exists (lower_limit_ (this w)), (upper_limit_ (this w)). simpl.
    unfold ret. now rewrite set_joint_tables_id.
  - cbn [for_each]. rewrite movable_joints_cons in Hgood |- *.
    destruct (KDL.movable (KDL.segment (snd e))) eqn:Hmov.
    + cbn [foldl fst snd].
      destruct (Hgood _ _ (list_elem_of_here _ _))
        as (Hq & j & Hj & Hnm & Hty1 & Hty2 & [lim Hlim]).
      rewrite (bind_Ok _ _ _ _ _
                 (ctor_segment_movable e w j lim Hmov Hj Hty1 Hty2 Hlim Hq Hlo Hup)).
      rewrite Hnm.
      match goal with
      | |- context [for_each segs (ctor_segment limit_cast) ?w1] =>
          destruct (IH w1) as (lo & up & ->)
      end.
      * intros q nm Hin. cbn [this joint_map_ urdf_ set_joint_tables].
        rewrite length_insert. apply Hgood. now right.
      * cbn [this set_joint_tables lower_limit_ joint_map_].
        now rewrite !length_insert.
      * cbn [this set_joint_tables upper_limit_ joint_map_].
        now rewrite !length_insert.
      * exists lo, up. reflexivity.
    + assert (Hs : (ctor_segment limit_cast) e w = (w, Ok tt))
        by (unfold ctor_segment; now rewrite Hmov).
      rewrite (bind_Ok _ _ _ _ _ Hs). apply IH; auto.
Qed.

Lemma vector_resize_nil {A} (d : A) n : vector_resize d n [] = replicate n d.
Proof. unfold vector_resize. rewrite take_nil. simpl. now rewrite Nat.sub_0_r. Qed.

Lemma ctor_spec (env : Collaborators double) :
  valid_topology env ->
  let tree := snd (treeFromUrdfModel env) in
  exists w : W,
    RobotState_ctor zero limit_cast Frame_Identity env = (w, Ok tt)
    /\ joint_map_ (this w)
       = foldl (fun jm p => <[fst p := snd p]> jm)
           (replicate (KDL.getNrOfJoints tree) EmptyString)
           (movable_joints (KDL.getSegments tree))
    /\ kin_tree_ (this w) = tree
    /\ segment_map_ (this w) = KDL.getSegments tree
    /\ base_2_cam_ (this w) = snd (getChain env)
    /\ chain_solver_ (this w) = Some (snd (getChain env))
    /\ tree_solver_ (this w) = Some tree
    /\ part_mesh_map_ (this w) = []
    /\ frame_map_ (this w) = ∅
    /\ jnt_array_ (this w) = []
    /\ cam_frame_ (this w) = Frame_Identity.
Proof.
  intros [Htree Hq Hnames Hurdf Hsize] tree.
  unfold RobotState_ctor, ctor_body. rewrite Htree. cbn [negb].
  fold tree in Hq, Hnames, Hurdf, Hsize |- *.
  set (w0 := {| this := members_at_entry Frame_Identity (snd (initString env));
                console := [] |}).
  assert (Hpre : forall (b : bool) (e : Event) (k : M W unit) (w : W),
             bind (if b then ret tt else print e) (fun _ => k) w
             = k (say (if b then [] else [e]) w)).
  { intros [] e k w; unfold bind, ret, print, modify; [now rewrite say_nil |].
    reflexivity. }
  rewrite !Hpre.
  set (w1 := say _ (say _ w0)).
  unfold update at 1, modify at 1. unfold bind at 1.
  cbn [this joint_map_ lower_limit_ upper_limit_ members_at_entry w1 w0 say].
  rewrite !vector_resize_nil.
  unfold member at 1, gets at 1. unfold bind at 1. cbn [this segment_map_].
  lazymatch goal with
  | |- exists w, _ ?w2 = _ /\ _ =>
      destruct (ctor_loop_spec (KDL.getSegments tree) w2) as (lo & up & Hloop)
  end.
  - intros q nm Hin. cbn [this joint_map_ urdf_]. rewrite length_replicate.
    split; [| now apply (Hurdf q)].
    assert (Hq' : q ∈ seq 0 (KDL.getNrOfJoints tree)).
    { rewrite <- Hq. apply list_elem_of_fmap. exists (q, nm). auto. }
    apply elem_of_seq in Hq'. lia.
  - cbn [this joint_map_ lower_limit_]. now rewrite !length_replicate.
  - cbn [this joint_map_ upper_limit_]. now rewrite !length_replicate.
  - rewrite (bind_Ok _ _ _ _ _ Hloop). cbv beta.
    assert (Hchain : forall (b : bool) (e1 e2 : Event) (k : M W unit) (w : W),
               bind (if b then print e1 else print e2) (fun _ => k) w
               = k (say [if b then e1 else e2] w)).
    { intros [] e1 e2 k w; reflexivity. }
    rewrite Hchain.
    unfold update, modify. eexists. split; [reflexivity |].
    cbn. repeat split; reflexivity.
Qed.

(** C2. The dense joint vector as the program has it.  The constructor
    leaves it empty.  Every resolution call replaces it by the vector that
    [GetInitialJoints] has sized afresh and filled from the update: it has
    one cell per joint; the cell at the index of a name of the update holds
    the value of the last entry of that name; the cell of a joint that the
    update does not name is indeterminate, whatever the vector held before
    the call. *)
Theorem update_replaces_dense_state (env : Collaborators double)
  (joint_state : JointState double) (w : W) :
  valid_topology env ->
  length (js_name joint_state) = length (js_position joint_state) ->
  length (joint_map_ (this w)) = num_joints (this w) ->
  Z.of_nat (length (joint_map_ (this w))) <= 2 ^ 31 ->
  Z.of_nat (length (js_name joint_state)) <= 2 ^ 31 ->
  let after :=
    jnt_array_ (this (fst (InitKDLData zero Frame_Identity Frame_mul
                             ChainFk_JntToCart TreeFk_JntToCart joint_state w))) in
  jnt_array_ (this (fst (RobotState_ctor zero limit_cast Frame_Identity env))) = []
  /\ length after = num_joints (this w)
  /\ (forall i nm x k,
        js_name joint_state !! i = Some nm ->
        js_position joint_state !! i = Some x ->
        index_of (joint_map_ (this w)) nm k ->
        (forall j, (i < j)%nat -> js_name joint_state !! j <> Some nm) ->
        after !! k = Some (Val x))
  /\ (forall k nm,
        joint_map_ (this w) !! k = Some nm ->
        nm ∉ js_name joint_state ->
        after !! k = Some Indeterminate).
Proof.
  intros Hv Hnp Hn Hjm Hlen after. subst after.
  rewrite InitKDLData_jnt_array by assumption.
  split; [| split; [| split]].
  - destruct (ctor_spec env Hv) as (w0 & Hctor & _ & _ & _ & _ & _ & _ & _ & _
                                    & Hja & _).
    rewrite Hctor. exact Hja.
  - rewrite apply_entries_length. apply length_replicate.
  - intros i nm x k Hl Hp Hk Hlater.
    apply (apply_entries_index_of _ (js_name joint_state)
             (js_position joint_state) _ i nm x k); auto.
    rewrite length_replicate. now rewrite Hn.
  - intros k nm Hk Hout. rewrite apply_entries_unnamed; [| assumption |].
    + apply lookup_replicate_2. rewrite <- Hn.
      eapply lookup_lt_Some; eauto.
    + intros nm' Hin [Hk' _]. congruence.
Qed.

Lemma NoDup_fmap_inj_on {A B} (f : A -> B) (l : list A) a b :
  NoDup (f <$> l) -> a ∈ l -> b ∈ l -> f a = f b -> a = b.
Proof.
  intros Hnd Ha Hb Hf.
  apply list_elem_of_lookup in Ha as [i Hi]. apply list_elem_of_lookup in Hb as [j Hj].
  assert (i = j).
  { eapply NoDup_lookup; [exact Hnd | |].
    - rewrite list_lookup_fmap, Hi. reflexivity.
    - rewrite list_lookup_fmap, Hj. simpl. now rewrite Hf. }
  subst j. congruence.
Qed.

Lemma ctor_joint_map (env : Collaborators double) (w : W) :
  valid_topology env ->
  RobotState_ctor zero limit_cast Frame_Identity env = (w, Ok tt) ->
  let tree := snd (treeFromUrdfModel env) in
  let N := KDL.getNrOfJoints tree in
  length (joint_map_ (this w)) = N
  /\ NoDup (joint_map_ (this w))
  /\ (forall q nm, (q, nm) ∈ movable_joints (KDL.getSegments tree) ->
        joint_map_ (this w) !! q = Some nm)
  /\ (forall i, (i < N)%nat ->
        exists nm, (i, nm) ∈ movable_joints (KDL.getSegments tree)).
Proof.
  intros Hv Hw tree N.
  destruct (ctor_spec env Hv) as (w0 & Hctor & Hjm & _).
  rewrite Hw in Hctor. injection Hctor as <-.
  destruct Hv as [Htree Hq Hnames Hurdf Hsize].
  fold tree in Hq, Hnames, Hurdf, Hsize, Hjm. fold N in Hq, Hsize, Hjm.
  set (ws := movable_joints (KDL.getSegments tree)) in *.
  assert (Hlen : length (joint_map_ (this w)) = N)
    by (rewrite Hjm, writes_length; apply length_replicate).
  assert (Hndq : NoDup (fst <$> ws)) by (rewrite Hq; apply NoDup_seq).
  assert (Hlt : forall p, p ∈ ws -> (fst p < N)%nat).
  { intros p Hp.
    assert (Hin : fst p ∈ seq 0 N)
      by (rewrite <- Hq; apply list_elem_of_fmap; eauto).
    apply elem_of_seq in Hin. lia. }
  assert (Hlook : forall q nm, (q, nm) ∈ ws -> joint_map_ (this w) !! q = Some nm).
  { intros q nm Hin. rewrite Hjm.
    apply (writes_lookup ws _ Hndq) with (p := (q, nm)); auto.
    intros p Hp. rewrite length_replicate. now apply Hlt. }
  assert (Hsurj : forall i, (i < N)%nat -> exists nm, (i, nm) ∈ ws).
  { intros i Hi.
    assert (Hin : i ∈ fst <$> ws) by (rewrite Hq; apply elem_of_seq; lia).
    apply list_elem_of_fmap in Hin as ([q nm] & -> & Hin). eauto. }
  repeat split; auto.
  apply NoDup_alt. intros i j x Hi Hj.
  assert (Hi' : (i < N)%nat) by (rewrite <- Hlen; eapply lookup_lt_Some; eauto).
  assert (Hj' : (j < N)%nat) by (rewrite <- Hlen; eapply lookup_lt_Some; eauto).
  destruct (Hsurj i Hi') as [ni Hni]. destruct (Hsurj j Hj') as [nj Hnj].
  pose proof (Hlook _ _ Hni) as Hli. pose proof (Hlook _ _ Hnj) as Hlj.
  assert (ni = nj) by congruence. subst nj.
  assert (Heq : (i, ni) = (j, ni))
    by (apply (NoDup_fmap_inj_on snd ws); auto).
  congruence.
Qed.

(** X2. On a valid topology whose chain only has movable joints of the tree,
    the constructor completes and leaves a well-formed object: in particular
    every joint referenced by the chain is in the joint index. *)
Lemma ctor_well_formed (env : Collaborators double) :
  valid_topology env ->
  (forall sg, sg ∈ KDL.segments (snd (getChain env)) ->
              KDL.movable sg = true ->
              KDL.getJointName (KDL.getJoint sg)
              ∈ snd <$> movable_joints
                          (KDL.getSegments (snd (treeFromUrdfModel env)))) ->
  Z.of_nat (length (KDL.segments (snd (getChain env)))) < 2 ^ 31 ->
  exists w : W,
    RobotState_ctor zero limit_cast Frame_Identity env = (w, Ok tt)
    /\ well_formed (this w).
Proof.
  intros Hv Hchain Hsize.
  destruct (ctor_spec env Hv)
    as (w & Hctor & _ & Hk & _ & Hb & Hc & Ht & _).
  destruct (ctor_joint_map env w Hv Hctor) as (Hlen & _ & Hlook & _).
  exists w. split; [exact Hctor |]. split.
  - unfold num_joints. now rewrite Hk.
  - rewrite Hlen. apply (vt_size env Hv).
  - now rewrite Hb.
  - rewrite Hb. intros sg Hsg Hmov.
    pose proof (Hchain sg Hsg Hmov) as Hin.
    apply list_elem_of_fmap in Hin as ([q nm] & -> & Hin).
    eapply list_elem_of_lookup_2. apply (Hlook q nm Hin).
  - now rewrite Hc, Hb.
  - now rewrite Ht, Hk.
Qed.

(** C8. After construction over a valid topology the joint index is a
    bijection: it has one entry per movable joint of the topology (joints of
    kind [None] contribute none), every movable joint has the index KDL gave
    it, and looking up the name stored at index [i] yields [i]; no member
    function changes it afterwards. *)
Theorem joint_index_bijective_and_stable (env : Collaborators double) :
  valid_topology env ->
  let tree := snd (treeFromUrdfModel env) in
  let N := KDL.getNrOfJoints tree in
  exists w : W,
    RobotState_ctor zero limit_cast Frame_Identity env = (w, Ok tt)
    /\ length (joint_map_ (this w)) = N
    /\ N = length (filter (fun e => KDL.movable (KDL.segment (snd e)) = true)
                     (KDL.getSegments tree))
    /\ (forall q nm, (q, nm) ∈ movable_joints (KDL.getSegments tree) ->
          joint_map_ (this w) !! q = Some nm
          /\ GetJointIndex (this w) nm = Z.of_nat q)
    /\ (forall i, (i < N)%nat ->
          exists nm, joint_map_ (this w) !! i = Some nm
                     /\ GetJointIndex (this w) nm = Z.of_nat i)
    /\ (forall (w1 : W) joint_state tfs noisy fuel paths,
          joint_map_ (this (fst (InitKDLData zero Frame_Identity Frame_mul
                                   ChainFk_JntToCart TreeFk_JntToCart
                                   joint_state w1)))
          = joint_map_ (this w1)
          /\ joint_map_ (this (fst (GetTransforms zero Frame_Identity Frame_mul
                                      transformKDLToEigen ChainFk_JntToCart
                                      TreeFk_JntToCart joint_state tfs noisy w1)))
             = joint_map_ (this w1)
          /\ joint_map_ (this (fst (GetPartMeshPaths fuel paths w1)))
             = joint_map_ (this w1)).
Proof.
  intros Hv tree N.
  destruct (ctor_spec env Hv) as (w & Hctor & _).
  destruct (ctor_joint_map env w Hv Hctor) as (Hlen & Hnd & Hlook & Hsurj).
  fold tree in Hlen, Hlook, Hsurj. fold N in Hlen, Hsurj.
  assert (Hidx : forall i nm, joint_map_ (this w) !! i = Some nm ->
                              GetJointIndex (this w) nm = Z.of_nat i).
  { intros i nm Hi. unfold GetJointIndex.
    rewrite (GetJointIndex_from_first 0 _ nm i Hnd Hi); [reflexivity |].
    simpl. rewrite Hlen. apply (vt_size env Hv). }
  exists w. split; [exact Hctor |]. split; [exact Hlen |].
  split; [| split; [| split]].
  - pose proof (vt_q_nr env Hv) as Hq. fold tree N in Hq.
    unfold movable_joints in Hq. apply Permutation_length in Hq.
    rewrite !length_fmap, length_seq in Hq. now symmetry.
  - intros q nm Hin. split; [now apply Hlook | apply Hidx; now apply Hlook].
  - intros i Hi. destruct (Hsurj i Hi) as [nm Hnm]. exists nm.
    split; [now apply Hlook | apply Hidx; now apply Hlook].
  - intros w1 joint_state tfs noisy fuel paths. split; [| split].
    + apply (InitKDLData_keeps joint_map_); reflexivity.
    + apply (GetTransforms_keeps joint_map_); reflexivity.
    + apply (GetPartMeshPaths_keeps joint_map_); reflexivity.
Qed.

(** *** [SetCameraTransform]: the joint values of the chain *)

Lemma insert_app_replicate {A} (l : list A) (x d : A) (m : nat) :
  <[length l := x]> (l ++ replicate (S m) d) = (l ++ [x]) ++ replicate m d.
Proof.
  rewrite insert_app_r_alt by lia. rewrite Nat.sub_diag. simpl.
  now rewrite <- app_assoc.
Qed.

Lemma SetCameraTransform_loop_spec (todo : list KDL.Segment) :
  forall (done : list KDL.Segment) (A : list (cell double)) (w : W),
    KDL.segments (base_2_cam_ (this w)) = done ++ todo ->
    (forall seg, seg ∈ todo -> KDL.movable seg = true ->
                 KDL.getJointName (KDL.getJoint seg) ∈ joint_map_ (this w)) ->
    length (jnt_array_ (this w)) = length (joint_map_ (this w)) ->
    SetCameraTransform_loop (seq (length done) (length todo))
      (Z.of_nat (length A))
      (A ++ replicate (length (filter (fun s => KDL.movable s = true) todo))
              (Val zero)) w
    = (w, Ok (A ++ chain_joint_values (joint_map_ (this w))
                     (jnt_array_ (this w)) todo)).
Proof.
  induction todo as [| seg todo IH]; intros done A w Hsegs Hfound Hq.
  - reflexivity.
  - cbn [length seq SetCameraTransform_loop].
    unfold member at 1, gets at 1. unfold bind at 1.
    assert (Hread : @array_read W _ (KDL.segments (base_2_cam_ (this w)))
                      (Z.of_nat (length done)) w = (w, Ok seg)).
    { unfold array_read. destruct (Z.leb_spec 0 (Z.of_nat (length done))); [| lia].
      rewrite Nat2Z.id, Hsegs. now rewrite list_lookup_middle. }
    rewrite (bind_Ok _ _ _ _ _ Hread).
    assert (Hsegs' : KDL.segments (base_2_cam_ (this w)) = (done ++ [seg]) ++ todo)
      by (now rewrite <- app_assoc).
    assert (Hfound' : forall s, s ∈ todo -> KDL.movable s = true ->
              KDL.getJointName (KDL.getJoint s) ∈ joint_map_ (this w))
      by (intros s Hs; apply Hfound; now right).
    replace (S (length done)) with (length (done ++ [seg]))
      by (rewrite length_app; simpl; lia).
    unfold chain_joint_values. cbn [omap list_omap]. fold (@chain_joint_values double).
    rewrite filter_cons.
    destruct (KDL.movable seg) eqn:Hmov.
    + destruct (decide (true = true)) as [_ | ?]; [| congruence].
      pose proof (Hfound seg (list_elem_of_here _ _) Hmov) as Hin.
      destruct (std_find_present _ _ Hin) as [_ Hlt].
      unfold member at 1, gets at 1. unfold bind at 1.
      destruct (decide (std_find (joint_map_ (this w))
                          (KDL.getJointName (KDL.getJoint seg))
                        = length (joint_map_ (this w)))) as [Heq | _]; [lia |].
      unfold ret at 1. unfold bind at 1.
      unfold member at 1, gets at 1. unfold bind at 1.
      destruct (jnt_array_ (this w)
                  !! std_find (joint_map_ (this w))
                       (KDL.getJointName (KDL.getJoint seg))) as [v |] eqn:Hv.
      2:{ apply lookup_ge_None in Hv. lia. }
      assert (Hrd : @array_read W _ (jnt_array_ (this w))
                      (Z.of_nat (std_find (joint_map_ (this w))
                                   (KDL.getJointName (KDL.getJoint seg)))) w
                    = (w, Ok v)).
      { unfold array_read.
        destruct (Z.leb_spec 0 (Z.of_nat (std_find (joint_map_ (this w))
                                  (KDL.getJointName (KDL.getJoint seg)))));
          [| lia].
        now rewrite Nat2Z.id, Hv. }
      rewrite (bind_Ok _ _ _ _ _ Hrd).
      cbn [length]. unfold array_write at 1.
      rewrite length_app, length_replicate.
      destruct (Z.leb_spec 0 (Z.of_nat (length A))); [| lia].
      destruct (Z.ltb_spec (Z.of_nat (length A))
                  (Z.of_nat (length A + S (length (filter
                     (fun s => KDL.movable s = true) todo))))); [| lia].
      cbn [andb]. unfold ret at 1. unfold bind at 1.
      rewrite Nat2Z.id, insert_app_replicate.
      replace (Z.of_nat (length A) + 1) with (Z.of_nat (length (A ++ [v])))
        by (rewrite length_app; simpl; lia).
      rewrite (IH (done ++ [seg]) (A ++ [v]) w Hsegs' Hfound' Hq).
      now rewrite <- app_assoc.
    + destruct (decide (false = true)) as [? | _]; [congruence |].
      apply (IH (done ++ [seg]) A w Hsegs' Hfound' Hq).
Qed.

Lemma SetCameraTransform_spec (w : W) (c : KDL.Chain) :
  Z.of_nat (length (KDL.segments (base_2_cam_ (this w)))) < 2 ^ 31 ->
  (forall seg, seg ∈ KDL.segments (base_2_cam_ (this w)) ->
               KDL.movable seg = true ->
               KDL.getJointName (KDL.getJoint seg) ∈ joint_map_ (this w)) ->
  length (jnt_array_ (this w)) = length (joint_map_ (this w)) ->
  chain_solver_ (this w) = Some c ->
  let r := ChainFk_JntToCart c
             (chain_joint_values (joint_map_ (this w)) (jnt_array_ (this w))
                (KDL.segments (base_2_cam_ (this w))))
             (cam_frame_ (this w)) in
  SetCameraTransform zero ChainFk_JntToCart w
  = ({| this := set_cam_frame_ (snd r) (this w);
        console := console w
                   ++ (if fst r <? 0 then [ROS_ERROR_camera_transform] else []) |},
     Ok tt).
Proof.
  intros Hsize Hfound Hq Hc r. unfold SetCameraTransform.
  unfold member at 1, gets at 1. unfold bind at 1.
  unfold KDL.getNrOfSegments, KDL.getChainNrOfJoints.
  rewrite to_int_small by lia. rewrite Nat2Z.id.
  pose proof (SetCameraTransform_loop_spec
                (KDL.segments (base_2_cam_ (this w))) [] [] w eq_refl Hfound Hq)
    as Hloop.
  cbn [length app] in Hloop. change (Z.of_nat 0) with 0 in Hloop.
  rewrite (bind_Ok _ _ _ _ _ Hloop). cbn [app].
  unfold member at 1, gets at 1. unfold bind at 1. rewrite Hc.
  unfold deref at 1, ret at 1. unfold bind at 1.
  unfold member at 1, gets at 1. unfold bind at 1.
  fold r. unfold update, modify, bind.
  destruct (fst r <? 0).
  - reflexivity.
  - unfold ret. now rewrite app_nil_r.
Qed.

(** The array the chain solver receives: one cell per movable joint of the
    chain. *)
Lemma chain_joint_values_lookup (jm : list string) (q : list (cell double))
  (segs : list KDL.Segment) :
  (forall seg, seg ∈ segs -> KDL.movable seg = true ->
     is_Some (q !! std_find jm (KDL.getJointName (KDL.getJoint seg)))) ->
  length (chain_joint_values jm q segs)
  = length (filter (fun s => KDL.movable s = true) segs)
  /\ forall j seg,
       filter (fun s => KDL.movable s = true) segs !! j = Some seg ->
       chain_joint_values jm q segs !! j
       = q !! std_find jm (KDL.getJointName (KDL.getJoint seg)).
Proof.
  induction segs as [| sg segs IH]; intros Hsome.
  - split; [reflexivity | intros j seg H; discriminate].
  - destruct IH as [IHlen IHl]; [intros seg Hin; apply Hsome; now right |].
    unfold chain_joint_values. cbn [omap list_omap].
    fold (chain_joint_values jm q segs). rewrite filter_cons.
    destruct (KDL.movable sg) eqn:Hmov.
    + destruct (decide (true = true)) as [_ | ?]; [| congruence].
      destruct (Hsome sg (list_elem_of_here _ _) Hmov) as [v Hv]. rewrite Hv.
      split; [simpl; now rewrite IHlen |].
      intros [| j] seg Hj; simpl in Hj |- *.
      * injection Hj as <-. now rewrite Hv.
      * now apply IHl.
    + destruct (decide (false = true)) as [? | _]; [congruence |].
      split; assumption.
Qed.

(** *** [InitKDLData]: the whole resolution call *)

Lemma tracked_same (s s' : RState) n :
  part_mesh_map_ s' = part_mesh_map_ s -> tracked s' n = tracked s n.
Proof. intros H. unfold tracked. now rewrite H. Qed.

Lemma InitKDLData_spec (joint_state : JointState double) (w : W) :
  well_formed (this w) ->
  length (js_name joint_state) = length (js_position joint_state) ->
  Z.of_nat (length (js_name joint_state)) <= 2 ^ 31 ->
  let jm := joint_map_ (this w) in
  let q := apply_entries jm
             (zip (js_name joint_state) (js_position joint_state))
             (replicate (num_joints (this w)) Indeterminate) in
  let rc := ChainFk_JntToCart (base_2_cam_ (this w))
              (chain_joint_values jm q (KDL.segments (base_2_cam_ (this w))))
              (cam_frame_ (this w)) in
  let s3 := set_cam_frame_ (snd rc) (set_jnt_array_ q (this w)) in
  let ns := segment_names (segment_map_ (this w)) in
  InitKDLData zero Frame_Identity Frame_mul ChainFk_JntToCart TreeFk_JntToCart
    joint_state w
  = ({| this := set_frame_map_
                  (store_frames (link_frame s3 (kin_tree_ (this w))) ns
                     (frame_map_ (this w))) s3;
        console := console w
                   ++ unknown_entries jm 0 (js_name joint_state)
                   ++ (if fst rc <? 0 then [ROS_ERROR_camera_transform] else [])
                   ++ tree_reports (link_fails s3 (kin_tree_ (this w))) ns |},
     Ok tt).
Proof.
  intros [Hn Hjm Hcs Hcj Hc Ht] Hnp Hlen jm q rc s3 ns. unfold InitKDLData.
  rewrite (bind_Ok _ _ _ _ _ (GetInitialJoints_spec _ [] w Hnp Hn Hjm Hlen)).
  rewrite Eigen_resize_nil. fold jm q.
  unfold update at 1, modify at 1. unfold bind at 1.
  match goal with
  | |- bind _ _ ?w2 = _ =>
      pose proof (SetCameraTransform_spec w2 (base_2_cam_ (this w))) as Hcam
  end.
  cbn [this say set_jnt_array_ base_2_cam_ joint_map_ jnt_array_ chain_solver_
         cam_frame_ console] in Hcam.
  fold jm in Hcam. fold rc in Hcam.
  rewrite (bind_Ok _ _ _ _ _ (Hcam Hcs Hcj
             ltac:(unfold q, jm; rewrite apply_entries_length, length_replicate;
                   symmetry; exact Hn) Hc)).
  unfold ComputeLinkTransforms. unfold member at 1, gets at 1. unfold bind at 1.
  cbn [this segment_map_ set_cam_frame_ set_jnt_array_].
  rewrite (ComputeLinkTransforms_loop_spec _ _ (kin_tree_ (this w))) by exact Ht.
  cbn [this console]. rewrite <- !app_assoc. reflexivity.
Qed.




(** C5 (amended). On a well-formed object whose dense vector has one cell
    per joint, [SetCameraTransform] completes: every movable joint of the
    chain has an index in the joint table, and the cell read for it lies
    inside the dense vector.  The chain solver receives one cell per movable
    joint of the chain, in chain order, and, as it rejects nothing but an
    array of another size, reports no error: nothing is written to the
    console.  This includes a chain without segments, for which the solver is
    called with an empty array. *)
Theorem chain_extraction_in_range_and_without_error (w : W) :
  well_formed (this w) ->
  length (jnt_array_ (this w)) = length (joint_map_ (this w)) ->
  (forall c q p, fst (ChainFk_JntToCart c q p) < 0 ->
                 length q <> KDL.getChainNrOfJoints c) ->
  exists chain_jnt_array : list (cell double),
    SetCameraTransform zero ChainFk_JntToCart w
    = ({| this := set_cam_frame_
                    (snd (ChainFk_JntToCart (base_2_cam_ (this w)) chain_jnt_array
                            (cam_frame_ (this w))))
                    (this w);
          console := console w |},
       Ok tt)
    /\ 0 <= fst (ChainFk_JntToCart (base_2_cam_ (this w)) chain_jnt_array
                   (cam_frame_ (this w)))
    /\ length chain_jnt_array = KDL.getChainNrOfJoints (base_2_cam_ (this w))
    /\ (forall j seg,
          filter (fun s => KDL.movable s = true)
            (KDL.segments (base_2_cam_ (this w))) !! j = Some seg ->
          exists k,
            index_of (joint_map_ (this w)) (KDL.getJointName (KDL.getJoint seg)) k
            /\ (k < length (jnt_array_ (this w)))%nat
            /\ chain_jnt_array !! j = jnt_array_ (this w) !! k)
    /\ (KDL.segments (base_2_cam_ (this w)) = [] -> chain_jnt_array = []).
Proof.
  intros [Hn Hjm Hcs Hcj Hc Ht] Hq Hchain.
  exists (chain_joint_values (joint_map_ (this w)) (jnt_array_ (this w))
            (KDL.segments (base_2_cam_ (this w)))).
  destruct (chain_joint_values_lookup (joint_map_ (this w)) (jnt_array_ (this w))
              (KDL.segments (base_2_cam_ (this w)))) as [Hlen Hl].
  { intros seg Hin Hmov. apply lookup_lt_is_Some. rewrite Hq.
    now destruct (std_find_present _ _ (Hcj seg Hin Hmov)). }
  assert (Hrc : 0 <= fst (ChainFk_JntToCart (base_2_cam_ (this w))
                            (chain_joint_values (joint_map_ (this w))
                               (jnt_array_ (this w))
                               (KDL.segments (base_2_cam_ (this w))))
                            (cam_frame_ (this w)))).
  { match goal with |- 0 <= ?x => destruct (Z.lt_ge_cases x 0) as [Hneg | Hge] end;
      [| exact Hge].
    exfalso. apply (Hchain _ _ _ Hneg). exact Hlen. }
  split.
  - rewrite (SetCameraTransform_spec w (base_2_cam_ (this w)) Hcs Hcj Hq Hc).
    cbv zeta.
    match goal with
    | |- context [?x <? 0] => destruct (Z.ltb_spec x 0) as [Hneg | _]; [lia |]
    end.
    now rewrite app_nil_r.
  - split; [exact Hrc |]. split; [exact Hlen |]. split.
    + intros j seg Hj. rewrite (Hl j seg Hj).
      assert (Hin : seg ∈ filter (fun s => KDL.movable s = true)
                            (KDL.segments (base_2_cam_ (this w))))
        by (eapply list_elem_of_lookup_2; eauto).
      apply list_elem_of_filter in Hin as [Hmov Hin].
      pose proof (Hcj seg Hin Hmov) as Hjoint.
      exists (std_find (joint_map_ (this w)) (KDL.getJointName (KDL.getJoint seg))).
      split; [apply index_of_std_find; auto |].
      split; [| reflexivity].
      rewrite Hq. now destruct (std_find_present _ _ Hjoint).
    + intros Hnil. now rewrite Hnil.
Qed.

(** *** [GetTransforms] *)

(** The vector built inside [GetTransforms]: one transform per segment of
    the segment map whose name is tracked, in the order of the segment map. *)
Lemma GetTransforms_loop_spec (segs : KDL.SegmentMap) :
  forall (tfs : list Affine3d) (w : W),
    (forall n, n ∈ segment_names segs -> tracked (this w) n = true ->
               is_Some (frame_map_ (this w) !! n)) ->
    GetTransforms_loop Frame_Identity transformKDLToEigen segs tfs w
    = (w, Ok (tfs ++ tracked_frames transformKDLToEigen (this w)
                       (segment_names segs))).
Proof.
  induction segs as [| e segs IH]; intros tfs w Hin.
  - simpl. unfold ret. now rewrite app_nil_r.
  - cbn [GetTransforms_loop]. unfold segment_names in *. rewrite fmap_cons in *.
    unfold tracked_frames. cbn [omap list_omap].
    set (n := KDL.getName (KDL.segment (snd e))) in *.
    unfold member at 1, gets at 1. unfold bind at 1.
    assert (Hin' : forall m,
               m ∈ (fun e0 => KDL.getName (KDL.segment (snd e0))) <$> segs ->
               tracked (this w) m = true -> is_Some (frame_map_ (this w) !! m))
      by (intros m Hm; apply Hin; now right).
    destruct (tracked (this w) n) eqn:Htr.
    + destruct (Hin n (list_elem_of_here _ _) Htr) as [f Hf].
      assert (Hat : frame_map_at Frame_Identity n w = (w, Ok f)).
      { unfold frame_map_at. unfold member at 1, gets at 1. unfold bind at 1.
        now rewrite Hf. }
      rewrite (bind_Ok _ _ _ _ _ Hat). rewrite (IH _ w Hin').
      rewrite Hf. cbn [fmap option_fmap option_map]. now rewrite <- app_assoc.
    + apply (IH _ w Hin').
Qed.

(** C10. [GetTransforms] receives its vector parameter by value: whatever
    the joint state and the content of the caller's vector, the vector of the
    caller is the same after the call; no transform is delivered through it. *)
Theorem GetTransforms_leaves_caller_vector
  (joint_state : JointState double) (current_tfs : list Affine3d)
  (noisy : bool) (w : W) :
  match snd (GetTransforms zero Frame_Identity Frame_mul transformKDLToEigen
               ChainFk_JntToCart TreeFk_JntToCart joint_state current_tfs
               noisy w) with
  | Ok after => after = current_tfs
  | Crash _ | OutOfFuel => True
  end.
Proof.
  unfold GetTransforms, call, bind.
  destruct (GetTransforms_body _ _ _ _ _ _ _ _ _ w) as [w' [tfs | f |]];
    simpl; auto.
Qed.

(** *** [GetPartMeshPaths] *)

Lemma walk_to_root_Ok (u : URDF.Model double) (global_root : string) fuel :
  forall p p',
    walk_to_root fuel u global_root p = Ok p' ->
    exists k l,
      (k < fuel)%nat
      /\ nth_parent u k p = p'
      /\ URDF.getLink u p' = Some l /\ URDF.name l = global_root
      /\ forall k', (k' < k)%nat ->
           exists l', URDF.getLink u (nth_parent u k' p) = Some l'
                      /\ URDF.name l' <> global_root.
Proof.
  induction fuel as [| fuel IH]; intros p p' H; simpl in H; [discriminate |].
  destruct (URDF.getLink u p) as [l |] eqn:Hl; [| discriminate].
  destruct (String.eqb_spec (URDF.name l) global_root) as [Heq | Hne];
    simpl in H.
  - injection H as <-. exists 0%nat, l. simpl.
    repeat split; auto; [lia | intros k' Hk'; lia].
  - apply IH in H as (k & l0 & Hk & Hnth & Hl0 & Hn0 & Hbefore).
    exists (S k), l0. simpl. rewrite Hl.
    repeat split; auto; [lia |].
    intros [| k'] Hk'; simpl.
    + exists l. auto.
    + rewrite Hl. apply Hbefore. lia.
Qed.

Lemma substr_tail (filename : string) (w : W) :
  Z.of_nat (String.length filename) < 2 ^ 64 ->
  substr filename (size_t_sub (Z.of_nat (String.length filename)) 4) 4 w
  = if (4 <=? String.length filename)%nat
    then (w, Ok (substring (String.length filename - 4) 4 filename))
    else (w, Crash StdOutOfRange).
Proof.
  intros Hlen. unfold substr, size_t_sub.
  destruct (Nat.leb_spec 4 (String.length filename)) as [Hge | Hlt].
  - rewrite Z.mod_small by lia.
    destruct (Z.ltb_spec (Z.of_nat (String.length filename))
                (Z.of_nat (String.length filename) - 4)); [lia |].
    unfold ret. do 3 f_equal. lia.
  - replace (Z.of_nat (String.length filename) - 4)
      with (Z.of_nat (String.length filename) - 4 + 2 ^ 64 + (-1) * 2 ^ 64)
      by lia.
    rewrite Z_mod_plus_full, Z.mod_small by lia.
    destruct (Z.ltb_spec (Z.of_nat (String.length filename))
                (Z.of_nat (String.length filename) - 4 + 2 ^ 64)); [| lia].
    reflexivity.
Qed.

Lemma walk_to_root_complete (u : URDF.Model double) (global_root : string) k :
  forall fuel p l,
    (k < fuel)%nat ->
    URDF.getLink u (nth_parent u k p) = Some l ->
    URDF.name l = global_root ->
    (forall k', (k' < k)%nat ->
       exists l', URDF.getLink u (nth_parent u k' p) = Some l'
                  /\ URDF.name l' <> global_root) ->
    walk_to_root fuel u global_root p = Ok (nth_parent u k p).
Proof.
  induction k as [| k IH]; intros [| fuel] p l Hlt Hl Hn Hb; try lia.
  - simpl in *. rewrite Hl.
    destruct (String.eqb_spec (URDF.name l) global_root); [reflexivity | congruence].
  - destruct (Hb 0%nat ltac:(lia)) as (l' & Hl' & Hn'). simpl in Hl'.
    simpl in Hl |- *. rewrite Hl' in Hl |- *.
    destruct (String.eqb_spec (URDF.name l') global_root); [congruence |].
    simpl. apply (IH fuel _ l); auto; [lia |].
    intros k' Hk'. destruct (Hb (S k') ltac:(lia)) as (l2 & Hl2 & Hn2).
    simpl in Hl2. rewrite Hl' in Hl2. eauto.
Qed.

(** The two other ways the walk can go: along a parent chain that never
    meets the root's name it uses up any fuel, and when the chain ends at a
    null parent before that it dereferences the null pointer. *)
Lemma walk_to_root_diverges (u : URDF.Model double) (global_root : string) fuel :
  forall p,
    (forall k, exists l, URDF.getLink u (nth_parent u k p) = Some l
                         /\ URDF.name l <> global_root) ->
    walk_to_root fuel u global_root p = OutOfFuel.
Proof.
  induction fuel as [| fuel IH]; intros p H; [reflexivity |].
  destruct (H 0%nat) as (l & Hl & Hn). simpl in Hl. simpl. rewrite Hl.
  destruct (String.eqb_spec (URDF.name l) global_root); [congruence |].
  simpl. apply IH. intros k. destruct (H (S k)) as (l' & Hl' & Hn').
  simpl in Hl'. rewrite Hl in Hl'. eauto.
Qed.

Lemma walk_to_root_null (u : URDF.Model double) (global_root : string) k :
  forall fuel p,
    (k < fuel)%nat ->
    (forall k', (k' < k)%nat ->
       exists l', URDF.getLink u (nth_parent u k' p) = Some l'
                  /\ URDF.name l' <> global_root) ->
    URDF.getLink u (nth_parent u k p) = None ->
    walk_to_root fuel u global_root p = Crash NullDeref.
Proof.
  induction k as [| k IH]; intros [| fuel] p Hlt Hb Hnone; try lia.
  - simpl in *. now rewrite Hnone.
  - destruct (Hb 0%nat ltac:(lia)) as (l & Hl & Hn). simpl in Hl.
    simpl in Hnone |- *. rewrite Hl in Hnone |- *.
    destruct (String.eqb_spec (URDF.name l) global_root); [congruence |].
    simpl. apply IH; auto; [lia |].
    intros k' Hk'. destruct (Hb (S k') ltac:(lia)) as (l2 & Hl2 & Hn2).
    simpl in Hl2. rewrite Hl in Hl2. eauto.
Qed.

Lemma record_mesh_spec (u : URDF.Model double) (i : nat) (li l : URDF.Link)
  (paths : list string) (w : W) :
  URDF.getLink u (Some i) = Some li ->
  (forall f, URDF.visual l = Some {| URDF.geometry := Some (URDF.MESH f) |} ->
             (4 <= String.length f)%nat /\ Z.of_nat (String.length f) < 2 ^ 64) ->
  record_mesh u (Some i) l paths w
  = match mesh_file l with
    | Some f =>
        ({| this := set_part_mesh_map_
                      (part_mesh_map_ (this w) ++ [URDF.name l]) (this w);
            console := console w
                       ++ [cout_descendant (URDF.name li) (URDF.name l)] |},
         Ok (paths ++ [f]))
    | None => (w, Ok paths)
    end.
Proof.
  intros Hli Hsize. unfold record_mesh, mesh_file.
  destruct (URDF.visual l) as [[[g |]] |]; try reflexivity.
  destruct g as [| | | f]; try reflexivity.
  destruct (Hsize f eq_refl) as [Hge Hlt]. unfold recognized.
  assert (Hsub : substr f (size_t_sub (Z.of_nat (String.length f)) 4) 4 w
                 = (w, Ok (substring (String.length f - 4) 4 f))).
  { rewrite (substr_tail f w Hlt).
    destruct (Nat.leb_spec 4 (String.length f)); [reflexivity | lia]. }
  rewrite (bind_Ok _ _ _ _ _ Hsub).
  destruct (Nat.leb_spec 4 (String.length f)); [| lia]. cbn [andb].
  destruct (String.eqb (substring (String.length f - 4) 4 f) ".stl") eqn:Hstl.
  - unfold ret at 1. unfold bind at 1. cbn [orb]. rewrite Hli. reflexivity.
  - match goal with
    | |- bind ?m _ w = _ =>
        assert (Hinner : m w = (w, Ok (String.eqb
                                        (substring (String.length f - 4) 4 f)
                                        ".dae")))
          by (rewrite (bind_Ok _ _ _ _ _ Hsub); reflexivity)
    end.
    rewrite (bind_Ok _ _ _ _ _ Hinner). cbn [orb].
    destruct (String.eqb (substring (String.length f - 4) 4 f) ".dae").
    + rewrite Hli. reflexivity.
    + reflexivity.
Qed.

(** C6. The selection as the program performs it, where its comments (lines
    110, 134 and 137) speak of the mesh of each link.  For every link whose
    parent chain reaches a link named as the topology root, the walk follows
    parent pointers up to the first such ancestor (the link itself included)
    and stops nowhere else: the geometry of the links on the way plays no
    part in stopping.  The link is included exactly when the link the walk
    stopped at has a mesh with a recognised extension; the key recorded is
    then the name of that link and the path recorded is its mesh file. *)
Theorem selection_walks_to_root_and_records_its_mesh
  (fuel : nat) (global_root : string) (i : nat) (paths : list string) (w : W)
  (k : nat) (l : URDF.Link) :
  (k < fuel)%nat ->
  URDF.getLink (urdf_ (this w)) (nth_parent (urdf_ (this w)) k (Some i)) = Some l ->
  URDF.name l = global_root ->
  (forall k', (k' < k)%nat ->
     exists l', URDF.getLink (urdf_ (this w))
                  (nth_parent (urdf_ (this w)) k' (Some i)) = Some l'
                /\ URDF.name l' <> global_root) ->
  (forall f, URDF.visual l = Some {| URDF.geometry := Some (URDF.MESH f) |} ->
             (4 <= String.length f)%nat /\ Z.of_nat (String.length f) < 2 ^ 64) ->
  exists w' : W,
    GetPartMeshPaths_link fuel global_root i paths w
    = (w', Ok (paths ++ match mesh_file l with Some f => [f] | None => [] end))
    /\ part_mesh_map_ (this w')
       = part_mesh_map_ (this w)
         ++ match mesh_file l with Some _ => [URDF.name l] | None => [] end
    /\ urdf_ (this w') = urdf_ (this w).
Proof.
  intros Hk Hl Hn Hb Hsize.
  assert (Hli : exists li, URDF.getLink (urdf_ (this w)) (Some i) = Some li).
  { destruct k as [| k]; [simpl in Hl; eauto |].
    destruct (Hb 0%nat ltac:(lia)) as (l' & Hl' & _). simpl in Hl'. eauto. }
  destruct Hli as [li Hli].
  unfold GetPartMeshPaths_link.
  unfold member at 1, gets at 1. unfold bind at 1.
  rewrite (walk_to_root_complete _ _ k fuel _ l Hk Hl Hn Hb).
  unfold lift at 1. unfold bind at 1. rewrite Hl.
  unfold deref at 1, ret at 1. unfold bind at 1.
  rewrite (record_mesh_spec _ _ li l paths w Hli Hsize).
  destruct (mesh_file l) as [f |].
  - eexists. split; [reflexivity |]. split; reflexivity.
  - exists w. rewrite !app_nil_r. repeat split; reflexivity.
Qed.

(** The step of the loop for a link that descends from the root [r]. *)
Lemma GetPartMeshPaths_link_rooted (fuel : nat) (u : URDF.Model double)
  (r : URDF.Link) (i : nat) (paths : list string) (w : W) (k : nat) :
  urdf_ (this w) = u ->
  URDF.getLink u (URDF.root u) = Some r ->
  (forall f, URDF.visual r = Some {| URDF.geometry := Some (URDF.MESH f) |} ->
             (4 <= String.length f)%nat /\ Z.of_nat (String.length f) < 2 ^ 64) ->
  (k < fuel)%nat ->
  nth_parent u k (Some i) = URDF.root u ->
  (forall k', (k' < k)%nat ->
     exists l', URDF.getLink u (nth_parent u k' (Some i)) = Some l'
                /\ URDF.name l' <> URDF.name r) ->
  exists w1 : W,
    GetPartMeshPaths_link fuel (URDF.name r) i paths w
    = (w1, Ok (paths ++ match mesh_file r with Some f => [f] | None => [] end))
    /\ part_mesh_map_ (this w1)
       = part_mesh_map_ (this w)
         ++ match mesh_file r with Some _ => [URDF.name r] | None => [] end
    /\ urdf_ (this w1) = u.
Proof.
  intros Hu Hr Hsize Hk Hnth Hb.
  assert (Hreach : URDF.getLink u (nth_parent u k (Some i)) = Some r)
    by (now rewrite Hnth).
  assert (Hli : exists li, URDF.getLink u (Some i) = Some li).
  { destruct k as [| k]; [simpl in Hreach; eauto |].
    destruct (Hb 0%nat ltac:(lia)) as (l' & Hl' & _). simpl in Hl'. eauto. }
  destruct Hli as [li Hli].
  unfold GetPartMeshPaths_link.
  unfold member at 1, gets at 1. unfold bind at 1. rewrite Hu.
  rewrite (walk_to_root_complete u _ k fuel _ r Hk Hreach eq_refl Hb).
  unfold lift at 1. unfold bind at 1. rewrite Hreach.
  unfold deref at 1, ret at 1. unfold bind at 1.
  rewrite (record_mesh_spec u i li r paths w Hli Hsize).
  destruct (mesh_file r) as [f |].
  - eexists. split; [reflexivity |]. split; [reflexivity | exact Hu].
  - exists w. rewrite !app_nil_r. repeat split; auto.
Qed.

Lemma GetPartMeshPaths_loop_rooted (fuel : nat) (u : URDF.Model double)
  (r : URDF.Link) (idxs : list nat) :
  URDF.getLink u (URDF.root u) = Some r ->
  (forall f, URDF.visual r = Some {| URDF.geometry := Some (URDF.MESH f) |} ->
             (4 <= String.length f)%nat /\ Z.of_nat (String.length f) < 2 ^ 64) ->
  (forall i, i ∈ idxs ->
     exists k, (k < fuel)%nat /\ nth_parent u k (Some i) = URDF.root u
               /\ forall k', (k' < k)%nat ->
                    exists l', URDF.getLink u (nth_parent u k' (Some i)) = Some l'
                               /\ URDF.name l' <> URDF.name r) ->
  forall (paths : list string) (w : W),
    urdf_ (this w) = u ->
    exists w' : W,
      GetPartMeshPaths_loop fuel (URDF.name r) idxs paths w
      = (w', Ok (paths ++ match mesh_file r with
                          | Some f => replicate (length idxs) f
                          | None => []
                          end))
      /\ part_mesh_map_ (this w')
         = part_mesh_map_ (this w)
           ++ match mesh_file r with
              | Some _ => replicate (length idxs) (URDF.name r)
              | None => []
              end
      /\ urdf_ (this w') = u.
Proof.
  intros Hr Hsize. induction idxs as [| i idxs IH]; intros Hdesc paths w Hu.
  - exists w. simpl. unfold ret.
    destruct (mesh_file r); rewrite !app_nil_r; auto.
  - destruct (Hdesc i (list_elem_of_here _ _)) as (k & Hk & Hnth & Hb).
    destruct (GetPartMeshPaths_link_rooted fuel u r i paths w k)
      as (w1 & Hstep & Hpm1 & Hu1); auto.
    cbn [GetPartMeshPaths_loop]. rewrite (bind_Ok _ _ _ _ _ Hstep).
    destruct (IH (fun j Hj => Hdesc j (list_elem_of_further _ _ _ Hj))
                (paths ++ match mesh_file r with Some f => [f] | None => [] end)
                w1) as (w' & Hloop & Hpm & Hu').
    { now rewrite Hu1. }
    exists w'. rewrite Hloop, Hpm, Hpm1. cbn [length replicate].
    destruct (mesh_file r); rewrite <- ?app_assoc; auto.
Qed.

(** X1. On a topology all of whose links descend from the root, with enough
    fuel for the longest walk, [GetPartMeshPaths] returns: it records the
    root's name and mesh file once per link when the root has a recognised
    mesh, and nothing otherwise. *)
Lemma GetPartMeshPaths_rooted (fuel : nat) (paths : list string) (w : W)
  (r : URDF.Link) :
  let u := urdf_ (this w) in
  URDF.getLink u (URDF.root u) = Some r ->
  (forall f, URDF.visual r = Some {| URDF.geometry := Some (URDF.MESH f) |} ->
             (4 <= String.length f)%nat /\ Z.of_nat (String.length f) < 2 ^ 64) ->
  (forall i, (i < length (URDF.links u))%nat ->
     exists k, (k < fuel)%nat /\ nth_parent u k (Some i) = URDF.root u
               /\ forall k', (k' < k)%nat ->
                    exists l', URDF.getLink u (nth_parent u k' (Some i)) = Some l'
                               /\ URDF.name l' <> URDF.name r) ->
  exists w' : W,
    GetPartMeshPaths fuel paths w
    = (w', Ok (paths ++ match mesh_file r with
                        | Some f => replicate (length (URDF.links u)) f
                        | None => []
                        end))
    /\ part_mesh_map_ (this w')
       = part_mesh_map_ (this w)
         ++ match mesh_file r with
            | Some _ => replicate (length (URDF.links u)) (URDF.name r)
            | None => []
            end.
Proof.
  intros u Hr Hsize Hdesc.
  destruct (GetPartMeshPaths_loop_rooted fuel u r (seq 0 (length (URDF.links u)))
              Hr Hsize) with (paths := paths) (w := w)
    as (w' & Hloop & Hpm & _).
  - intros i Hi. apply Hdesc. apply elem_of_seq in Hi. lia.
  - reflexivity.
  - exists w'. rewrite length_seq in Hloop, Hpm. split; [| exact Hpm].
    unfold GetPartMeshPaths, call, GetPartMeshPaths_body.
    unfold member at 1, gets at 1. unfold bind at 1. unfold bind at 1.
    fold u. rewrite Hr. unfold deref at 1, ret at 1. unfold bind at 1.
    rewrite Hloop. reflexivity.
Qed.

(** Selection does not return when some link has no ancestor named as the
    root. *)
Lemma GetPartMeshPaths_link_not_Ok (fuel : nat) (global_root : string)
  (i : nat) (paths : list string) (w : W) :
  ~ (exists k l,
       URDF.getLink (urdf_ (this w)) (nth_parent (urdf_ (this w)) k (Some i))
       = Some l
       /\ URDF.name l = global_root) ->
  forall w' paths',
    GetPartMeshPaths_link fuel global_root i paths w <> (w', Ok paths').
Proof.
  intros Hnever w' paths' H. unfold GetPartMeshPaths_link in H.
  unfold member at 1, gets at 1 in H. unfold bind at 1 in H.
  unfold lift at 1 in H. unfold bind at 1 in H.
  destruct (walk_to_root fuel (urdf_ (this w)) global_root (Some i))
    as [p | f |] eqn:Hwalk; try discriminate.
  apply walk_to_root_Ok in Hwalk as (k & l & _ & Hnth & Hl & Hn & _).
  apply Hnever. exists k, l. rewrite Hnth. auto.
Qed.

Lemma GetPartMeshPaths_link_keeps {A} (f : RState -> A) fuel global_root i paths :
  (forall v s, f (set_part_mesh_map_ v s) = f s) ->
  preserves (keeps f)
    (GetPartMeshPaths_link (Frame := Frame) fuel global_root i paths).
Proof. intros H. unfold GetPartMeshPaths_link, record_mesh. frame. Qed.

Lemma GetPartMeshPaths_loop_not_Ok (fuel : nat) (global_root : string)
  (u : URDF.Model double) (i : nat) (idxs : list nat) :
  ~ (exists k l, URDF.getLink u (nth_parent u k (Some i)) = Some l
                 /\ URDF.name l = global_root) ->
  i ∈ idxs ->
  forall (paths : list string) (w : W),
    urdf_ (this w) = u ->
    forall w' paths',
      GetPartMeshPaths_loop fuel global_root idxs paths w <> (w', Ok paths').
Proof.
  intros Hnever. induction idxs as [| j idxs IH]; intros Hin paths w Hu w' paths' H.
  - now apply elem_of_nil in Hin.
  - cbn [GetPartMeshPaths_loop] in H. unfold bind at 1 in H.
    destruct (GetPartMeshPaths_link fuel global_root j paths w)
      as [w1 [p1 | f |]] eqn:Hstep; try discriminate.
    apply elem_of_cons in Hin as [-> | Hin].
    + revert Hstep. apply GetPartMeshPaths_link_not_Ok. now rewrite Hu.
    + apply (IH Hin p1 w1) in H; [exact H |].
      pose proof (GetPartMeshPaths_link_keeps urdf_ fuel global_root j paths
                    (fun _ _ => eq_refl) w) as Hk.
      rewrite Hstep in Hk. unfold keeps in Hk. simpl in Hk. congruence.
Qed.

(** C7. When some link of the topology has no ancestor (itself included)
    named as the root, be it that its parent chain is cyclic or that it ends
    at a link without parent, [GetPartMeshPaths] does not return, whatever the
    fuel: the link is not left out of the selection. *)
Theorem disconnected_link_is_not_excluded (fuel : nat) (paths : list string)
  (w : W) (r : URDF.Link) (i : nat) :
  URDF.getLink (urdf_ (this w)) (URDF.root (urdf_ (this w))) = Some r ->
  (i < length (URDF.links (urdf_ (this w))))%nat ->
  ~ (exists k l,
       URDF.getLink (urdf_ (this w)) (nth_parent (urdf_ (this w)) k (Some i))
       = Some l
       /\ URDF.name l = URDF.name r) ->
  ~ (exists paths', snd (GetPartMeshPaths fuel paths w) = Ok paths').
Proof.
  intros Hr Hi Hnever (paths' & H).
  assert (Hbody : GetPartMeshPaths_body fuel paths w
                  = GetPartMeshPaths_loop fuel (URDF.name r)
                      (seq 0 (length (URDF.links (urdf_ (this w))))) paths w).
  { unfold GetPartMeshPaths_body.
    unfold member at 1, gets at 1. unfold bind at 1. unfold bind at 1.
    rewrite Hr. reflexivity. }
  unfold GetPartMeshPaths, call in H. unfold bind at 1 in H.
  rewrite Hbody in H.
  destruct (GetPartMeshPaths_loop fuel (URDF.name r)
              (seq 0 (length (URDF.links (urdf_ (this w))))) paths w)
    as [w1 [p1 | f |]] eqn:Hloop; try discriminate.
  revert Hloop.
  apply (GetPartMeshPaths_loop_not_Ok fuel _ (urdf_ (this w)) i); auto.
  apply elem_of_seq. lia.
Qed.

(** *** Further properties of the joint index and of [GetInitialJoints] *)

(** X3. [GetJointIndex] returns [-1] exactly for the names that are not in
    the joint table; for a name of the table it returns the position of the
    first occurrence of the name, also when the name occurs again later. *)
Theorem GetJointIndex_first_occurrence (s : RState) (name : string) :
  Z.of_nat (length (joint_map_ s)) <= 2 ^ 31 ->
  (GetJointIndex s name = -1 <-> name ∉ joint_map_ s)
  /\ (name ∈ joint_map_ s ->
      exists i : nat,
        GetJointIndex s name = Z.of_nat i
        /\ joint_map_ s !! i = Some name
        /\ forall j, (j < i)%nat -> joint_map_ s !! j <> Some name).
Proof.
  intros Hlen. unfold GetJointIndex. split.
  - split.
    + intros Hm Hin. rewrite GetJointIndex_from_find in Hm by (auto; simpl; lia).
      lia.
    + apply GetJointIndex_from_absent.
  - intros Hin. exists (std_find (joint_map_ s) name).
    rewrite GetJointIndex_from_find by (auto; simpl; lia).
    destruct (std_find_present _ _ Hin) as [Hl _].
    split; [reflexivity |]. split; [exact Hl |].
    intros j Hj. now apply std_find_first.
Qed.

(** The loop of [GetInitialJoints] when [state.name] ends before
    [state.position]. *)
Lemma GetInitialJoints_loop_short (used : list string) :
  forall (position : list double) (pre : list string) (ja : list (cell double))
         (w : W),
    (length used < length position)%nat ->
    length ja = length (joint_map_ (this w)) ->
    Z.of_nat (length (joint_map_ (this w))) <= 2 ^ 31 ->
    Z.of_nat (length pre + length used) <= 2 ^ 31 ->
    GetInitialJoints_loop (pre ++ used) position (length pre) ja w
    = (say (unknown_entries (joint_map_ (this w)) (length pre) used) w,
       Crash (IndexOutOfRange (Z.of_nat (length pre + length used)))).
Proof.
  induction used as [| nm used IH];
    intros [| x position] pre ja w Hu Hja Hjm Hlen; simpl in Hu; try lia.
  - cbn [GetInitialJoints_loop unknown_entries length].
    rewrite app_nil_r, Nat.add_0_r, say_nil.
    unfold bind, array_read.
    destruct (Z.leb_spec 0 (Z.of_nat (length pre))); [| lia].
    rewrite Nat2Z.id.
    now rewrite (proj2 (lookup_ge_None pre (length pre))) by lia.
  - cbn [GetInitialJoints_loop].
    assert (Hread : @array_read W _ (pre ++ nm :: used)
                      (Z.of_nat (length pre)) w = (w, Ok nm)).
    { unfold array_read. destruct (Z.leb_spec 0 (Z.of_nat (length pre))); [| lia].
      rewrite Nat2Z.id. now rewrite list_lookup_middle. }
    rewrite (bind_Ok _ _ _ _ _ Hread).
    unfold member at 1. unfold gets at 1. unfold bind at 1.
    unfold GetJointIndex. fold (has_index (joint_map_ (this w)) nm).
    replace (pre ++ nm :: used) with ((pre ++ [nm]) ++ used)
      by (now rewrite <- app_assoc).
    replace (S (length pre)) with (length (pre ++ [nm]))
      by (rewrite length_app; simpl; lia).
    assert (Hlen' : Z.of_nat (length (pre ++ [nm]) + length used) <= 2 ^ 31).
    { rewrite length_app. simpl in *. lia. }
    assert (Hsum : (length (pre ++ [nm]) + length used
                    = length pre + length (nm :: used))%nat).
    { rewrite length_app. simpl. lia. }
    cbn [unknown_entries].
    destruct (has_index (joint_map_ (this w)) nm) eqn:Hi.
    + destruct (GetJointIndex_from_range _ _ Hjm Hi) as [Hr _].
      unfold array_write.
      destruct (Z.leb_spec 0 (GetJointIndex_from 0 (joint_map_ (this w)) nm));
        [| lia].
      destruct (Z.ltb_spec (GetJointIndex_from 0 (joint_map_ (this w)) nm)
                  (Z.of_nat (length ja))); [| lia].
      cbn [andb]. unfold bind at 1, ret at 1.
      rewrite IH by (auto; try lia; rewrite length_insert; auto).
      rewrite Hsum. rewrite length_app. simpl.
      now replace (length pre + 1)%nat with (S (length pre)) by lia.
    + unfold bind at 1. unfold bind at 1. unfold print at 1, modify at 1.
      unfold ret at 1.
      rewrite to_int_small by (simpl in Hlen; lia).
      change {| this := this w;
                console := console w
                  ++ [ROS_ERROR_no_joint_index (Z.of_nat (length pre)) nm] |}
        with (say [ROS_ERROR_no_joint_index (Z.of_nat (length pre)) nm] w).
      rewrite IH by (auto; lia). rewrite say_say. cbn [this say].
      rewrite Hsum. rewrite length_app. simpl.
      now replace (length pre + 1)%nat with (S (length pre)) by lia.
Qed.

(** X4. When an update has more names than positions, [GetInitialJoints]
    handles the positions with the names at the same places and completes:
    the names beyond the last position are neither applied nor reported.  In
    particular an update without positions yields the resized vector as it
    is. *)
Theorem GetInitialJoints_surplus_names_ignored (state : JointState double)
  (jnt_angles : list (cell double)) (w : W) :
  (length (js_position state) <= length (js_name state))%nat ->
  length (joint_map_ (this w)) = num_joints (this w) ->
  Z.of_nat (length (joint_map_ (this w))) <= 2 ^ 31 ->
  Z.of_nat (length (js_position state)) <= 2 ^ 31 ->
  GetInitialJoints state jnt_angles w
  = (say (unknown_entries (joint_map_ (this w)) 0
            (take (length (js_position state)) (js_name state))) w,
     Ok (apply_entries (joint_map_ (this w))
           (zip (js_name state) (js_position state))
           (Eigen_resize jnt_angles (num_joints (this w))))).
Proof.
  intros Hle Hn Hjm Hlen.
  unfold GetInitialJoints, call, GetInitialJoints_body.
  unfold member at 1, gets at 1. unfold bind at 2. unfold bind at 1.
  pose proof (GetInitialJoints_loop_spec (js_position state)
                (take (length (js_position state)) (js_name state)) []
                (drop (length (js_position state)) (js_name state))
                (Eigen_resize jnt_angles (num_joints (this w))) w) as H.
  cbn [app length] in H. rewrite take_drop in H.
  rewrite zip_with_take_l' in H by lia.
  rewrite H; [reflexivity | | | auto | ].
  - rewrite length_take. lia.
  - unfold Eigen_resize. destruct (decide _) as [-> | _]; [now rewrite Hn |].
    rewrite length_replicate. now rewrite Hn.
  - rewrite length_take. lia.
Qed.

(** X5. When an update has fewer names than positions, [GetInitialJoints]
    handles the entries that have a name and then reads [state.name] at the
    position one past its end. *)
Theorem GetInitialJoints_missing_name_is_read_out_of_range
  (state : JointState double) (jnt_angles : list (cell double)) (w : W) :
  (length (js_name state) < length (js_position state))%nat ->
  length (joint_map_ (this w)) = num_joints (this w) ->
  Z.of_nat (length (joint_map_ (this w))) <= 2 ^ 31 ->
  Z.of_nat (length (js_name state)) <= 2 ^ 31 ->
  GetInitialJoints state jnt_angles w
  = (say (unknown_entries (joint_map_ (this w)) 0 (js_name state)) w,
     Crash (IndexOutOfRange (Z.of_nat (length (js_name state))))).
Proof.
  intros Hlt Hn Hjm Hlen.
  unfold GetInitialJoints, call, GetInitialJoints_body.
  unfold member at 1, gets at 1. unfold bind at 2. unfold bind at 1.
  pose proof (GetInitialJoints_loop_short (js_name state) (js_position state) []
                (Eigen_resize jnt_angles (num_joints (this w))) w) as H.
  cbn [app length] in H. rewrite H; [reflexivity | auto | | auto | auto].
  unfold Eigen_resize. destruct (decide _) as [-> | _]; [now rewrite Hn |].
  rewrite length_replicate. now rewrite Hn.
Qed.

(** X6. [GetInitialJoints] works on the vector of its caller: when that
    vector already has one cell per joint, a cell that no entry of the update
    is mapped to keeps the content the caller gave it; when it has another
    size, such a cell is indeterminate after the call. *)
Theorem GetInitialJoints_cells_not_named (state : JointState double)
  (jnt_angles : list (cell double)) (w : W) (k : nat) :
  length (js_name state) = length (js_position state) ->
  length (joint_map_ (this w)) = num_joints (this w) ->
  Z.of_nat (length (joint_map_ (this w))) <= 2 ^ 31 ->
  Z.of_nat (length (js_name state)) <= 2 ^ 31 ->
  (k < num_joints (this w))%nat ->
  (forall nm, nm ∈ js_name state -> GetJointIndex (this w) nm <> Z.of_nat k) ->
  exists (w' : W) (res : list (cell double)),
    GetInitialJoints state jnt_angles w = (w', Ok res)
    /\ (length jnt_angles = num_joints (this w) -> res !! k = jnt_angles !! k)
    /\ (length jnt_angles <> num_joints (this w) -> res !! k = Some Indeterminate).
Proof.
  intros Hnp Hn Hjm Hlen Hk Hother.
  eexists _, _. split; [apply GetInitialJoints_spec; auto |].
  assert (Hkeep : forall ja : list (cell double),
             apply_entries (joint_map_ (this w))
               (zip (js_name state) (js_position state)) ja !! k = ja !! k).
  { intros ja. apply apply_entries_other. intros [nm x] He Hi Hidx.
    apply elem_of_zip_l in He. cbn [fst] in *.
    apply (Hother nm He). unfold GetJointIndex.
    unfold has_index in Hi. apply Z.leb_le in Hi. lia. }
  rewrite Hkeep. unfold Eigen_resize. split; intros Hsz.
  - destruct (decide _) as [_ | Hne]; [reflexivity | congruence].
  - destruct (decide _) as [Heq | _]; [congruence |].
    now apply lookup_replicate_2.
Qed.

(** *** Further properties of [SetCameraTransform] and [ComputeLinkTransforms] *)

(** X7. On an object whose chain joints all are in the joint table,
    [SetCameraTransform] calls the chain solver once, with the previous
    content of [cam_frame_] as output object and with a joint array that has
    one cell per movable joint of the chain, in chain order: the cell of the
    dense vector at the index [GetJointIndex] gives for the name of that
    joint.  The frame the solver leaves becomes [cam_frame_], and a negative
    status is reported; nothing else changes. *)
Theorem SetCameraTransform_solver_input (w : W) (c : KDL.Chain) :
  Z.of_nat (length (KDL.segments (base_2_cam_ (this w)))) < 2 ^ 31 ->
  Z.of_nat (length (joint_map_ (this w))) <= 2 ^ 31 ->
  (forall seg, seg ∈ KDL.segments (base_2_cam_ (this w)) ->
               KDL.movable seg = true ->
               KDL.getJointName (KDL.getJoint seg) ∈ joint_map_ (this w)) ->
  length (jnt_array_ (this w)) = length (joint_map_ (this w)) ->
  chain_solver_ (this w) = Some c ->
  exists chain_jnt_array : list (cell double),
    SetCameraTransform zero ChainFk_JntToCart w
    = ({| this := set_cam_frame_
                    (snd (ChainFk_JntToCart c chain_jnt_array (cam_frame_ (this w))))
                    (this w);
          console := console w
                     ++ (if fst (ChainFk_JntToCart c chain_jnt_array
                                   (cam_frame_ (this w))) <? 0
                         then [ROS_ERROR_camera_transform] else []) |},
       Ok tt)
    /\ length chain_jnt_array = KDL.getChainNrOfJoints (base_2_cam_ (this w))
    /\ forall j seg,
         filter (fun s => KDL.movable s = true)
           (KDL.segments (base_2_cam_ (this w))) !! j = Some seg ->
         chain_jnt_array !! j
         = jnt_array_ (this w)
             !! Z.to_nat (GetJointIndex (this w)
                            (KDL.getJointName (KDL.getJoint seg))).
Proof.
  intros Hsize Hjm Hfound Hq Hc.
  exists (chain_joint_values (joint_map_ (this w)) (jnt_array_ (this w))
            (KDL.segments (base_2_cam_ (this w)))).
  split; [now apply SetCameraTransform_spec |].
  destruct (chain_joint_values_lookup (joint_map_ (this w)) (jnt_array_ (this w))
              (KDL.segments (base_2_cam_ (this w)))) as [Hlen Hl].
  { intros seg Hin Hmov. apply lookup_lt_is_Some. rewrite Hq.
    now destruct (std_find_present _ _ (Hfound seg Hin Hmov)). }
  split; [exact Hlen |].
  intros j seg Hj. rewrite (Hl j seg Hj).
  assert (Hin : seg ∈ filter (fun s => KDL.movable s = true)
                        (KDL.segments (base_2_cam_ (this w))))
    by (eapply list_elem_of_lookup_2; eauto).
  apply list_elem_of_filter in Hin as [Hmov Hin].
  unfold GetJointIndex.
  rewrite GetJointIndex_from_find by (auto; simpl; lia).
  simpl. now rewrite Nat2Z.id.
Qed.

Lemma tracked_elem_of (s : RState) n :
  tracked s n = true <-> n ∈ part_mesh_map_ s.
Proof.
  unfold tracked. rewrite bool_decide_eq_true, std_find_absent.
  destruct (decide (n ∈ part_mesh_map_ s)); split; auto.
  intros H. exfalso. now apply H.
Qed.

Lemma ComputeLinkTransforms_loop_idle (segs : KDL.SegmentMap) (w : W) :
  (forall n, n ∈ segment_names segs -> n ∉ part_mesh_map_ (this w)) ->
  for_each segs
    (ComputeLinkTransforms_segment Frame_Identity Frame_mul TreeFk_JntToCart) w
  = (w, Ok tt).
Proof.
  induction segs as [| e segs IH]; intros Hnone; [reflexivity |].
  cbn [for_each].
  assert (Hstep : ComputeLinkTransforms_segment Frame_Identity Frame_mul
                    TreeFk_JntToCart e w = (w, Ok tt)).
  { unfold ComputeLinkTransforms_segment.
    unfold member at 1, gets at 1. unfold bind at 1.
    destruct (tracked (this w) (KDL.getName (KDL.segment (snd e)))) eqn:Htr;
      [| reflexivity].
    apply tracked_elem_of in Htr. exfalso. revert Htr. apply Hnone.
    unfold segment_names. rewrite fmap_cons. left. }
  rewrite (bind_Ok _ _ _ _ _ Hstep). apply IH.
  intros n Hn. apply Hnone. unfold segment_names in *. rewrite fmap_cons.
  now right.
Qed.

(** X8. When no segment of the segment map has its name in the list of
    tracked links, as is the case before any link has been selected,
    [ComputeLinkTransforms] changes nothing and reports nothing; it does not
    reach the tree solver, and so completes on an object without one. *)
Theorem ComputeLinkTransforms_nothing_tracked (w : W) :
  (forall n, n ∈ segment_names (segment_map_ (this w)) ->
             n ∉ part_mesh_map_ (this w)) ->
  ComputeLinkTransforms Frame_Identity Frame_mul TreeFk_JntToCart w = (w, Ok tt).
Proof.
  intros Hnone. unfold ComputeLinkTransforms.
  unfold member at 1, gets at 1. unfold bind at 1.
  now apply ComputeLinkTransforms_loop_idle.
Qed.

(** *** What the member functions keep of the frame map and of the tracked
    links *)

Section Monotone.

Context (Q : RState -> RState -> Prop).
Context (Q_refl : forall s, Q s s).
Context (Q_trans : forall s1 s2 s3, Q s1 s2 -> Q s2 s3 -> Q s1 s3).

Lemma on_this_refl (w : W) : on_this Q w w.
Proof using Q_refl. apply Q_refl. Qed.

Lemma on_this_trans (w1 w2 w3 : W) :
  on_this Q w1 w2 -> on_this Q w2 w3 -> on_this Q w1 w3.
Proof using Q_trans. apply Q_trans. Qed.

Lemma on_this_print e : preserves (on_this Q) (print e).
Proof using Q_refl. intros w. apply Q_refl. Qed.

Lemma on_this_member {B} (g : RState -> B) : preserves (on_this Q) (member g).
Proof using Q_refl. intros w. apply Q_refl. Qed.

Lemma on_this_lift {B} (o : Outcome B) : preserves (on_this Q) (lift o).
Proof using Q_refl. intros w. apply Q_refl. Qed.

Lemma on_this_update (g : RState -> RState) :
  (forall s, Q s (g s)) -> preserves (on_this Q) (update g).
Proof. intros H w. apply H. Qed.

End Monotone.

Ltac mono_step Hrefl Htrans :=
  match goal with
  | |- preserves _ (bind _ _) =>
      apply preserves_bind; [apply (on_this_trans _ Htrans) | | intros ?]
  | |- preserves _ (ret _) => apply preserves_ret, (on_this_refl _ Hrefl)
  | |- preserves _ (fault _) => apply preserves_fault, (on_this_refl _ Hrefl)
  | |- preserves _ (deref _) => apply preserves_deref, (on_this_refl _ Hrefl)
  | |- preserves _ (array_read _ _) =>
      apply preserves_array_read, (on_this_refl _ Hrefl)
  | |- preserves _ (array_write _ _ _) =>
      apply preserves_array_write, (on_this_refl _ Hrefl)
  | |- preserves _ (substr _ _ _) =>
      apply preserves_substr, (on_this_refl _ Hrefl)
  | |- preserves _ (print _) => apply (on_this_print _ Hrefl)
  | |- preserves _ (member _) => apply (on_this_member _ Hrefl)
  | |- preserves _ (lift _) => apply (on_this_lift _ Hrefl)
  | |- preserves _ (update _) => apply on_this_update; intros ?
  | |- preserves _ (for_each _ _) =>
      apply preserves_for_each;
      [apply (on_this_refl _ Hrefl) | apply (on_this_trans _ Htrans) | intros ?]
  | |- preserves _ (call _ _ _) =>
      apply preserves_call;
      [apply (on_this_refl _ Hrefl) | apply (on_this_trans _ Htrans) |]
  | |- preserves _ (if ?b then _ else _) => destruct b
  | |- preserves _ (match ?x with _ => _ end) => destruct x
  end.

Lemma frame_map_grows_refl (s : RState) : frame_map_grows s s.
Proof. intros n H. exact H. Qed.

Lemma frame_map_grows_trans (s1 s2 s3 : RState) :
  frame_map_grows s1 s2 -> frame_map_grows s2 s3 -> frame_map_grows s1 s3.
Proof. intros H12 H23 n H. apply H23, H12, H. Qed.

Lemma frame_map_grows_insert (s : RState) n f :
  frame_map_grows s (set_frame_map_ (<[n := f]> (frame_map_ s)) s).
Proof.
  intros m H. cbn [frame_map_ set_frame_map_].
  apply lookup_insert_is_Some. destruct (decide (n = m)); auto.
Qed.

Lemma GetInitialJoints_on_this (Q : RState -> RState -> Prop) state jnt_angles :
  (forall s, Q s s) -> (forall s1 s2 s3, Q s1 s2 -> Q s2 s3 -> Q s1 s3) ->
  preserves (on_this Q) (GetInitialJoints state jnt_angles).
Proof.
  intros Hrefl Htrans. unfold GetInitialJoints, GetInitialJoints_body.
  repeat mono_step Hrefl Htrans.
  generalize (Eigen_resize jnt_angles a), 0%nat.
  induction (js_position state) as [| x l IH]; intros ja i; simpl;
    repeat mono_step Hrefl Htrans.
  apply IH.
Qed.

Lemma SetCameraTransform_on_this (Q : RState -> RState -> Prop) :
  (forall s, Q s s) -> (forall s1 s2 s3, Q s1 s2 -> Q s2 s3 -> Q s1 s3) ->
  (forall v s, Q s (set_cam_frame_ v s)) ->
  preserves (on_this Q) (SetCameraTransform zero ChainFk_JntToCart).
Proof.
  intros Hrefl Htrans Hcam. unfold SetCameraTransform.
  repeat mono_step Hrefl Htrans; try apply Hcam.
  generalize (replicate (KDL.getChainNrOfJoints a) (Val zero)), 0.
  induction (seq 0 (Z.to_nat (to_int (Z.of_nat (KDL.getNrOfSegments a)))))
    as [| i idxs IH]; intros arr j; simpl;
    repeat mono_step Hrefl Htrans; apply IH.
Qed.

Lemma InitKDLData_frame_map_grows (joint_state : JointState double) :
  preserves (on_this frame_map_grows)
    (InitKDLData zero Frame_Identity Frame_mul ChainFk_JntToCart
       TreeFk_JntToCart joint_state).
Proof.
  unfold InitKDLData.
  apply preserves_bind; [apply (on_this_trans _ frame_map_grows_trans) | |].
  { apply GetInitialJoints_on_this;
      [apply frame_map_grows_refl | apply frame_map_grows_trans]. }
  intros jnt_angles.
  apply preserves_bind; [apply (on_this_trans _ frame_map_grows_trans) | |].
  { apply on_this_update. intros s n H. exact H. }
  intros _.
  apply preserves_bind; [apply (on_this_trans _ frame_map_grows_trans) | |].
  { apply SetCameraTransform_on_this;
      [apply frame_map_grows_refl | apply frame_map_grows_trans |].
    intros v s n H. exact H. }
  intros _. unfold ComputeLinkTransforms, ComputeLinkTransforms_segment.
  repeat mono_step frame_map_grows_refl frame_map_grows_trans.
  apply frame_map_grows_insert.
Qed.

Lemma frame_map_at_frame_map_grows n :
  preserves (on_this frame_map_grows)
    (frame_map_at (double := double) Frame_Identity n).
Proof.
  intros w. unfold frame_map_at, member, gets, bind.
  destruct (frame_map_ (this w) !! n); simpl.
  - apply frame_map_grows_refl.
  - apply frame_map_grows_insert.
Qed.

(** X9. No member function removes an entry from the frame map: whatever
    the outcome of a call of [InitKDLData] or of [GetTransforms], every name
    that had a frame before the call has one after it. *)
Theorem frame_map_never_loses_an_entry (joint_state : JointState double)
  (current_tfs : list Affine3d) (noisy : bool) (w : W) (n : string) :
  is_Some (frame_map_ (this w) !! n) ->
  is_Some (frame_map_ (this (fst (InitKDLData zero Frame_Identity Frame_mul
                                    ChainFk_JntToCart TreeFk_JntToCart
                                    joint_state w))) !! n)
  /\ is_Some (frame_map_
                (this (fst (GetTransforms zero Frame_Identity Frame_mul
                              transformKDLToEigen ChainFk_JntToCart
                              TreeFk_JntToCart joint_state current_tfs noisy w)))
              !! n).
Proof.
  intros Hn. split.
  - now apply (InitKDLData_frame_map_grows joint_state w).
  - assert (H : preserves (on_this frame_map_grows)
                  (GetTransforms zero Frame_Identity Frame_mul
                     transformKDLToEigen ChainFk_JntToCart TreeFk_JntToCart
                     joint_state current_tfs noisy)).
    { unfold GetTransforms.
      apply preserves_call;
        [apply (on_this_refl _ frame_map_grows_refl)
        | apply (on_this_trans _ frame_map_grows_trans) |].
      unfold GetTransforms_body.
      apply preserves_bind; [apply (on_this_trans _ frame_map_grows_trans) | |].
      { apply InitKDLData_frame_map_grows. }
      intros _.
      apply preserves_bind; [apply (on_this_trans _ frame_map_grows_trans) | |].
      { apply (on_this_member _ frame_map_grows_refl). }
      intros segs. generalize current_tfs.
      induction segs as [| e segs IH]; intros tfs; cbn [GetTransforms_loop].
      - apply preserves_ret, (on_this_refl _ frame_map_grows_refl).
      - apply preserves_bind; [apply (on_this_trans _ frame_map_grows_trans) | |].
        { apply (on_this_member _ frame_map_grows_refl). }
        intros [|]; [| apply IH].
        apply preserves_bind; [apply (on_this_trans _ frame_map_grows_trans) | |].
        { apply frame_map_at_frame_map_grows. }
        intros f. apply IH. }
    now apply (H w).
Qed.

Lemma part_mesh_map_grows_refl (s : RState) : part_mesh_map_grows s s.
Proof. unfold part_mesh_map_grows. reflexivity. Qed.

Lemma part_mesh_map_grows_trans (s1 s2 s3 : RState) :
  part_mesh_map_grows s1 s2 -> part_mesh_map_grows s2 s3 ->
  part_mesh_map_grows s1 s3.
Proof. unfold part_mesh_map_grows. intros H12 H23. now transitivity (part_mesh_map_ s2). Qed.

Lemma GetPartMeshPaths_part_mesh_map_grows fuel paths :
  preserves (on_this part_mesh_map_grows)
    (GetPartMeshPaths (double := double) (Frame := Frame) fuel paths).
Proof.
  unfold GetPartMeshPaths, GetPartMeshPaths_body.
  repeat mono_step part_mesh_map_grows_refl part_mesh_map_grows_trans.
  generalize (seq 0 (length (URDF.links a))). intros idxs. revert paths.
  induction idxs as [| i idxs IH]; intros paths; simpl;
    repeat mono_step part_mesh_map_grows_refl part_mesh_map_grows_trans;
    try apply IH.
  unfold GetPartMeshPaths_link, record_mesh.
  repeat mono_step part_mesh_map_grows_refl part_mesh_map_grows_trans.
  unfold part_mesh_map_grows. cbn [part_mesh_map_ set_part_mesh_map_].
  now apply prefix_app_r.
Qed.

(** X10. Resolution and selection do not disturb each other.  Whatever the
    outcome of the call: [InitKDLData] and [GetTransforms] leave the list of
    tracked links as it is; [GetPartMeshPaths] only appends to it, so that a
    tracked name stays tracked, and leaves the frame map, the dense joint
    vector and the camera frame as they are. *)
Theorem selection_and_resolution_are_independent
  (joint_state : JointState double) (current_tfs : list Affine3d)
  (noisy : bool) (fuel : nat) (paths : list string) (w : W) :
  let resolved :=
    fst (InitKDLData zero Frame_Identity Frame_mul ChainFk_JntToCart
           TreeFk_JntToCart joint_state w) in
  let transformed :=
    fst (GetTransforms zero Frame_Identity Frame_mul transformKDLToEigen
           ChainFk_JntToCart TreeFk_JntToCart joint_state current_tfs noisy w) in
  let selected := fst (GetPartMeshPaths fuel paths w) in
  part_mesh_map_ (this resolved) = part_mesh_map_ (this w)
  /\ part_mesh_map_ (this transformed) = part_mesh_map_ (this w)
  /\ part_mesh_map_ (this w) `prefix_of` part_mesh_map_ (this selected)
  /\ (forall n, tracked (this w) n = true -> tracked (this selected) n = true)
  /\ frame_map_ (this selected) = frame_map_ (this w)
  /\ jnt_array_ (this selected) = jnt_array_ (this w)
  /\ cam_frame_ (this selected) = cam_frame_ (this w).
Proof.
  intros resolved transformed selected.
  pose proof (GetPartMeshPaths_part_mesh_map_grows fuel paths w) as Hgrow.
  unfold on_this, part_mesh_map_grows in Hgrow. fold selected in Hgrow.
  split; [apply (InitKDLData_keeps part_mesh_map_); reflexivity |].
  split; [apply (GetTransforms_keeps part_mesh_map_); reflexivity |].
  split; [exact Hgrow |].
  split.
  - intros n Hn. apply tracked_elem_of. apply tracked_elem_of in Hn.
    destruct Hgrow as [k ->]. apply elem_of_app. now left.
  - split; [| split].
    + apply (GetPartMeshPaths_keeps frame_map_); reflexivity.
    + apply (GetPartMeshPaths_keeps jnt_array_); reflexivity.
    + apply (GetPartMeshPaths_keeps cam_frame_); reflexivity.
Qed.

(** *** Resolution calls in sequence, and [GetTransforms] *)

Lemma store_frames_ext (value value' : string -> option Frame) ns fm :
  (forall n, value n = value' n) ->
  store_frames value ns fm = store_frames value' ns fm.
Proof.
  intros H. unfold store_frames. revert fm.
  induction ns as [| n ns IH]; intros fm; simpl; [reflexivity |].
  now rewrite H, IH.
Qed.

Lemma store_frames_idem (value : string -> option Frame) ns fm :
  store_frames value ns (store_frames value ns fm) = store_frames value ns fm.
Proof.
  apply map_eq. intros n.
  destruct (decide (n ∈ ns)) as [Hin | Hout].
  - destruct (value n) as [f |] eqn:Hv.
    + rewrite (store_frames_lookup value ns (store_frames value ns fm) n f)
        by assumption.
      now rewrite (store_frames_lookup value ns fm n f).
    + rewrite (store_frames_other value ns (store_frames value ns fm))
        by now right.
      reflexivity.
  - rewrite (store_frames_other value ns (store_frames value ns fm))
      by now left.
    reflexivity.
Qed.

Lemma last_occurrence (names : list string) (nm : string) :
  nm ∈ names ->
  exists i, names !! i = Some nm
            /\ forall j, (i < j)%nat -> names !! j <> Some nm.
Proof.
  induction names as [| y names IH]; intros Hin.
  - now apply elem_of_nil in Hin.
  - destruct (decide (nm ∈ names)) as [Hin' | Hout].
    + destruct (IH Hin') as (i & Hi & Hlater). exists (S i).
      split; [exact Hi |].
      intros [| j] Hj; [lia |]. simpl. apply Hlater. lia.
    + apply elem_of_cons in Hin as [-> | Hin]; [| contradiction].
      exists 0%nat. split; [reflexivity |].
      intros [| j] Hj; [lia |]. simpl. intros Hl. apply Hout.
      eapply list_elem_of_lookup_2; eauto.
Qed.

(** X11. Resolution with a complete update is idempotent.  When the joint
    table has no name twice and the update names every joint of the table,
    the dense vector after a resolution call has no indeterminate cell.
    With a chain solver that leaves the same frame when it is run again on
    the frame it left, as a solver does that either writes its result or
    resets the output, a second call of [InitKDLData] with the same joint
    state then completes and leaves the object exactly as the first call
    left it. *)
Theorem InitKDLData_idempotent (joint_state : JointState double) (w : W) :
  well_formed (this w) ->
  length (js_name joint_state) = length (js_position joint_state) ->
  Z.of_nat (length (js_name joint_state)) <= 2 ^ 31 ->
  NoDup (joint_map_ (this w)) ->
  (forall nm, nm ∈ joint_map_ (this w) -> nm ∈ js_name joint_state) ->
  (forall c q p,
     snd (ChainFk_JntToCart c q (snd (ChainFk_JntToCart c q p)))
     = snd (ChainFk_JntToCart c q p)) ->
  exists w1 w2 : W,
    InitKDLData zero Frame_Identity Frame_mul ChainFk_JntToCart TreeFk_JntToCart
      joint_state w = (w1, Ok tt)
    /\ (forall k c, jnt_array_ (this w1) !! k = Some c -> exists x, c = Val x)
    /\ InitKDLData zero Frame_Identity Frame_mul ChainFk_JntToCart
         TreeFk_JntToCart joint_state w1 = (w2, Ok tt)
    /\ this w2 = this w1.
Proof.
  intros Hwf Hnp Hlen Hnd Hfull Hidem.
  pose proof (InitKDLData_spec joint_state w Hwf Hnp Hlen) as H1.
  cbv zeta in H1.
  set (q := apply_entries (joint_map_ (this w)) _ _) in H1.
  set (c1 := snd (ChainFk_JntToCart _ _ _)) in H1.
  set (s3 := set_cam_frame_ c1 _) in H1.
  set (F1 := store_frames _ _ _) in H1.
  match type of H1 with _ = (?w0, _) => set (w1 := w0) in * end.
  assert (Hwf1 : well_formed (this w1)) by (destruct Hwf; split; assumption).
  pose proof (InitKDLData_spec joint_state w1 Hwf1 Hnp Hlen) as H2.
  cbv zeta in H2.
  exists w1. eexists. split; [exact H1 |]. split; [| split; [exact H2 |]].
  - intros k c Hk. change (jnt_array_ (this w1)) with q in Hk.
    destruct Hwf as [Hn Hjm _ _ _ _].
    assert (Hlt : (k < length (joint_map_ (this w)))%nat).
    { apply lookup_lt_Some in Hk. unfold q in Hk.
      rewrite apply_entries_length, length_replicate in Hk. now rewrite Hn. }
    apply lookup_lt_is_Some in Hlt as [nm Hnm].
    assert (Hin : nm ∈ joint_map_ (this w))
      by (eapply list_elem_of_lookup_2; eauto).
    destruct (last_occurrence _ _ (Hfull nm Hin)) as (i & Hi & Hlater).
    assert (Hpos : is_Some (js_position joint_state !! i)).
    { apply lookup_lt_is_Some. rewrite <- Hnp. eapply lookup_lt_Some; eauto. }
    destruct Hpos as [x Hx]. exists x.
    assert (Hval : q !! k = Some (Val x)).
    { apply (apply_entries_index_of _ (js_name joint_state)
               (js_position joint_state) _ i nm x k); auto.
      - rewrite length_replicate. now rewrite Hn.
      - split; [exact Hnm |]. intros k' Hk' Hnm'.
        assert (k' = k) by (eapply NoDup_lookup; eauto). lia. }
    congruence.
  - cbn [this].
    transitivity (set_frame_map_
                    (store_frames (link_frame s3 (kin_tree_ (this w)))
                       (segment_names (segment_map_ (this w))) F1) s3).
    + match goal with
      | |- context [snd (ChainFk_JntToCart ?c ?q0 ?p)] =>
          assert (Hc : snd (ChainFk_JntToCart c q0 p) = c1)
            by (exact (Hidem _ _ _));
          rewrite Hc
      end.
      reflexivity.
    + unfold F1. rewrite store_frames_idem. reflexivity.
Qed.

(** X12. On a well-formed object [GetTransforms] leaves the object exactly
    as [InitKDLData] does with the same joint state: reading the frame map
    adds no entry to it.  The vector it builds holds, after the content it
    received, the frame stored for every segment whose name is tracked,
    converted by [transformKDLToEigen], in the order of the segment map; the
    vector of the caller is as before. *)
Theorem GetTransforms_builds_tracked_frames (joint_state : JointState double)
  (current_tfs : list Affine3d) (noisy : bool) (w : W) :
  well_formed (this w) ->
  length (js_name joint_state) = length (js_position joint_state) ->
  Z.of_nat (length (js_name joint_state)) <= 2 ^ 31 ->
  exists w' : W,
    InitKDLData zero Frame_Identity Frame_mul ChainFk_JntToCart TreeFk_JntToCart
      joint_state w = (w', Ok tt)
    /\ GetTransforms_body zero Frame_Identity Frame_mul transformKDLToEigen
         ChainFk_JntToCart TreeFk_JntToCart joint_state noisy current_tfs w
       = (w', Ok (current_tfs
                  ++ tracked_frames transformKDLToEigen (this w')
                       (segment_names (segment_map_ (this w)))))
    /\ length (tracked_frames transformKDLToEigen (this w')
                 (segment_names (segment_map_ (this w))))
       = length (filter (fun n => n ∈ part_mesh_map_ (this w))
                   (segment_names (segment_map_ (this w))))
    /\ GetTransforms zero Frame_Identity Frame_mul transformKDLToEigen
         ChainFk_JntToCart TreeFk_JntToCart joint_state current_tfs noisy w
       = (w', Ok current_tfs).
Proof.
  intros Hwf Hnp Hlen.
  pose proof (InitKDLData_spec joint_state w Hwf Hnp Hlen) as H1.
  cbv zeta in H1.
  match type of H1 with _ = (?w1, _) => set (w' := w1) in * end.
  assert (Hsome : forall n, n ∈ segment_names (segment_map_ (this w)) ->
                            tracked (this w') n = true ->
                            is_Some (frame_map_ (this w') !! n)).
  { intros n Hn Htr.
    change (tracked (this w') n) with (tracked (this w) n) in Htr.
    unfold w'. cbn [this frame_map_ set_frame_map_].
    eexists. apply store_frames_lookup; [exact Hn |].
    unfold link_frame_of.
    rewrite (tracked_same (this w) _ n) by reflexivity. rewrite Htr.
    reflexivity. }
  assert (Hbody : GetTransforms_body zero Frame_Identity Frame_mul
                    transformKDLToEigen ChainFk_JntToCart TreeFk_JntToCart
                    joint_state noisy current_tfs w
                  = (w', Ok (current_tfs
                             ++ tracked_frames transformKDLToEigen (this w')
                                  (segment_names (segment_map_ (this w)))))).
  { unfold GetTransforms_body. rewrite (bind_Ok _ _ _ _ _ H1).
    unfold member at 1, gets at 1. unfold bind at 1.
    replace (segment_map_ (this w')) with (segment_map_ (this w))
      by reflexivity.
    now apply GetTransforms_loop_spec. }
  exists w'. split; [exact H1 |]. split; [exact Hbody |]. split.
  - assert (Hpm : part_mesh_map_ (this w') = part_mesh_map_ (this w))
      by reflexivity.
    revert Hsome. generalize (segment_names (segment_map_ (this w))).
    intros ns. induction ns as [| n ns IH]; intros Hsome; [reflexivity |].
    unfold tracked_frames. cbn [omap list_omap].
    fold (tracked_frames transformKDLToEigen (this w') ns).
    rewrite filter_cons.
    destruct (tracked (this w') n) eqn:Htr.
    + destruct (Hsome n (list_elem_of_here _ _) Htr) as [f Hf]. rewrite Hf.
      apply tracked_elem_of in Htr. rewrite Hpm in Htr.
      destruct (decide (n ∈ part_mesh_map_ (this w))); [| contradiction].
      cbn [fmap option_fmap option_map length]. f_equal. apply IH.
      intros m Hm. apply Hsome. now right.
    + destruct (decide (n ∈ part_mesh_map_ (this w))) as [Hin | _].
      * rewrite <- Hpm in Hin. apply tracked_elem_of in Hin. congruence.
      * apply IH. intros m Hm. apply Hsome. now right.
  - unfold GetTransforms, call. now rewrite (bind_Ok _ _ _ _ _ Hbody).
Qed.

(** *** Further properties of [GetPartMeshPaths] *)

Lemma GetPartMeshPaths_body_loop (fuel : nat) (paths : list string) (w : W)
  (r : URDF.Link) :
  URDF.getLink (urdf_ (this w)) (URDF.root (urdf_ (this w))) = Some r ->
  GetPartMeshPaths fuel paths w
  = call ByReference
      (GetPartMeshPaths_loop fuel (URDF.name r)
         (seq 0 (length (URDF.links (urdf_ (this w)))))) paths w.
Proof.
  intros Hr. unfold GetPartMeshPaths, call.
  assert (Hbody : GetPartMeshPaths_body fuel paths w
                  = GetPartMeshPaths_loop fuel (URDF.name r)
                      (seq 0 (length (URDF.links (urdf_ (this w))))) paths w).
  { unfold GetPartMeshPaths_body.
    unfold member at 1, gets at 1. unfold bind at 1. unfold bind at 1.
    rewrite Hr. reflexivity. }
  unfold bind at 1. rewrite Hbody. reflexivity.
Qed.

(** X13. When the root link has a mesh whose file name is shorter than four
    characters, [filename.size() - 4] wraps around and [substr] throws
    [std::out_of_range]: the selection stops at the first link, provided that
    link descends from the root, and nothing is recorded. *)
Theorem GetPartMeshPaths_short_file_name_faults (fuel : nat)
  (paths : list string) (w : W) (r : URDF.Link) (f : string) (k : nat) :
  let u := urdf_ (this w) in
  URDF.getLink u (URDF.root u) = Some r ->
  URDF.visual r = Some {| URDF.geometry := Some (URDF.MESH f) |} ->
  (String.length f < 4)%nat ->
  (k < fuel)%nat ->
  nth_parent u k (Some 0%nat) = URDF.root u ->
  (forall k', (k' < k)%nat ->
     exists l', URDF.getLink u (nth_parent u k' (Some 0%nat)) = Some l'
                /\ URDF.name l' <> URDF.name r) ->
  GetPartMeshPaths fuel paths w = (w, Crash StdOutOfRange).
Proof.
  intros u Hr Hvis Hshort Hk Hnth Hb.
  rewrite (GetPartMeshPaths_body_loop fuel paths w r Hr). fold u.
  assert (Hreach : URDF.getLink u (nth_parent u k (Some 0%nat)) = Some r)
    by (now rewrite Hnth).
  assert (Hlinks : exists n, length (URDF.links u) = S n).
  { destruct (URDF.root u) as [i0 |]; [| discriminate].
    simpl in Hr. apply lookup_lt_Some in Hr.
    destruct (length (URDF.links u)); [lia | eauto]. }
  destruct Hlinks as [n ->].
  assert (Hstep : GetPartMeshPaths_link fuel (URDF.name r) 0 paths w
                  = (w, Crash StdOutOfRange)).
  { unfold GetPartMeshPaths_link.
    unfold member at 1, gets at 1. unfold bind at 1. fold u.
    rewrite (walk_to_root_complete u _ k fuel _ r Hk Hreach eq_refl Hb).
    unfold lift at 1. unfold bind at 1. rewrite Hreach.
    unfold deref at 1, ret at 1. unfold bind at 1.
    unfold record_mesh. rewrite Hvis.
    apply bind_Crash. rewrite substr_tail by lia.
    destruct (Nat.leb_spec 4 (String.length f)); [lia | reflexivity]. }
  unfold call. cbn [seq GetPartMeshPaths_loop].
  apply bind_Crash. now apply bind_Crash.
Qed.

Lemma GetPartMeshPaths_rooted_run (fuel : nat) (paths : list string) (w : W)
  (u : URDF.Model double) (r : URDF.Link) :
  urdf_ (this w) = u ->
  URDF.getLink u (URDF.root u) = Some r ->
  (forall f, URDF.visual r = Some {| URDF.geometry := Some (URDF.MESH f) |} ->
             (4 <= String.length f)%nat /\ Z.of_nat (String.length f) < 2 ^ 64) ->
  (forall i, (i < length (URDF.links u))%nat ->
     exists k, (k < fuel)%nat /\ nth_parent u k (Some i) = URDF.root u
               /\ forall k', (k' < k)%nat ->
                    exists l', URDF.getLink u (nth_parent u k' (Some i)) = Some l'
                               /\ URDF.name l' <> URDF.name r) ->
  exists w' : W,
    GetPartMeshPaths fuel paths w
    = (w', Ok (paths ++ match mesh_file r with
                        | Some f => replicate (length (URDF.links u)) f
                        | None => []
                        end))
    /\ part_mesh_map_ (this w')
       = part_mesh_map_ (this w)
         ++ match mesh_file r with
            | Some _ => replicate (length (URDF.links u)) (URDF.name r)
            | None => []
            end
    /\ urdf_ (this w') = u.
Proof.
  intros Hu Hr Hsize Hdesc.
  destruct (GetPartMeshPaths_loop_rooted fuel u r (seq 0 (length (URDF.links u)))
              Hr Hsize) with (paths := paths) (w := w)
    as (w' & Hloop & Hpm & Hu').
  - intros i Hi. apply Hdesc. apply elem_of_seq in Hi. lia.
  - exact Hu.
  - exists w'. rewrite length_seq in Hloop, Hpm. split; [| split; assumption].
    rewrite (GetPartMeshPaths_body_loop fuel paths w r) by (now rewrite Hu).
    rewrite Hu. unfold call. now rewrite (bind_Ok _ _ _ _ _ Hloop).
Qed.

(** X14. [GetPartMeshPaths] does not clear what an earlier call recorded:
    on a topology all of whose links descend from the root, a second call
    appends the same paths to the caller's vector and the same names to the
    list of tracked links once more; the names that count as tracked are the
    same after the second call as after the first. *)
Theorem GetPartMeshPaths_twice_records_twice (fuel : nat)
  (paths : list string) (w : W) (r : URDF.Link) :
  let u := urdf_ (this w) in
  let files := match mesh_file r with
               | Some f => replicate (length (URDF.links u)) f
               | None => []
               end in
  let names := match mesh_file r with
               | Some _ => replicate (length (URDF.links u)) (URDF.name r)
               | None => []
               end in
  URDF.getLink u (URDF.root u) = Some r ->
  (forall f, URDF.visual r = Some {| URDF.geometry := Some (URDF.MESH f) |} ->
             (4 <= String.length f)%nat /\ Z.of_nat (String.length f) < 2 ^ 64) ->
  (forall i, (i < length (URDF.links u))%nat ->
     exists k, (k < fuel)%nat /\ nth_parent u k (Some i) = URDF.root u
               /\ forall k', (k' < k)%nat ->
                    exists l', URDF.getLink u (nth_parent u k' (Some i)) = Some l'
                               /\ URDF.name l' <> URDF.name r) ->
  exists w1 w2 : W,
    GetPartMeshPaths fuel paths w = (w1, Ok (paths ++ files))
    /\ GetPartMeshPaths fuel (paths ++ files) w1
       = (w2, Ok ((paths ++ files) ++ files))
    /\ part_mesh_map_ (this w2) = (part_mesh_map_ (this w) ++ names) ++ names
    /\ forall n, tracked (this w2) n = tracked (this w1) n.
Proof.
  intros u files names Hr Hsize Hdesc.
  destruct (GetPartMeshPaths_rooted_run fuel paths w u r eq_refl Hr Hsize Hdesc)
    as (w1 & Hrun1 & Hpm1 & Hu1).
  destruct (GetPartMeshPaths_rooted_run fuel (paths ++ files) w1 u r Hu1 Hr
              Hsize Hdesc) as (w2 & Hrun2 & Hpm2 & _).
  fold files in Hrun1, Hrun2. fold names in Hpm1, Hpm2.
  exists w1, w2. split; [exact Hrun1 |]. split; [exact Hrun2 |].
  split; [now rewrite Hpm2, Hpm1 |].
  intros n. apply eq_true_iff_eq. rewrite !tracked_elem_of.
  rewrite Hpm2, Hpm1, !elem_of_app. split.
  - intros [[H | H] | H]; auto.
  - intros [H | H]; auto.
Qed.

Lemma record_mesh_Ok_inv (u : URDF.Model double) (li : option nat)
  (l : URDF.Link) (paths : list string) (w w1 : W) (p1 : list string) :
  record_mesh u li l paths w = (w1, Ok p1) ->
  urdf_ (this w1) = urdf_ (this w)
  /\ exists added,
       p1 = paths ++ added
       /\ part_mesh_map_ (this w1)
          = part_mesh_map_ (this w) ++ replicate (length added) (URDF.name l)
       /\ (length added <= 1)%nat.
Proof.
  intros H.
  assert (Hsame : (w1, Ok p1) = (w, Ok paths) ->
            urdf_ (this w1) = urdf_ (this w)
            /\ exists added,
                 p1 = paths ++ added
                 /\ part_mesh_map_ (this w1)
                    = part_mesh_map_ (this w)
                      ++ replicate (length added) (URDF.name l)
                 /\ (length added <= 1)%nat).
  { intros Heq. injection Heq as -> ->. split; [reflexivity |].
    exists []. rewrite !app_nil_r. repeat split; auto. }
  unfold record_mesh in H.
  destruct (URDF.visual l) as [[[g |]] |]; try (symmetry in H; now apply Hsame).
  destruct g as [| | | f]; try (symmetry in H; now apply Hsame).
  cbv zeta in H.
  unfold substr, bind, ret, fault, deref, print, update, modify in H.
  destruct (Z.of_nat (String.length f)
            <? size_t_sub (Z.of_nat (String.length f)) 4); [discriminate |].
  destruct (String.eqb _ ".stl"); simpl in H.
  - destruct (URDF.getLink u li) as [a |]; unfold ret, fault in H;
      [| discriminate].
    injection H as <- <-. split; [reflexivity |].
    exists [f]. repeat split; auto.
  - destruct (String.eqb _ ".dae"); simpl in H.
    + destruct (URDF.getLink u li) as [a |]; unfold ret, fault in H;
        [| discriminate].
      injection H as <- <-. split; [reflexivity |].
      exists [f]. repeat split; auto.
    + symmetry in H. now apply Hsame.
Qed.

Lemma GetPartMeshPaths_link_Ok_inv (fuel : nat) (global_root : string)
  (i : nat) (paths : list string) (w w1 : W) (p1 : list string) :
  GetPartMeshPaths_link fuel global_root i paths w = (w1, Ok p1) ->
  urdf_ (this w1) = urdf_ (this w)
  /\ exists added,
       p1 = paths ++ added
       /\ part_mesh_map_ (this w1)
          = part_mesh_map_ (this w) ++ replicate (length added) global_root
       /\ (length added <= 1)%nat.
Proof.
  intros H. unfold GetPartMeshPaths_link in H.
  unfold member at 1, gets at 1 in H. unfold bind at 1 in H.
  unfold lift at 1 in H. unfold bind at 1 in H.
  destruct (walk_to_root fuel (urdf_ (this w)) global_root (Some i))
    as [p | e |] eqn:Hwalk; try discriminate.
  apply walk_to_root_Ok in Hwalk as (k & l & _ & _ & Hl & Hn & _).
  rewrite Hl in H. unfold deref at 1, ret at 1 in H. unfold bind at 1 in H.
  apply record_mesh_Ok_inv in H. now rewrite Hn in H.
Qed.

Lemma GetPartMeshPaths_loop_Ok_inv (fuel : nat) (global_root : string)
  (idxs : list nat) :
  forall (paths : list string) (w w' : W) (paths' : list string),
    GetPartMeshPaths_loop fuel global_root idxs paths w = (w', Ok paths') ->
    urdf_ (this w') = urdf_ (this w)
    /\ exists added,
         paths' = paths ++ added
         /\ part_mesh_map_ (this w')
            = part_mesh_map_ (this w) ++ replicate (length added) global_root
         /\ (length added <= length idxs)%nat.
Proof.
  induction idxs as [| i idxs IH]; intros paths w w' paths' H.
  - injection H as <- <-. split; [reflexivity |].
    exists []. rewrite !app_nil_r. repeat split; auto.
  - cbn [GetPartMeshPaths_loop] in H. unfold bind at 1 in H.
    destruct (GetPartMeshPaths_link fuel global_root i paths w)
      as [w1 [p1 | e |]] eqn:Hstep; try discriminate.
    apply GetPartMeshPaths_link_Ok_inv in Hstep
      as (Hu1 & added1 & -> & Hpm1 & Hlen1).
    apply IH in H as (Hu & added & -> & Hpm & Hlen).
    split; [congruence |]. exists (added1 ++ added).
    rewrite Hpm, Hpm1, length_app, replicate_add, <- !app_assoc.
    repeat split; auto. simpl. lia.
Qed.

(** X15. Whenever [GetPartMeshPaths] returns, the vector of the caller and
    the list of tracked links have grown by the same number of entries, at
    most one per link, what the caller's vector held is still in front, and
    every name added to the list of tracked links is the name of the root
    link: no other link is ever recorded. *)
Theorem GetPartMeshPaths_records_only_the_root (fuel : nat)
  (paths : list string) (w w' : W) (paths' : list string) :
  GetPartMeshPaths fuel paths w = (w', Ok paths') ->
  exists (r : URDF.Link) (added : list string),
    URDF.getLink (urdf_ (this w)) (URDF.root (urdf_ (this w))) = Some r
    /\ paths' = paths ++ added
    /\ part_mesh_map_ (this w')
       = part_mesh_map_ (this w) ++ replicate (length added) (URDF.name r)
    /\ (length added <= length (URDF.links (urdf_ (this w))))%nat.
Proof.
  intros H.
  destruct (URDF.getLink (urdf_ (this w)) (URDF.root (urdf_ (this w))))
    as [r |] eqn:Hr.
  - rewrite (GetPartMeshPaths_body_loop fuel paths w r Hr) in H.
    unfold call in H. unfold bind at 1 in H.
    destruct (GetPartMeshPaths_loop fuel (URDF.name r)
                (seq 0 (length (URDF.links (urdf_ (this w))))) paths w)
      as [w1 [p1 | e |]] eqn:Hloop; try discriminate.
    injection H as <- <-.
    apply GetPartMeshPaths_loop_Ok_inv in Hloop as (_ & added & -> & Hpm & Hlen).
    rewrite length_seq in Hlen. exists r, added. auto.
  - assert (Hbody : GetPartMeshPaths_body fuel paths w = (w, Crash NullDeref)).
    { unfold GetPartMeshPaths_body.
      unfold member at 1, gets at 1. unfold bind at 1. unfold bind at 1.
      rewrite Hr. reflexivity. }
    unfold GetPartMeshPaths, call in H.
    rewrite (bind_Crash _ _ _ _ _ Hbody) in H. discriminate.
Qed.

(** *** Further properties of the constructor *)

Lemma ctor_loop_limits (segs : KDL.SegmentMap) :
  forall w : W,
    (forall q nm, (q, nm) ∈ movable_joints segs ->
       (q < length (joint_map_ (this w)))%nat
       /\ exists j, URDF.getJoint (urdf_ (this w)) nm = Some j
                    /\ URDF.joint_name j = nm
                    /\ URDF.type j <> URDF.UNKNOWN /\ URDF.type j <> URDF.FIXED
                    /\ is_Some (URDF.limits j)) ->
    NoDup (fst <$> movable_joints segs) ->
    length (lower_limit_ (this w)) = length (joint_map_ (this w)) ->
    length (upper_limit_ (this w)) = length (joint_map_ (this w)) ->
    exists w' : W,
      for_each segs (ctor_segment limit_cast) w = (w', Ok tt)
      /\ console w' = console w
      /\ urdf_ (this w') = urdf_ (this w)
      /\ length (joint_map_ (this w')) = length (joint_map_ (this w))
      /\ length (lower_limit_ (this w')) = length (lower_limit_ (this w))
      /\ length (upper_limit_ (this w')) = length (upper_limit_ (this w))
      /\ (forall q, q ∉ fst <$> movable_joints segs ->
            lower_limit_ (this w') !! q = lower_limit_ (this w) !! q
            /\ upper_limit_ (this w') !! q = upper_limit_ (this w) !! q)
      /\ (forall q nm, (q, nm) ∈ movable_joints segs ->
            exists j lim,
              URDF.getJoint (urdf_ (this w)) nm = Some j
              /\ URDF.limits j = Some lim
              /\ lower_limit_ (this w') !! q = Some (limit_cast (URDF.lower lim))
              /\ upper_limit_ (this w') !! q = Some (limit_cast (URDF.upper lim))).
Proof.
  induction segs as [| e segs IH]; intros w Hgood Hnd Hlo Hup.
  - exists w. split; [reflexivity |]. repeat split; auto.
    intros q nm Hin. now apply elem_of_nil in Hin.
  - cbn [for_each]. rewrite movable_joints_cons in Hgood, Hnd |- *.
    destruct (KDL.movable (KDL.segment (snd e))) eqn:Hmov.
    + rewrite fmap_cons in Hnd |- *. cbn [fst] in Hnd |- *.
      apply NoDup_cons in Hnd as [Hfresh Hnd].
      destruct (Hgood _ _ (list_elem_of_here _ _))
        as (Hq & j & Hj & Hnm & Hty1 & Hty2 & [lim Hlim]).
      pose proof (ctor_segment_movable e w j lim Hmov Hj Hty1 Hty2 Hlim Hq
                    Hlo Hup) as Hstep.
      rewrite (bind_Ok _ _ _ _ _ Hstep).
      match type of Hstep with
      | _ = (?w0, _) => set (w1 := w0) in *
      end.
      destruct (IH w1) as (w' & Hloop & Hcon & Hu & Hjl & Hll & Hul & Hkeep & Hset).
      * intros q nm Hin. unfold w1. cbn [this joint_map_ urdf_ set_joint_tables].
        rewrite length_insert. apply Hgood. now right.
      * exact Hnd.
      * unfold w1. cbn [this set_joint_tables lower_limit_ joint_map_].
        now rewrite !length_insert.
      * unfold w1. cbn [this set_joint_tables upper_limit_ joint_map_].
        now rewrite !length_insert.
      * exists w'. split; [exact Hloop |].
        split; [exact Hcon |]. split; [exact Hu |].
        split; [rewrite Hjl; unfold w1;
                cbn [this set_joint_tables joint_map_]; apply length_insert |].
        split; [rewrite Hll; unfold w1;
                cbn [this set_joint_tables lower_limit_]; apply length_insert |].
        split; [rewrite Hul; unfold w1;
                cbn [this set_joint_tables upper_limit_]; apply length_insert |].
        split.
        -- intros q Hq'. apply not_elem_of_cons in Hq' as [Hne Hq'].
           destruct (Hkeep q Hq') as [-> ->]. unfold w1.
           cbn [this set_joint_tables lower_limit_ upper_limit_].
           now rewrite !list_lookup_insert_ne by congruence.
        -- intros q nm Hin. apply elem_of_cons in Hin as [Heq | Hin].
           ++ injection Heq as -> ->. exists j, lim.
              split; [exact Hj |]. split; [exact Hlim |].
              destruct (Hkeep _ Hfresh) as [-> ->]. unfold w1.
              cbn [this set_joint_tables lower_limit_ upper_limit_].
              rewrite !list_lookup_insert_eq by lia. auto.
           ++ apply (Hset q nm Hin).
    + assert (Hs : (ctor_segment limit_cast) e w = (w, Ok tt))
        by (unfold ctor_segment; now rewrite Hmov).
      rewrite (bind_Ok _ _ _ _ _ Hs). apply IH; auto.
Qed.

Lemma ctor_run (env : Collaborators double) :
  valid_topology env ->
  let tree := snd (treeFromUrdfModel env) in
  exists w : W,
    RobotState_ctor zero limit_cast Frame_Identity env = (w, Ok tt)
    /\ console w
       = (if getParam_robot_description env then [] else [ROS_ERROR_no_urdf])
         ++ (if fst (initString env) then [] else [ROS_ERROR_parse_urdf])
         ++ [if fst (getChain env)
             then ROS_INFO_chain (param_camera_frame env)
                    (param_kinematic_frame env)
             else ROS_ERROR_chain (param_camera_frame env)
                    (param_kinematic_frame env)]
    /\ length (lower_limit_ (this w)) = KDL.getNrOfJoints tree
    /\ length (upper_limit_ (this w)) = KDL.getNrOfJoints tree
    /\ (forall q nm, (q, nm) ∈ movable_joints (KDL.getSegments tree) ->
          exists j lim,
            URDF.getJoint (snd (initString env)) nm = Some j
            /\ URDF.limits j = Some lim
            /\ lower_limit_ (this w) !! q = Some (limit_cast (URDF.lower lim))
            /\ upper_limit_ (this w) !! q = Some (limit_cast (URDF.upper lim))).
Proof.
  intros [Htree Hq Hnames Hurdf Hsize] tree.
  unfold RobotState_ctor, ctor_body. rewrite Htree. cbn [negb].
  fold tree in Hq, Hnames, Hurdf, Hsize |- *.
  set (w0 := {| this := members_at_entry Frame_Identity (snd (initString env));
                console := [] |}).
  assert (Hpre : forall (b : bool) (e : Event) (k : M W unit) (w : W),
             bind (if b then ret tt else print e) (fun _ => k) w
             = k (say (if b then [] else [e]) w)).
  { intros [] e k w; unfold bind, ret, print, modify; [now rewrite say_nil |].
    reflexivity. }
  rewrite !Hpre.
  set (w1 := say _ (say _ w0)).
  unfold update at 1, modify at 1. unfold bind at 1.
  cbn [this joint_map_ lower_limit_ upper_limit_ members_at_entry w1 w0 say].
  rewrite !vector_resize_nil.
  unfold member at 1, gets at 1. unfold bind at 1. cbn [this segment_map_].
  lazymatch goal with
  | |- exists w, _ ?w2 = _ /\ _ =>
      destruct (ctor_loop_limits (KDL.getSegments tree) w2)
        as (w' & Hloop & Hcon & Hu & _ & Hll & Hul & _ & Hset)
  end.
  - intros q nm Hin. cbn [this joint_map_ urdf_]. rewrite length_replicate.
    split; [| now apply (Hurdf q)].
    assert (Hq' : q ∈ seq 0 (KDL.getNrOfJoints tree)).
    { rewrite <- Hq. apply list_elem_of_fmap. exists (q, nm). auto. }
    apply elem_of_seq in Hq'. lia.
  - rewrite Hq. apply NoDup_seq.
  - cbn [this joint_map_ lower_limit_]. now rewrite !length_replicate.
  - cbn [this joint_map_ upper_limit_]. now rewrite !length_replicate.
  - rewrite (bind_Ok _ _ _ _ _ Hloop). cbv beta.
    assert (Hchain : forall (b : bool) (e1 e2 : Event) (k : M W unit) (w : W),
               bind (if b then print e1 else print e2) (fun _ => k) w
               = k (say [if b then e1 else e2] w)).
    { intros [] e1 e2 k w; reflexivity. }
    rewrite Hchain.
    unfold update, modify. eexists. split; [reflexivity |].
    cbn [this console say lower_limit_ upper_limit_] in *.
    rewrite Hcon, Hll, Hul, !length_replicate.
    split; [unfold w1, w0; cbn [console say app]; now rewrite <- app_assoc |].
    split; [reflexivity |]. split; [reflexivity |].
    intros q nm Hin. destruct (Hset q nm Hin) as (j & lim & Hj & Hlim & Hlo & Hup).
    exists j, lim. auto.
Qed.

(** X16. After construction over a valid topology the three joint tables
    are aligned: they have one entry per joint of the tree, and for every
    movable joint of the tree the entry at the position KDL gave the joint
    holds, in [joint_map_], the name of the joint and, in [lower_limit_] and
    [upper_limit_], the lower and the upper limit the description gives for
    the joint of that name. *)
Theorem ctor_limit_tables (env : Collaborators double) :
  valid_topology env ->
  let tree := snd (treeFromUrdfModel env) in
  exists w : W,
    RobotState_ctor zero limit_cast Frame_Identity env = (w, Ok tt)
    /\ length (joint_map_ (this w)) = KDL.getNrOfJoints tree
    /\ length (lower_limit_ (this w)) = KDL.getNrOfJoints tree
    /\ length (upper_limit_ (this w)) = KDL.getNrOfJoints tree
    /\ forall q nm, (q, nm) ∈ movable_joints (KDL.getSegments tree) ->
         exists j lim,
           URDF.getJoint (snd (initString env)) nm = Some j
           /\ URDF.limits j = Some lim
           /\ joint_map_ (this w) !! q = Some nm
           /\ lower_limit_ (this w) !! q = Some (limit_cast (URDF.lower lim))
           /\ upper_limit_ (this w) !! q = Some (limit_cast (URDF.upper lim)).
Proof.
  intros Hv tree.
  destruct (ctor_run env Hv) as (w & Hctor & _ & Hll & Hul & Hlim).
  destruct (ctor_joint_map env w Hv Hctor) as (Hlen & _ & Hlook & _).
  exists w. split; [exact Hctor |]. split; [exact Hlen |].
  split; [exact Hll |]. split; [exact Hul |].
  intros q nm Hin.
  destruct (Hlim q nm Hin) as (j & lim & Hj & Hl & Hlo & Hup).
  exists j, lim. repeat split; auto.
Qed.

(** X17. A chain that could not be extracted does not stop the
    constructor.  Once the description has been read and parsed and the tree
    built, the constructor completes whatever [getChain] answers: it reports
    the success or the failure of [getChain], and nothing else, and builds
    the chain solver over the chain object as [getChain] left it. *)
Theorem ctor_reports_and_continues (env : Collaborators double) :
  valid_topology env ->
  getParam_robot_description env = true ->
  fst (initString env) = true ->
  exists w : W,
    RobotState_ctor zero limit_cast Frame_Identity env = (w, Ok tt)
    /\ console w
       = [if fst (getChain env)
          then ROS_INFO_chain (param_camera_frame env)
                 (param_kinematic_frame env)
          else ROS_ERROR_chain (param_camera_frame env)
                 (param_kinematic_frame env)]
    /\ base_2_cam_ (this w) = snd (getChain env)
    /\ chain_solver_ (this w) = Some (snd (getChain env))
    /\ tree_solver_ (this w) = Some (snd (treeFromUrdfModel env)).
Proof.
  intros Hv Hparam Hparse.
  destruct (ctor_run env Hv) as (w & Hctor & Hcon & _).
  destruct (ctor_spec env Hv) as (w0 & Hctor0 & _ & _ & _ & Hb & Hc & Ht & _).
  rewrite Hctor in Hctor0. injection Hctor0 as <-.
  rewrite Hparam, Hparse in Hcon.
  exists w. auto.
Qed.

Lemma ctor_segment_keeps {A} (f : RState -> A) (e : string * KDL.TreeElement) :
  (forall jm lo up s, f (set_joint_tables jm lo up s) = f s) ->
  preserves (keeps f) (ctor_segment (Frame := Frame) limit_cast e).
Proof. intros H. unfold ctor_segment. frame. Qed.

(** A segment whose joint is not [None] and either has no joint of its name
    in the description, or has one of a movable kind without limits. *)
Lemma ctor_segment_not_Ok (e : string * KDL.TreeElement) (w w1 : W) :
  KDL.movable (KDL.segment (snd e)) = true ->
  URDF.getJoint (urdf_ (this w))
    (KDL.getJointName (KDL.getJoint (KDL.segment (snd e)))) = None
  \/ (exists j,
        URDF.getJoint (urdf_ (this w))
          (KDL.getJointName (KDL.getJoint (KDL.segment (snd e)))) = Some j
        /\ URDF.type j <> URDF.UNKNOWN /\ URDF.type j <> URDF.FIXED
        /\ URDF.limits j = None) ->
  (ctor_segment limit_cast) e w <> (w1, Ok tt).
Proof.
  intros Hmov Hbad H. unfold ctor_segment in H. rewrite Hmov in H.
  unfold member at 1, gets at 1 in H. unfold bind at 1 in H.
  destruct Hbad as [Hn | (j & Hj & Hty1 & Hty2 & Hlim)].
  - rewrite Hn in H. discriminate.
  - rewrite Hj in H. unfold deref at 1, ret at 1 in H. unfold bind at 1 in H.
    rewrite !bool_decide_eq_true_2 in H by assumption. cbn [andb] in H.
    unfold member at 1, gets at 1 in H. unfold bind at 1 in H.
    unfold array_write at 1 in H.
    destruct ((0 <=? Z.of_nat (KDL.q_nr (snd e)))
              && (Z.of_nat (KDL.q_nr (snd e))
                  <? Z.of_nat (length (joint_map_ (this w))))); [| discriminate].
    unfold ret at 1 in H. unfold bind at 1 in H.
    unfold update at 1, modify at 1 in H. unfold bind at 1 in H.
    rewrite Hlim in H. discriminate.
Qed.

Lemma ctor_loop_not_Ok (e : string * KDL.TreeElement) (u : URDF.Model double)
  (segs : KDL.SegmentMap) :
  e ∈ segs ->
  KDL.movable (KDL.segment (snd e)) = true ->
  URDF.getJoint u (KDL.getJointName (KDL.getJoint (KDL.segment (snd e)))) = None
  \/ (exists j,
        URDF.getJoint u (KDL.getJointName (KDL.getJoint (KDL.segment (snd e))))
        = Some j
        /\ URDF.type j <> URDF.UNKNOWN /\ URDF.type j <> URDF.FIXED
        /\ URDF.limits j = None) ->
  forall w w1 : W,
    urdf_ (this w) = u -> for_each segs (ctor_segment limit_cast) w <> (w1, Ok tt).
Proof.
  intros Hin Hmov Hbad.
  induction segs as [| e0 segs IH]; intros w w1 Hu H.
  - now apply elem_of_nil in Hin.
  - cbn [for_each] in H. unfold bind at 1 in H.
    destruct ((ctor_segment limit_cast) e0 w) as [w0 [[] | f |]] eqn:Hstep;
      try discriminate.
    apply elem_of_cons in Hin as [-> | Hin].
    + revert Hstep. apply ctor_segment_not_Ok; [exact Hmov | now rewrite Hu].
    + apply (IH Hin w0 w1); [| exact H].
      pose proof (ctor_segment_keeps urdf_ e0 (fun _ _ _ _ => eq_refl) w) as Hk.
      rewrite Hstep in Hk. unfold keeps in Hk. simpl in Hk. congruence.
Qed.

(** X18. When the tree has a segment whose joint is not [None] and for
    which the description has no joint of that name, or has one of a movable
    kind that carries no limits, the constructor does not complete: it stops
    at a null pointer ([joint->name] in the arguments of [ROS_FATAL], or
    [joint->limits->lower]) or earlier, and the solvers are never built. *)
Theorem ctor_unresolved_joint_faults (env : Collaborators double)
  (e : string * KDL.TreeElement) :
  fst (treeFromUrdfModel env) = true ->
  e ∈ KDL.getSegments (snd (treeFromUrdfModel env)) ->
  KDL.movable (KDL.segment (snd e)) = true ->
  URDF.getJoint (snd (initString env))
    (KDL.getJointName (KDL.getJoint (KDL.segment (snd e)))) = None
  \/ (exists j,
        URDF.getJoint (snd (initString env))
          (KDL.getJointName (KDL.getJoint (KDL.segment (snd e)))) = Some j
        /\ URDF.type j <> URDF.UNKNOWN /\ URDF.type j <> URDF.FIXED
        /\ URDF.limits j = None) ->
  snd (RobotState_ctor zero limit_cast Frame_Identity env) <> Ok tt
  /\ chain_solver_ (this (fst (RobotState_ctor zero limit_cast Frame_Identity env))) = None
  /\ tree_solver_ (this (fst (RobotState_ctor zero limit_cast Frame_Identity env))) = None.
Proof.
  intros Htree Hin Hmov Hbad.
  remember (RobotState_ctor zero limit_cast Frame_Identity env) as r eqn:Hr.
  unfold RobotState_ctor, ctor_body in Hr. rewrite Htree in Hr. cbn [negb] in Hr.
  assert (Hpre : forall (b : bool) (ev : Event) (k : M W unit) (w : W),
             bind (if b then ret tt else print ev) (fun _ => k) w
             = k (say (if b then [] else [ev]) w)).
  { intros [] ev k w; unfold bind, ret, print, modify; [now rewrite say_nil |].
    reflexivity. }
  rewrite !Hpre in Hr.
  unfold update at 1, modify at 1 in Hr. unfold bind at 1 in Hr.
  unfold member at 1, gets at 1 in Hr. unfold bind at 1 in Hr.
  cbn [this segment_map_] in Hr.
  match type of Hr with
  | context [bind (for_each ?segs (ctor_segment limit_cast)) ?k ?w2] =>
      pose proof (ctor_loop_not_Ok e (snd (initString env)) segs Hin Hmov Hbad
                    w2) as Hloop;
      pose proof (preserves_for_each (keeps chain_solver_)
                    (keeps_refl chain_solver_) (keeps_trans chain_solver_)
                    segs (ctor_segment limit_cast)
                    (fun a => ctor_segment_keeps chain_solver_ a
                                (fun _ _ _ _ => eq_refl)) w2) as Hcs;
      pose proof (preserves_for_each (keeps tree_solver_)
                    (keeps_refl tree_solver_) (keeps_trans tree_solver_)
                    segs (ctor_segment limit_cast)
                    (fun a => ctor_segment_keeps tree_solver_ a
                                (fun _ _ _ _ => eq_refl)) w2) as Hts;
      unfold bind at 1 in Hr;
      destruct (for_each segs (ctor_segment limit_cast) w2) as [w3 [[] | f |]] eqn:Hrun
  end.
  - exfalso. now apply (Hloop w3 eq_refl).
  - subst r. unfold keeps in Hcs, Hts. simpl in Hcs, Hts |- *.
    repeat split; [discriminate | exact Hcs | exact Hts].
  - subst r. unfold keeps in Hcs, Hts. simpl in Hcs, Hts |- *.
    repeat split; [discriminate | exact Hcs | exact Hts].
Qed.

(** X19. When the tree cannot be built from the description the constructor
    reports it and returns at once: the object keeps the members it had at
    entry, with empty tables, and the solver pointers are never set.  On such
    an object every resolution call reports the entries of the update as
    unknown and then stops where it goes through the chain solver pointer. *)
Theorem ctor_without_tree_leaves_unusable_object (env : Collaborators double)
  (joint_state : JointState double) (current_tfs : list Affine3d)
  (noisy : bool) :
  fst (treeFromUrdfModel env) = false ->
  length (js_name joint_state) = length (js_position joint_state) ->
  Z.of_nat (length (js_name joint_state)) <= 2 ^ 31 ->
  exists w : W,
    RobotState_ctor zero limit_cast Frame_Identity env = (w, Ok tt)
    /\ this w = members_at_entry Frame_Identity (snd (initString env))
    /\ console w
       = (if getParam_robot_description env then [] else [ROS_ERROR_no_urdf])
         ++ (if fst (initString env) then [] else [ROS_ERROR_parse_urdf])
         ++ [ROS_ERROR_kdl_tree]
    /\ snd (InitKDLData zero Frame_Identity Frame_mul ChainFk_JntToCart
              TreeFk_JntToCart joint_state w)
       = Crash NullDeref
    /\ console (fst (InitKDLData zero Frame_Identity Frame_mul
                       ChainFk_JntToCart TreeFk_JntToCart joint_state w))
       = console w ++ unknown_entries [] 0 (js_name joint_state)
    /\ snd (GetTransforms zero Frame_Identity Frame_mul transformKDLToEigen
              ChainFk_JntToCart TreeFk_JntToCart joint_state current_tfs
              noisy w)
       = Crash NullDeref.
Proof.
  intros Htree Hnp Hlen.
  unfold RobotState_ctor, ctor_body. rewrite Htree. cbn [negb].
  set (w0 := {| this := members_at_entry Frame_Identity (snd (initString env));
                console := [] |}).
  assert (Hpre : forall (b : bool) (ev : Event) (k : M W unit) (w : W),
             bind (if b then ret tt else print ev) (fun _ => k) w
             = k (say (if b then [] else [ev]) w)).
  { intros [] ev k w; unfold bind, ret, print, modify; [now rewrite say_nil |].
    reflexivity. }
  rewrite !Hpre. unfold print, modify.
  eexists. split; [reflexivity |].
  split; [reflexivity |].
  split; [cbn [console say w0 app]; now rewrite <- app_assoc |].
  match goal with
  | |- snd (InitKDLData _ _ _ _ _ _ ?w) = _ /\ _ => set (wc := w)
  end.
  assert (Hinit : exists w' : W,
             InitKDLData zero Frame_Identity Frame_mul ChainFk_JntToCart
               TreeFk_JntToCart joint_state wc = (w', Crash NullDeref)
             /\ console w'
                = console wc ++ unknown_entries [] 0 (js_name joint_state)).
  { unfold InitKDLData.
    rewrite (bind_Ok _ _ _ _ _
               (GetInitialJoints_spec joint_state [] wc Hnp eq_refl
                  ltac:(simpl; lia) Hlen)).
    eexists. split; reflexivity. }
  destruct Hinit as (w' & Hinit & Hcon).
  rewrite Hinit. cbn [fst snd]. split; [reflexivity |]. split; [exact Hcon |].
  unfold GetTransforms, call, GetTransforms_body.
  unfold bind at 1. unfold bind at 1. now rewrite Hinit.
Qed.

(** *** Well-formedness through the calls, and the calls in sequence *)

Lemma well_formed_same (s s' : RState) :
  joint_map_ s' = joint_map_ s -> kin_tree_ s' = kin_tree_ s ->
  base_2_cam_ s' = base_2_cam_ s -> chain_solver_ s' = chain_solver_ s ->
  tree_solver_ s' = tree_solver_ s ->
  well_formed s -> well_formed s'.
Proof.
  intros Hjm Hk Hb Hc Ht [H1 H2 H3 H4 H5 H6].
  split; unfold num_joints in *; rewrite ?Hjm, ?Hk, ?Hb, ?Hc, ?Ht; assumption.
Qed.

(** X20. Being well-formed is an invariant of the object: whatever the
    outcome of a call of [InitKDLData], of [GetTransforms] or of
    [GetPartMeshPaths] on a well-formed object, the object is well-formed
    after it, since no member function writes the joint table, the tree, the
    chain or the solver pointers. *)
Theorem well_formed_is_invariant (joint_state : JointState double)
  (current_tfs : list Affine3d) (noisy : bool) (fuel : nat)
  (paths : list string) (w : W) :
  well_formed (this w) ->
  well_formed (this (fst (InitKDLData zero Frame_Identity Frame_mul
                            ChainFk_JntToCart TreeFk_JntToCart joint_state w)))
  /\ well_formed (this (fst (GetTransforms zero Frame_Identity Frame_mul
                               transformKDLToEigen ChainFk_JntToCart
                               TreeFk_JntToCart joint_state current_tfs noisy
                               w)))
  /\ well_formed (this (fst (GetPartMeshPaths fuel paths w))).
Proof.
  intros Hwf. split; [| split]; revert Hwf; apply well_formed_same.
  - apply (InitKDLData_keeps joint_map_); reflexivity.
  - apply (InitKDLData_keeps kin_tree_); reflexivity.
  - apply (InitKDLData_keeps base_2_cam_); reflexivity.
  - apply (InitKDLData_keeps chain_solver_); reflexivity.
  - apply (InitKDLData_keeps tree_solver_); reflexivity.
  - apply (GetTransforms_keeps joint_map_); reflexivity.
  - apply (GetTransforms_keeps kin_tree_); reflexivity.
  - apply (GetTransforms_keeps base_2_cam_); reflexivity.
  - apply (GetTransforms_keeps chain_solver_); reflexivity.
  - apply (GetTransforms_keeps tree_solver_); reflexivity.
  - apply (GetPartMeshPaths_keeps joint_map_); reflexivity.
  - apply (GetPartMeshPaths_keeps kin_tree_); reflexivity.
  - apply (GetPartMeshPaths_keeps base_2_cam_); reflexivity.
  - apply (GetPartMeshPaths_keeps chain_solver_); reflexivity.
  - apply (GetPartMeshPaths_keeps tree_solver_); reflexivity.
Qed.

Lemma ctor_urdf (env : Collaborators double) :
  urdf_ (this (fst (RobotState_ctor zero limit_cast Frame_Identity env)))
  = snd (initString env).
Proof.
  assert (H : preserves (keeps urdf_) (ctor_body (Frame := Frame) zero limit_cast env)).
  { unfold ctor_body. frame.
    apply (ctor_segment_keeps urdf_). reflexivity. }
  apply (H {| this := members_at_entry Frame_Identity (snd (initString env));
              console := [] |}).
Qed.

Lemma GetTransforms_run (joint_state : JointState double)
  (current_tfs : list Affine3d) (noisy : bool) (w : W) :
  well_formed (this w) ->
  length (js_name joint_state) = length (js_position joint_state) ->
  Z.of_nat (length (js_name joint_state)) <= 2 ^ 31 ->
  exists w' : W,
    GetTransforms zero Frame_Identity Frame_mul transformKDLToEigen
      ChainFk_JntToCart TreeFk_JntToCart joint_state current_tfs noisy w
    = (w', Ok current_tfs)
    /\ forall n,
         n ∈ segment_names (segment_map_ (this w)) ->
         n ∈ part_mesh_map_ (this w) ->
         frame_map_ (this w') !! n
         = Some (Frame_mul (cam_frame_ (this w'))
                   (snd (TreeFk_JntToCart (kin_tree_ (this w))
                           (jnt_array_ (this w')) Frame_Identity n))).
Proof.
  intros Hwf Hnp Hlen.
  pose proof (InitKDLData_spec joint_state w Hwf Hnp Hlen) as H1.
  cbv zeta in H1.
  match type of H1 with _ = (?w1, _) => set (w' := w1) in * end.
  assert (Hframe : forall n,
             n ∈ segment_names (segment_map_ (this w)) ->
             tracked (this w) n = true ->
             frame_map_ (this w') !! n
             = Some (Frame_mul (cam_frame_ (this w'))
                       (snd (TreeFk_JntToCart (kin_tree_ (this w))
                               (jnt_array_ (this w')) Frame_Identity n)))).
  { intros n Hn Htr. unfold w'.
    cbn [this frame_map_ cam_frame_ jnt_array_ set_frame_map_ set_cam_frame_
           set_jnt_array_].
    apply store_frames_lookup; [exact Hn |]. unfold link_frame_of.
    rewrite (tracked_same (this w) _ n) by reflexivity. rewrite Htr.
    reflexivity. }
  exists w'. split.
  - unfold GetTransforms, call, GetTransforms_body.
    assert (Hloop : (let! segs := member segment_map_ in
                     GetTransforms_loop Frame_Identity transformKDLToEigen segs
                       current_tfs) w'
                    = (w', Ok (current_tfs
                               ++ tracked_frames transformKDLToEigen (this w')
                                    (segment_names (segment_map_ (this w)))))).
    { unfold member at 1, gets at 1. unfold bind at 1.
      replace (segment_map_ (this w')) with (segment_map_ (this w))
        by reflexivity.
      apply GetTransforms_loop_spec. intros n Hn Htr.
      change (tracked (this w') n) with (tracked (this w) n) in Htr.
      rewrite (Hframe n Hn Htr). eauto. }
    unfold bind at 1.
    assert (Hseq : (InitKDLData zero Frame_Identity Frame_mul ChainFk_JntToCart
                      TreeFk_JntToCart joint_state ;;;
                    let! segs := member segment_map_ in
                    GetTransforms_loop Frame_Identity transformKDLToEigen segs
                      current_tfs) w
                   = (w', Ok (current_tfs
                              ++ tracked_frames transformKDLToEigen (this w')
                                   (segment_names (segment_map_ (this w)))))).
    { rewrite (bind_Ok _ _ _ _ _ H1). exact Hloop. }
    now rewrite Hseq.
  - intros n Hn Hin. apply Hframe; [exact Hn |]. now apply tracked_elem_of.
Qed.

(** X21. The calls in sequence.  On a valid topology whose chain only has
    movable joints of the tree and all of whose links descend from the root,
    the constructor, then [GetPartMeshPaths] on the constructed object, then
    [GetTransforms] with a paired joint state all complete; afterwards the
    object is well-formed and the frame map holds, for every segment whose
    name was recorded by the selection, the product of the camera frame and
    of the frame the tree solver left for that segment. *)
Theorem construction_selection_resolution_complete
  (env : Collaborators double) (fuel : nat) (joint_state : JointState double)
  (current_tfs : list Affine3d) (noisy : bool) (r : URDF.Link) :
  let u := snd (initString env) in
  let tree := snd (treeFromUrdfModel env) in
  valid_topology env ->
  (forall sg, sg ∈ KDL.segments (snd (getChain env)) ->
              KDL.movable sg = true ->
              KDL.getJointName (KDL.getJoint sg)
              ∈ snd <$> movable_joints (KDL.getSegments tree)) ->
  Z.of_nat (length (KDL.segments (snd (getChain env)))) < 2 ^ 31 ->
  URDF.getLink u (URDF.root u) = Some r ->
  (forall f, URDF.visual r = Some {| URDF.geometry := Some (URDF.MESH f) |} ->
             (4 <= String.length f)%nat /\ Z.of_nat (String.length f) < 2 ^ 64) ->
  (forall i, (i < length (URDF.links u))%nat ->
     exists k, (k < fuel)%nat /\ nth_parent u k (Some i) = URDF.root u
               /\ forall k', (k' < k)%nat ->
                    exists l', URDF.getLink u (nth_parent u k' (Some i)) = Some l'
                               /\ URDF.name l' <> URDF.name r) ->
  length (js_name joint_state) = length (js_position joint_state) ->
  Z.of_nat (length (js_name joint_state)) <= 2 ^ 31 ->
  exists (w1 w2 w3 : W) (paths : list string),
    RobotState_ctor zero limit_cast Frame_Identity env = (w1, Ok tt)
    /\ GetPartMeshPaths fuel [] w1 = (w2, Ok paths)
    /\ GetTransforms zero Frame_Identity Frame_mul transformKDLToEigen
         ChainFk_JntToCart TreeFk_JntToCart joint_state current_tfs noisy w2
       = (w3, Ok current_tfs)
    /\ well_formed (this w3)
    /\ forall n,
         n ∈ segment_names (KDL.getSegments tree) ->
         n ∈ part_mesh_map_ (this w2) ->
         frame_map_ (this w3) !! n
         = Some (Frame_mul (cam_frame_ (this w3))
                   (snd (TreeFk_JntToCart tree (jnt_array_ (this w3))
                           Frame_Identity n))).
Proof.
  intros u tree Hv Hchain Hsize Hr Hfile Hdesc Hnp Hlen.
  destruct (ctor_spec env Hv)
    as (w1 & Hctor & _ & Hk & Hsm & Hb & Hc & Ht & _).
  destruct (ctor_joint_map env w1 Hv Hctor) as (Hjlen & _ & Hlook & _).
  assert (Hwf1 : well_formed (this w1)).
  { split.
    - unfold num_joints. now rewrite Hk.
    - rewrite Hjlen. apply (vt_size env Hv).
    - now rewrite Hb.
    - rewrite Hb. intros sg Hsg Hmov.
      pose proof (Hchain sg Hsg Hmov) as Hin.
      apply list_elem_of_fmap in Hin as ([q nm] & -> & Hin).
      eapply list_elem_of_lookup_2. apply (Hlook q nm Hin).
    - now rewrite Hc, Hb.
    - now rewrite Ht, Hk. }
  assert (Hu1 : urdf_ (this w1) = u).
  { pose proof (ctor_urdf env) as H. now rewrite Hctor in H. }
  destruct (GetPartMeshPaths_rooted_run fuel [] w1 u r Hu1 Hr Hfile Hdesc)
    as (w2 & Hsel & _ & _).
  assert (Hw2 : w2 = fst (GetPartMeshPaths fuel [] w1)) by (now rewrite Hsel).
  assert (Hwf2 : well_formed (this w2)).
  { revert Hwf1. rewrite Hw2. apply well_formed_same.
    - apply (GetPartMeshPaths_keeps joint_map_); reflexivity.
    - apply (GetPartMeshPaths_keeps kin_tree_); reflexivity.
    - apply (GetPartMeshPaths_keeps base_2_cam_); reflexivity.
    - apply (GetPartMeshPaths_keeps chain_solver_); reflexivity.
    - apply (GetPartMeshPaths_keeps tree_solver_); reflexivity. }
  assert (Hk2 : kin_tree_ (this w2) = tree).
  { transitivity (kin_tree_ (this w1)); [| exact Hk].
    rewrite Hw2. apply (GetPartMeshPaths_keeps kin_tree_); reflexivity. }
  assert (Hsm2 : segment_map_ (this w2) = KDL.getSegments tree).
  { transitivity (segment_map_ (this w1)); [| exact Hsm].
    rewrite Hw2. apply (GetPartMeshPaths_keeps segment_map_); reflexivity. }
  destruct (GetTransforms_run joint_state current_tfs noisy w2 Hwf2 Hnp Hlen)
    as (w3 & Hres & Hframes).
  assert (Hw3 : w3 = fst (GetTransforms zero Frame_Identity Frame_mul
                            transformKDLToEigen ChainFk_JntToCart
                            TreeFk_JntToCart joint_state current_tfs noisy w2))
    by (now rewrite Hres).
  exists w1, w2, w3. eexists. split; [exact Hctor |]. split; [exact Hsel |].
  split; [exact Hres |]. split.
  - revert Hwf2. rewrite Hw3. apply well_formed_same.
    + apply (GetTransforms_keeps joint_map_); reflexivity.
    + apply (GetTransforms_keeps kin_tree_); reflexivity.
    + apply (GetTransforms_keeps base_2_cam_); reflexivity.
    + apply (GetTransforms_keeps chain_solver_); reflexivity.
    + apply (GetTransforms_keeps tree_solver_); reflexivity.
  - intros n Hn Hin. rewrite <- Hk2. apply Hframes; [| exact Hin].
    now rewrite Hsm2.
Qed.

End Resolution.

(** * The properties on the concrete robot *)

Import Scenario.

Lemma robot_movable_joints :
  movable_joints (KDL.getSegments robot_tree) = [(1%nat, "lift"); (0%nat, "slide")].
Proof. reflexivity. Qed.

Lemma collaborators_valid : valid_topology collaborators.
Proof.
  split; cbn [treeFromUrdfModel initString collaborators fst snd];
    rewrite ?robot_movable_joints.
  - reflexivity.
  - apply perm_swap.
  - apply NoDup_cons. split; [| apply NoDup_singleton].
    intros H. apply list_elem_of_singleton in H. discriminate.
  - intros q nm H.
    apply elem_of_cons in H as [H | H];
      [| apply list_elem_of_singleton in H];
      injection H as -> ->; eexists; (split; [vm_compute; reflexivity |]);
      cbn; repeat split; try discriminate; eauto.
  - vm_compute. discriminate.
Qed.

(** The joint index of the robot: the camera slide has index [0], the arm
    lift index [1], the rigid mount none. *)
Lemma joint_index_bijective_and_stable_witness :
  exists w : RobotWorld,
    RobotState_ctor 0 as_double Translation.Identity collaborators = (w, Ok tt)
    /\ length (joint_map_ (this w)) = 2%nat
    /\ 2%nat = length (filter (fun e => KDL.movable (KDL.segment (snd e)) = true)
                        (KDL.getSegments robot_tree))
    /\ (forall q nm, (q, nm) ∈ movable_joints (KDL.getSegments robot_tree) ->
          joint_map_ (this w) !! q = Some nm
          /\ GetJointIndex (this w) nm = Z.of_nat q)
    /\ (forall i, (i < 2)%nat ->
          exists nm, joint_map_ (this w) !! i = Some nm
                     /\ GetJointIndex (this w) nm = Z.of_nat i)
    /\ (forall (w1 : RobotWorld) joint_state tfs noisy fuel paths,
          joint_map_ (this (fst (robot_InitKDLData joint_state w1)))
          = joint_map_ (this w1)
          /\ joint_map_ (this (fst (robot_GetTransforms joint_state tfs noisy w1)))
             = joint_map_ (this w1)
          /\ joint_map_ (this (fst (GetPartMeshPaths fuel paths w1)))
             = joint_map_ (this w1)).
Proof.
  exact (joint_index_bijective_and_stable 0 as_double Translation.Identity
           Translation.mul (fun f => f) Sliding.ChainFk_JntToCart
           Sliding.TreeFk_JntToCart collaborators collaborators_valid).
Defined.

(** The scenario of the design document, on the robot, whose joint table is
    [slide], [lift]: an update with the unknown name [wrist] between two
    known ones completes and reports one error, for [wrist] at input position
    [1]; the two known entries are in the vector, at the indices of their
    names. *)
Lemma unknown_joint_reported_and_skipped_witness :
  exists (w' : RobotWorld) (res : list (cell Z)),
    GetInitialJoints update_lift_wrist_slide [] selected = (w', Ok res)
    /\ this w' = this selected
    /\ console w' = console selected ++ [ROS_ERROR_no_joint_index 1 "wrist"]
    /\ length res = 2%nat
    /\ res !! 0%nat = Some (Val 2)
    /\ res !! 1%nat = Some (Val 3).
Proof.
  destruct (unknown_joint_reported_and_skipped update_lift_wrist_slide []
              selected)
    as (w' & res & reports & Hcall & Hthis & Hcon & Hrep & _ & _ & _ & Hlen
        & Hval & _).
  - reflexivity.
  - reflexivity.
  - vm_compute. discriminate.
  - vm_compute. discriminate.
  - exists w', res. split; [exact Hcall |]. split; [exact Hthis |].
    split; [rewrite Hcon, Hrep; reflexivity |]. split; [exact Hlen |].
    split.
    + apply (Hval 2%nat "slide" 2 0%nat); try reflexivity.
      * split; [reflexivity | intros k' Hk'; lia].
      * intros [| [| [| j]]] Hj; try lia; discriminate.
    + apply (Hval 0%nat "lift" 3 1%nat); try reflexivity.
      * split; [reflexivity |].
        intros k' Hk'. assert (k' = 0%nat) as -> by lia. discriminate.
      * intros [| [| [| j]]] Hj; try lia; discriminate.
Defined.

(** The scenario of the design document: one unknown name among the entries
    of an update; the call succeeds, reports one error, for [wrist] at input
    position [1], and the two other entries are in the vector. *)
Example unknown_joint_robustness :
  GetInitialJoints update_lift_wrist_slide [] selected
  = (say [ROS_ERROR_no_joint_index 1 "wrist"] selected, Ok [Val 2; Val 3]).
Proof. vm_compute. reflexivity. Qed.

(** The update [{slide: 2}] on the robot, whose joint table is [slide],
    [lift]: the cell of [slide] holds [2], the cell of [lift] is
    indeterminate. *)
Lemma update_replaces_dense_state_witness :
  let after := jnt_array_ (this (fst (robot_InitKDLData update_slide selected))) in
  jnt_array_ (this constructed) = []
  /\ length after = 2%nat
  /\ after !! 0%nat = Some (Val 2)
  /\ after !! 1%nat = Some Indeterminate.
Proof.
  destruct (update_replaces_dense_state 0 as_double Translation.Identity
              Translation.mul Sliding.ChainFk_JntToCart Sliding.TreeFk_JntToCart
              collaborators update_slide selected)
    as (Hnew & Hlen & Hval & Hind).
  - exact collaborators_valid.
  - reflexivity.
  - reflexivity.
  - vm_compute. discriminate.
  - vm_compute. discriminate.
  - split; [exact Hnew |]. split; [exact Hlen |]. split.
    + apply (Hval 0%nat "slide" 2 0%nat); try reflexivity.
      * split; [reflexivity | intros k' Hk'; lia].
      * intros [| j] Hj; [lia | discriminate].
    + apply (Hind 1%nat "lift"); [reflexivity |].
      intros H. apply list_elem_of_singleton in H. discriminate.
Defined.

(** The scenario of the design document on the robot: after the update
    [{lift: 3}] the dense vector holds [3] for [lift]; the update
    [{slide: 2}] that follows leaves a vector in which the cell of [lift] is
    indeterminate, where the single update [{lift: 3, slide: 2}] gives [2]
    and [3]. *)
Example sparse_updates_on_the_robot :
  let one_by_one :=
    fst (robot_InitKDLData update_slide (fst (robot_InitKDLData update_lift selected))) in
  let at_once := fst (robot_InitKDLData update_lift_slide selected) in
  jnt_array_ (this constructed) = []
  /\ jnt_array_ (this (fst (robot_InitKDLData update_lift selected)))
     = [Indeterminate; Val 3]
  /\ jnt_array_ (this one_by_one) = [Val 2; Indeterminate]
  /\ jnt_array_ (this at_once) = [Val 2; Val 3].
Proof.
  vm_compute. repeat split.
Qed.

Lemma selected_well_formed : well_formed (this selected).
Proof.
  split.
  - reflexivity.
  - vm_compute. discriminate.
  - vm_compute. reflexivity.
  - intros sg Hsg _. change (KDL.segments (base_2_cam_ (this selected)))
      with [seg "base" "slide" KDL.TransX] in Hsg.
    apply list_elem_of_singleton in Hsg as ->.
    change (joint_map_ (this selected)) with ["slide"; "lift"]. left.
  - reflexivity.
  - reflexivity.
Qed.

Lemma resolved_well_formed : well_formed (this resolved).
Proof.
  split.
  - reflexivity.
  - vm_compute. discriminate.
  - vm_compute. reflexivity.
  - intros sg Hsg _. change (KDL.segments (base_2_cam_ (this resolved)))
      with [seg "base" "slide" KDL.TransX] in Hsg.
    apply list_elem_of_singleton in Hsg as ->.
    change (joint_map_ (this resolved)) with ["slide"; "lift"]. left.
  - reflexivity.
  - reflexivity.
Qed.

(** The solvers of the instances report an error in the cases in which
    KDL's solvers do. *)
Lemma Sliding_chain_solver_errors (c : KDL.Chain) (q : list (cell Z))
  (p : Translation.frame) :
  fst (Sliding.ChainFk_JntToCart c q p) < 0 ->
  length q <> KDL.getChainNrOfJoints c.
Proof.
  unfold Sliding.ChainFk_JntToCart.
  destruct (decide (length q = KDL.getChainNrOfJoints c)); [simpl; lia | auto].
Qed.





(** The camera transform on the resolved robot: the chain has the one joint
    [slide], whose index is [0]. *)
Lemma chain_extraction_in_range_and_without_error_witness :
  exists chain_jnt_array : list (cell Z),
    SetCameraTransform 0 Sliding.ChainFk_JntToCart resolved
    = ({| this := set_cam_frame_
                    (snd (Sliding.ChainFk_JntToCart camera_chain chain_jnt_array
                            (cam_frame_ (this resolved))))
                    (this resolved);
          console := console resolved |},
       Ok tt)
    /\ chain_jnt_array = [Val 2].
Proof.
  destruct (chain_extraction_in_range_and_without_error 0
              Sliding.ChainFk_JntToCart resolved)
    as (arr & Hcall & _ & Hlen & Hcells & _).
  - exact resolved_well_formed.
  - reflexivity.
  - exact Sliding_chain_solver_errors.
  - exists arr. split; [exact Hcall |].
    destruct (Hcells 0%nat (seg "base" "slide" KDL.TransX) eq_refl)
      as (k & [Hk _] & _ & Hcell).
    assert (k = 0%nat) as ->.
    { destruct k as [| [| k]]; [reflexivity | discriminate | discriminate]. }
    change (KDL.getChainNrOfJoints (base_2_cam_ (this resolved))) with 1%nat
      in Hlen.
    change (jnt_array_ (this resolved)) with [@Val Z 2; Val 3] in Hcell.
    destruct arr as [| a [| b arr]]; try discriminate.
    injection Hcell as ->. reflexivity.
Defined.

(** C5, counterexample.  With the sensor at the root the chain has no
    segment.  A resolution call then completes: the chain solver is called
    with an empty array, reports no error and leaves the identity as camera
    frame; nothing is written to the console, and the frame of the tracked
    segment [base] is its pose in the tree. *)
Lemma degenerate_chain_is_solved :
  KDL.segments (base_2_cam_ (this selected_at_root)) = []
  /\ Sliding.ChainFk_JntToCart (base_2_cam_ (this selected_at_root)) []
       (cam_frame_ (this selected_at_root))
     = (0, Translation.Identity)
  /\ snd (robot_InitKDLData update_lift_slide selected_at_root) = Ok tt
  /\ console (fst (robot_InitKDLData update_lift_slide selected_at_root))
     = console selected_at_root
  /\ cam_frame_ (this (fst (robot_InitKDLData update_lift_slide selected_at_root)))
     = Translation.Identity
  /\ frame_map_ (this (fst (robot_InitKDLData update_lift_slide selected_at_root)))
       !! "base"
     = Some (0, 0, 0).
Proof.
  vm_compute. repeat split.
Qed.

(** Selection for the arm of the robot, whose own mesh is [arm.stl] and
    whose parent is the root. *)
Lemma selection_walks_to_root_and_records_its_mesh_witness :
  let base := {| URDF.name := "base"; URDF.parent_link := None;
                 URDF.visual := mesh "base.dae" |} in
  exists w' : RobotWorld,
    GetPartMeshPaths_link 5 "base" 0 [] constructed
    = (w', Ok ([] ++ match mesh_file base with Some f => [f] | None => [] end))
    /\ part_mesh_map_ (this w')
       = part_mesh_map_ (this constructed)
         ++ match mesh_file base with Some _ => [URDF.name base] | None => [] end
    /\ urdf_ (this w') = urdf_ (this constructed).
Proof.
  apply (selection_walks_to_root_and_records_its_mesh 5 "base" 0 []
           constructed 1).
  - lia.
  - reflexivity.
  - reflexivity.
  - intros k' Hk'. assert (k' = 0%nat) as -> by lia.
    eexists. split; [reflexivity |]. discriminate.
  - intros f Hf. injection Hf as <-. split; [vm_compute; lia |].
    vm_compute. reflexivity.
Defined.

(** C6 on the robot.  For the arm, which bears the mesh [arm.stl], the walk
    of the program does not stop at the arm but goes on to the root, and the
    key recorded is [base]; for the four links the program records four times
    [base], where the selection worded in the design document records [arm],
    [base], [base], [arm]. *)
Example walk_does_not_stop_at_mesh_bearing_link :
  walk_to_root 5 robot "base" (Some 0%nat) = Ok (Some 1%nat)
  /\ (URDF.name <$> spec_walk 5 robot "base" (Some 0%nat)) = Some "arm"
  /\ snd (GetPartMeshPaths 5 [] constructed)
     = Ok ["base.dae"; "base.dae"; "base.dae"; "base.dae"]
  /\ part_mesh_map_ (this selected) = ["base"; "base"; "base"; "base"]
  /\ spec_LinkSet robot "base" = ["arm"; "base"; "base"; "arm"]
  /\ part_mesh_map_ (this selected) <> spec_LinkSet robot "base".
Proof.
  vm_compute. repeat split; discriminate.
Qed.

(** *** Inputs on which the program departs from its documentation *)

(** The link [left] of the cyclic description: its ancestors are [left] and
    [right], in turn, and none is named [world]. *)
Lemma cyclic_left_never_reaches_root :
  ~ (exists k l, URDF.getLink cyclic (nth_parent cyclic k (Some 0%nat)) = Some l
                 /\ URDF.name l = "world").
Proof.
  assert (H : forall k, nth_parent cyclic k (Some 0%nat) = Some 0%nat
                        \/ nth_parent cyclic k (Some 0%nat) = Some 1%nat).
  { assert (Hboth : forall k,
               (nth_parent cyclic k (Some 0%nat) = Some 0%nat
                \/ nth_parent cyclic k (Some 0%nat) = Some 1%nat)
               /\ (nth_parent cyclic k (Some 1%nat) = Some 0%nat
                   \/ nth_parent cyclic k (Some 1%nat) = Some 1%nat)).
    { induction k as [| k [IH0 IH1]]; [split; [left | right]; reflexivity |].
      split.
      - change (nth_parent cyclic (S k) (Some 0%nat))
          with (nth_parent cyclic k (Some 1%nat)). exact IH1.
      - change (nth_parent cyclic (S k) (Some 1%nat))
          with (nth_parent cyclic k (Some 0%nat)). exact IH0. }
    intros k. apply Hboth. }
  intros (k & l & Hl & Hn).
  destruct (H k) as [Hk | Hk]; rewrite Hk in Hl; simpl in Hl;
    injection Hl as <-; discriminate.
Qed.

(** The selection on the cyclic description, with fuel for a hundred
    iterations of each [while] loop. *)
Lemma disconnected_link_is_not_excluded_witness :
  ~ (exists paths',
       snd (GetPartMeshPaths 100 [] (world_of cyclic)) = Ok paths').
Proof.
  apply (disconnected_link_is_not_excluded 100 [] (world_of cyclic)
           {| URDF.name := "world"; URDF.parent_link := None;
              URDF.visual := None |} 0).
  - reflexivity.
  - vm_compute. lia.
  - exact cyclic_left_never_reaches_root.
Defined.

Lemma cyclic_walk_never_ends (fuel : nat) :
  walk_to_root fuel cyclic "world" (Some 0%nat) = OutOfFuel
  /\ walk_to_root fuel cyclic "world" (Some 1%nat) = OutOfFuel.
Proof.
  induction fuel as [| fuel [IH0 IH1]]; [split; reflexivity |].
  split; cbn -[walk_to_root]; cbn [walk_to_root].
  - change (walk_to_root (S fuel) cyclic "world" (Some 0%nat))
      with (walk_to_root fuel cyclic "world" (Some 1%nat)). exact IH1.
  - change (walk_to_root (S fuel) cyclic "world" (Some 1%nat))
      with (walk_to_root fuel cyclic "world" (Some 0%nat)). exact IH0.
Qed.

(** What happens on the two descriptions: on the cyclic one the first
    [while] loop uses up any fuel; on the one with a parentless link the walk
    dereferences the null parent. *)
Example disconnected_links_evaluated (fuel : nat) :
  snd (GetPartMeshPaths fuel [] (world_of cyclic)) = OutOfFuel
  /\ snd (GetPartMeshPaths (S (S fuel)) [] (world_of orphaned)) = Crash NullDeref.
Proof.
  split.
  - unfold GetPartMeshPaths, call, GetPartMeshPaths_body.
    unfold member at 1, gets at 1. unfold bind at 1. unfold bind at 1.
    cbn [this urdf_ world_of members_at_entry].
    change (URDF.getLink cyclic (URDF.root cyclic))
      with (Some {| URDF.name := "world"; URDF.parent_link := None;
                    URDF.visual := None |}).
    unfold deref at 1, ret at 1. unfold bind at 1.
    cbn [URDF.name]. change (length (URDF.links cyclic)) with 3%nat.
    cbn [seq GetPartMeshPaths_loop]. unfold bind at 1.
    unfold GetPartMeshPaths_link at 1.
    unfold member at 1, gets at 1. unfold bind at 1. unfold bind at 1.
    cbn [this urdf_ world_of members_at_entry]. unfold lift at 1.
    destruct (cyclic_walk_never_ends fuel) as [-> _]. reflexivity.
  - unfold GetPartMeshPaths, call, GetPartMeshPaths_body.
    unfold member at 1, gets at 1. unfold bind at 1. unfold bind at 1.
    cbn [this urdf_ world_of members_at_entry].
    change (URDF.getLink orphaned (URDF.root orphaned))
      with (Some {| URDF.name := "world"; URDF.parent_link := None;
                    URDF.visual := None |}).
    unfold deref at 1, ret at 1. unfold bind at 1.
    cbn [URDF.name]. change (length (URDF.links orphaned)) with 2%nat.
    cbn [seq GetPartMeshPaths_loop]. unfold bind at 1.
    unfold GetPartMeshPaths_link at 1.
    unfold member at 1, gets at 1. unfold bind at 1. unfold bind at 1.
    cbn [this urdf_ world_of members_at_entry]. unfold lift at 1.
    reflexivity.
Qed.

(** C9.  On the robot the mesh-path list has four entries; the vector built
    inside [GetTransforms] has one entry, the frame of the segment [base], and
    the vector of the caller has none after the call. *)
Theorem transforms_are_not_delivered_aligned :
  snd (GetPartMeshPaths 5 [] constructed)
  = Ok ["base.dae"; "base.dae"; "base.dae"; "base.dae"]
  /\ snd (GetTransforms_body 0 Translation.Identity Translation.mul (fun f => f)
            Sliding.ChainFk_JntToCart Sliding.TreeFk_JntToCart
            update_lift_slide false [] selected)
     = Ok [(-2, 0, 0)]
  /\ snd (robot_GetTransforms update_lift_slide [] false selected) = Ok [].
Proof.
  vm_compute. repeat split; reflexivity.
Qed.

(** Selection on the robot, all of whose links descend from [base]: it
    returns, with the mesh file and the name of the root once per link. *)
Lemma GetPartMeshPaths_rooted_witness :
  let base := {| URDF.name := "base"; URDF.parent_link := None;
                 URDF.visual := mesh "base.dae" |} in
  exists w' : RobotWorld,
    GetPartMeshPaths 5 [] constructed
    = (w', Ok ([] ++ match mesh_file base with
                     | Some f => replicate (length (URDF.links robot)) f
                     | None => []
                     end))
    /\ part_mesh_map_ (this w')
       = part_mesh_map_ (this constructed)
         ++ match mesh_file base with
            | Some _ => replicate (length (URDF.links robot)) (URDF.name base)
            | None => []
            end.
Proof.
  apply (GetPartMeshPaths_rooted 5 [] constructed).
  - reflexivity.
  - intros f Hf. injection Hf as <-. split; [vm_compute; lia |].
    vm_compute. reflexivity.
  - intros i Hi. change (length (URDF.links (urdf_ (this constructed))))
      with 4%nat in Hi.
    assert (Hcase : i = 0%nat \/ i = 1%nat \/ i = 2%nat \/ i = 3%nat) by lia.
    destruct Hcase as [-> | [-> | [-> | ->]]].
    + exists 1%nat. split; [lia |]. split; [reflexivity |].
      intros k' Hk'. assert (k' = 0%nat) as -> by lia.
      eexists. split; [reflexivity | discriminate].
    + exists 0%nat. split; [lia |]. split; [reflexivity |].
      intros k' Hk'. lia.
    + exists 1%nat. split; [lia |]. split; [reflexivity |].
      intros k' Hk'. assert (k' = 0%nat) as -> by lia.
      eexists. split; [reflexivity | discriminate].
    + exists 2%nat. split; [lia |]. split; [reflexivity |].
      intros k' Hk'. assert (Hk : k' = 0%nat \/ k' = 1%nat) by lia.
      destruct Hk as [-> | ->]; eexists; (split; [reflexivity | discriminate]).
Defined.

(** The constructor on the robot. *)
Lemma ctor_well_formed_witness :
  exists w : RobotWorld,
    RobotState_ctor 0 as_double Translation.Identity collaborators = (w, Ok tt)
    /\ well_formed (this w).
Proof.
  apply (ctor_well_formed 0 as_double Translation.Identity collaborators).
  - exact collaborators_valid.
  - intros sg Hsg _.
    change (KDL.segments (snd (getChain collaborators)))
      with [seg "base" "slide" KDL.TransX] in Hsg.
    apply list_elem_of_singleton in Hsg as ->.
    cbn [treeFromUrdfModel collaborators snd]. rewrite robot_movable_joints.
    right. left.
  - vm_compute. reflexivity.
Defined.

(** *** The further properties on the robot *)

Lemma robot_root_file_size (f : string) :
  URDF.visual {| URDF.name := "base"; URDF.parent_link := None;
                 URDF.visual := mesh "base.dae" |}
  = Some {| URDF.geometry := Some (URDF.MESH f) |} ->
  (4 <= String.length f)%nat /\ Z.of_nat (String.length f) < 2 ^ 64.
Proof.
  intros Hf. injection Hf as <-. split; [vm_compute; lia |].
  vm_compute. reflexivity.
Qed.

Lemma robot_links_descend (i : nat) :
  (i < length (URDF.links robot))%nat ->
  exists k, (k < 5)%nat /\ nth_parent robot k (Some i) = URDF.root robot
            /\ forall k', (k' < k)%nat ->
                 exists l', URDF.getLink robot (nth_parent robot k' (Some i))
                            = Some l'
                            /\ URDF.name l' <> "base".
Proof.
  intros Hi. change (length (URDF.links robot)) with 4%nat in Hi.
  assert (Hcase : i = 0%nat \/ i = 1%nat \/ i = 2%nat \/ i = 3%nat) by lia.
  destruct Hcase as [-> | [-> | [-> | ->]]].
  - exists 1%nat. split; [lia |]. split; [reflexivity |].
    intros k' Hk'. assert (k' = 0%nat) as -> by lia.
    eexists. split; [reflexivity | discriminate].
  - exists 0%nat. split; [lia |]. split; [reflexivity |].
    intros k' Hk'. lia.
  - exists 1%nat. split; [lia |]. split; [reflexivity |].
    intros k' Hk'. assert (k' = 0%nat) as -> by lia.
    eexists. split; [reflexivity | discriminate].
  - exists 2%nat. split; [lia |]. split; [reflexivity |].
    intros k' Hk'. assert (Hk : k' = 0%nat \/ k' = 1%nat) by lia.
    destruct Hk as [-> | ->]; eexists; (split; [reflexivity | discriminate]).
Qed.

Lemma resolved_chain_joints (sg : KDL.Segment) :
  sg ∈ KDL.segments (base_2_cam_ (this resolved)) ->
  KDL.movable sg = true ->
  KDL.getJointName (KDL.getJoint sg) ∈ joint_map_ (this resolved).
Proof.
  intros Hsg _. change (KDL.segments (base_2_cam_ (this resolved)))
    with [seg "base" "slide" KDL.TransX] in Hsg.
  apply list_elem_of_singleton in Hsg as ->.
  change (joint_map_ (this resolved)) with ["slide"; "lift"]. left.
Qed.

(** The index of [lift] on the robot. *)
Lemma GetJointIndex_first_occurrence_witness :
  (GetJointIndex (this selected) "lift" = -1
   <-> "lift" ∉ joint_map_ (this selected))
  /\ ("lift" ∈ joint_map_ (this selected) ->
      exists i : nat,
        GetJointIndex (this selected) "lift" = Z.of_nat i
        /\ joint_map_ (this selected) !! i = Some "lift"
        /\ forall j, (j < i)%nat -> joint_map_ (this selected) !! j <> Some "lift").
Proof.
  apply (GetJointIndex_first_occurrence (this selected) "lift").
  vm_compute. discriminate.
Defined.

(** An update with the names [lift], [wrist], [slide] and the one position
    [3]: only [lift] is handled, and [wrist] is not reported. *)
Lemma GetInitialJoints_surplus_names_ignored_witness :
  GetInitialJoints update_surplus_names [] selected
  = (say (unknown_entries (joint_map_ (this selected)) 0
            (take (length (js_position update_surplus_names))
               (js_name update_surplus_names))) selected,
     Ok (apply_entries (joint_map_ (this selected))
           (zip (js_name update_surplus_names)
              (js_position update_surplus_names))
           (Eigen_resize [] (num_joints (this selected))))).
Proof.
  apply (GetInitialJoints_surplus_names_ignored update_surplus_names []
           selected).
  - simpl. lia.
  - reflexivity.
  - vm_compute. discriminate.
  - vm_compute. discriminate.
Defined.

Example surplus_names_on_the_robot :
  GetInitialJoints update_surplus_names [] selected
  = (selected, Ok [Indeterminate; Val 3]).
Proof. vm_compute. reflexivity. Qed.

(** An update with the name [lift] and the positions [3] and [2]. *)
Lemma GetInitialJoints_missing_name_is_read_out_of_range_witness :
  GetInitialJoints update_surplus_positions [] selected
  = (say (unknown_entries (joint_map_ (this selected)) 0
            (js_name update_surplus_positions)) selected,
     Crash (IndexOutOfRange
              (Z.of_nat (length (js_name update_surplus_positions))))).
Proof.
  apply (GetInitialJoints_missing_name_is_read_out_of_range
           update_surplus_positions [] selected).
  - simpl. lia.
  - reflexivity.
  - vm_compute. discriminate.
  - vm_compute. discriminate.
Defined.

(** The update [{lift: 3}] into the vectors [[7; 8]] and [[7]] of a caller:
    the cell of [slide], at index [0], keeps [7] in the first and is
    indeterminate in the second. *)
Lemma GetInitialJoints_cells_not_named_witness :
  exists (w' : RobotWorld) (res : list (cell Z)),
    GetInitialJoints update_lift [Val 7; Val 8] selected = (w', Ok res)
    /\ (length [Val 7; Val 8] = num_joints (this selected) ->
        res !! 0%nat = [Val 7; Val 8] !! 0%nat)
    /\ (length [Val 7; Val 8] <> num_joints (this selected) ->
        res !! 0%nat = Some Indeterminate).
Proof.
  apply (GetInitialJoints_cells_not_named update_lift [Val 7; Val 8] selected 0).
  - reflexivity.
  - reflexivity.
  - vm_compute. discriminate.
  - vm_compute. discriminate.
  - vm_compute. lia.
  - intros nm Hnm. change (js_name update_lift) with ["lift"] in Hnm.
    apply list_elem_of_singleton in Hnm as ->. vm_compute. discriminate.
Defined.

Example caller_vector_on_the_robot :
  snd (GetInitialJoints update_lift [Val 7; Val 8] selected)
  = Ok [Val 7; Val 3]
  /\ snd (GetInitialJoints update_lift [Val 7] selected)
     = Ok [Indeterminate; Val 3].
Proof. vm_compute. split; reflexivity. Qed.

(** The camera transform on the resolved robot: the chain has the one
    joint [slide]. *)
Lemma SetCameraTransform_solver_input_witness :
  exists chain_jnt_array : list (cell Z),
    SetCameraTransform 0 Sliding.ChainFk_JntToCart resolved
    = ({| this := set_cam_frame_
                    (snd (Sliding.ChainFk_JntToCart camera_chain chain_jnt_array
                            (cam_frame_ (this resolved))))
                    (this resolved);
          console := console resolved
                     ++ (if fst (Sliding.ChainFk_JntToCart camera_chain
                                   chain_jnt_array (cam_frame_ (this resolved)))
                            <? 0
                         then [ROS_ERROR_camera_transform] else []) |},
       Ok tt)
    /\ length chain_jnt_array = KDL.getChainNrOfJoints (base_2_cam_ (this resolved))
    /\ forall j sg,
         filter (fun s => KDL.movable s = true)
           (KDL.segments (base_2_cam_ (this resolved))) !! j = Some sg ->
         chain_jnt_array !! j
         = jnt_array_ (this resolved)
             !! Z.to_nat (GetJointIndex (this resolved)
                            (KDL.getJointName (KDL.getJoint sg))).
Proof.
  apply (SetCameraTransform_solver_input 0 Sliding.ChainFk_JntToCart resolved
           camera_chain).
  - vm_compute. reflexivity.
  - vm_compute. discriminate.
  - exact resolved_chain_joints.
  - reflexivity.
  - reflexivity.
Defined.

(** The link transforms of the robot before any link has been selected. *)
Lemma ComputeLinkTransforms_nothing_tracked_witness :
  ComputeLinkTransforms Translation.Identity Translation.mul
    Sliding.TreeFk_JntToCart constructed
  = (constructed, Ok tt).
Proof.
  apply (ComputeLinkTransforms_nothing_tracked Translation.Identity
           Translation.mul Sliding.TreeFk_JntToCart constructed).
  intros n _. change (part_mesh_map_ (this constructed)) with (@nil string).
  apply not_elem_of_nil.
Defined.

(** The entry of [base] through a further resolution call. *)
Lemma frame_map_never_loses_an_entry_witness :
  is_Some (frame_map_ (this (fst (robot_InitKDLData update_lift resolved)))
           !! "base")
  /\ is_Some (frame_map_
                (this (fst (robot_GetTransforms update_lift [] false resolved)))
              !! "base").
Proof.
  apply (frame_map_never_loses_an_entry 0 Translation.Identity Translation.mul
           (fun f => f) Sliding.ChainFk_JntToCart Sliding.TreeFk_JntToCart
           update_lift [] false resolved "base").
  exists (-2, 0, 0). vm_compute. reflexivity.
Defined.

Lemma Sliding_chain_solver_idempotent (c : KDL.Chain) (q : list (cell Z))
  (p : Translation.frame) :
  snd (Sliding.ChainFk_JntToCart c q (snd (Sliding.ChainFk_JntToCart c q p)))
  = snd (Sliding.ChainFk_JntToCart c q p).
Proof.
  unfold Sliding.ChainFk_JntToCart.
  destruct (decide (length q = KDL.getChainNrOfJoints c)); reflexivity.
Qed.

(** Two resolution calls on the robot with the update [{lift: 3, slide: 2}],
    which names both joints. *)
Lemma InitKDLData_idempotent_witness :
  exists w1 w2 : RobotWorld,
    robot_InitKDLData update_lift_slide selected = (w1, Ok tt)
    /\ (forall k c, jnt_array_ (this w1) !! k = Some c -> exists x, c = Val x)
    /\ robot_InitKDLData update_lift_slide w1 = (w2, Ok tt)
    /\ this w2 = this w1.
Proof.
  apply (InitKDLData_idempotent 0 Translation.Identity Translation.mul
           Sliding.ChainFk_JntToCart Sliding.TreeFk_JntToCart
           update_lift_slide selected).
  - exact selected_well_formed.
  - reflexivity.
  - vm_compute. discriminate.
  - change (joint_map_ (this selected)) with ["slide"; "lift"].
    apply NoDup_cons. split; [| apply NoDup_singleton].
    intros H. apply list_elem_of_singleton in H. discriminate.
  - change (joint_map_ (this selected)) with ["slide"; "lift"].
    intros nm H. apply elem_of_cons in H as [-> | H].
    + right. left.
    + apply list_elem_of_singleton in H as ->. left.
  - exact Sliding_chain_solver_idempotent.
Defined.

(** [GetTransforms] on the robot with the update [{lift: 3, slide: 2}]. *)
Lemma GetTransforms_builds_tracked_frames_witness :
  exists w' : RobotWorld,
    robot_InitKDLData update_lift_slide selected = (w', Ok tt)
    /\ GetTransforms_body 0 Translation.Identity Translation.mul (fun f => f)
         Sliding.ChainFk_JntToCart Sliding.TreeFk_JntToCart update_lift_slide
         false [] selected
       = (w', Ok ([] ++ tracked_frames (fun f => f) (this w')
                          (segment_names (segment_map_ (this selected)))))
    /\ length (tracked_frames (fun f : Translation.frame => f) (this w')
                 (segment_names (segment_map_ (this selected))))
       = length (filter (fun n => n ∈ part_mesh_map_ (this selected))
                   (segment_names (segment_map_ (this selected))))
    /\ robot_GetTransforms update_lift_slide [] false selected = (w', Ok []).
Proof.
  apply (GetTransforms_builds_tracked_frames 0 Translation.Identity
           Translation.mul (fun f => f) Sliding.ChainFk_JntToCart
           Sliding.TreeFk_JntToCart update_lift_slide [] false selected).
  - exact selected_well_formed.
  - reflexivity.
  - vm_compute. discriminate.
Defined.

(** Selection on the description whose root mesh is [b.x]. *)
Lemma GetPartMeshPaths_short_file_name_faults_witness :
  GetPartMeshPaths 5 [] (world_of short_named)
  = (world_of short_named, Crash StdOutOfRange).
Proof.
  apply (GetPartMeshPaths_short_file_name_faults 5 [] (world_of short_named)
           {| URDF.name := "base"; URDF.parent_link := None;
              URDF.visual := mesh "b.x" |} "b.x" 0).
  - reflexivity.
  - reflexivity.
  - vm_compute. lia.
  - lia.
  - reflexivity.
  - intros k' Hk'. lia.
Defined.

(** Two selections in a row on the robot. *)
Lemma GetPartMeshPaths_twice_records_twice_witness :
  let base := {| URDF.name := "base"; URDF.parent_link := None;
                 URDF.visual := mesh "base.dae" |} in
  let files := match mesh_file base with
               | Some f => replicate (length (URDF.links robot)) f
               | None => []
               end in
  let names := match mesh_file base with
               | Some _ => replicate (length (URDF.links robot)) (URDF.name base)
               | None => []
               end in
  exists w1 w2 : RobotWorld,
    GetPartMeshPaths 5 [] constructed = (w1, Ok ([] ++ files))
    /\ GetPartMeshPaths 5 ([] ++ files) w1 = (w2, Ok (([] ++ files) ++ files))
    /\ part_mesh_map_ (this w2)
       = (part_mesh_map_ (this constructed) ++ names) ++ names
    /\ forall n, tracked (this w2) n = tracked (this w1) n.
Proof.
  apply (GetPartMeshPaths_twice_records_twice 5 [] constructed).
  - reflexivity.
  - exact robot_root_file_size.
  - exact robot_links_descend.
Defined.

(** The selection on the robot. *)
Lemma GetPartMeshPaths_records_only_the_root_witness :
  exists (r : URDF.Link) (added : list string),
    URDF.getLink (urdf_ (this constructed)) (URDF.root (urdf_ (this constructed)))
    = Some r
    /\ ["base.dae"; "base.dae"; "base.dae"; "base.dae"] = [] ++ added
    /\ part_mesh_map_ (this selected)
       = part_mesh_map_ (this constructed)
         ++ replicate (length added) (URDF.name r)
    /\ (length added <= length (URDF.links (urdf_ (this constructed))))%nat.
Proof.
  apply (GetPartMeshPaths_records_only_the_root 5 [] constructed selected
           ["base.dae"; "base.dae"; "base.dae"; "base.dae"]).
  vm_compute. reflexivity.
Defined.

(** The tables of the robot. *)
Lemma ctor_limit_tables_witness :
  exists w : RobotWorld,
    RobotState_ctor 0 as_double Translation.Identity collaborators = (w, Ok tt)
    /\ length (joint_map_ (this w)) = KDL.getNrOfJoints robot_tree
    /\ length (lower_limit_ (this w)) = KDL.getNrOfJoints robot_tree
    /\ length (upper_limit_ (this w)) = KDL.getNrOfJoints robot_tree
    /\ forall q nm, (q, nm) ∈ movable_joints (KDL.getSegments robot_tree) ->
         exists j lim,
           URDF.getJoint robot nm = Some j
           /\ URDF.limits j = Some lim
           /\ joint_map_ (this w) !! q = Some nm
           /\ lower_limit_ (this w) !! q = Some (as_double (URDF.lower lim))
           /\ upper_limit_ (this w) !! q = Some (as_double (URDF.upper lim)).
Proof.
  exact (ctor_limit_tables 0 as_double Translation.Identity collaborators
           collaborators_valid).
Defined.

Example limit_tables_of_the_robot :
  lower_limit_ (this constructed) = [0; 0]
  /\ upper_limit_ (this constructed) = [5; 10].
Proof. vm_compute. split; reflexivity. Qed.

Lemma chainless_valid : valid_topology chainless.
Proof.
  destruct collaborators_valid as [H1 H2 H3 H4 H5].
  split; [exact H1 | exact H2 | exact H3 | exact H4 | exact H5].
Qed.

(** The construction of the robot when the camera frame is no segment of the
    tree: the failure of [getChain] is reported and the solver is built over
    the empty chain. *)
Lemma ctor_reports_and_continues_witness :
  exists w : RobotWorld,
    RobotState_ctor 0 as_double Translation.Identity chainless = (w, Ok tt)
    /\ console w = [ROS_ERROR_chain "XTION" "base"]
    /\ base_2_cam_ (this w) = {| KDL.segments := [] |}
    /\ chain_solver_ (this w) = Some {| KDL.segments := [] |}
    /\ tree_solver_ (this w) = Some robot_tree.
Proof.
  exact (ctor_reports_and_continues 0 as_double Translation.Identity chainless
           chainless_valid eq_refl eq_refl).
Defined.

(** The construction when the joint [lift] has no limits. *)
Lemma ctor_unresolved_joint_faults_witness :
  snd (RobotState_ctor 0 as_double Translation.Identity unlimited) <> Ok tt
  /\ chain_solver_ (this (fst (RobotState_ctor 0 as_double Translation.Identity unlimited)))
     = None
  /\ tree_solver_ (this (fst (RobotState_ctor 0 as_double Translation.Identity unlimited)))
     = None.
Proof.
  apply (ctor_unresolved_joint_faults 0 as_double Translation.Identity unlimited
           ("arm", {| KDL.segment := seg "arm" "lift" KDL.TransX;
                      KDL.q_nr := 1 |})).
  - reflexivity.
  - left.
  - reflexivity.
  - right. eexists. split; [vm_compute; reflexivity |].
    repeat split; discriminate.
Defined.

Example unlimited_joint_on_the_robot :
  snd (RobotState_ctor 0 as_double Translation.Identity unlimited) = Crash NullDeref
  /\ joint_map_ (this (fst (RobotState_ctor 0 as_double Translation.Identity unlimited)))
     = [EmptyString; "lift"].
Proof. vm_compute. split; reflexivity. Qed.

(** The construction without a tree, and a resolution call after it. *)
Lemma ctor_without_tree_leaves_unusable_object_witness :
  exists w : RobotWorld,
    RobotState_ctor 0 as_double Translation.Identity treeless = (w, Ok tt)
    /\ this w = members_at_entry Translation.Identity (snd (initString treeless))
    /\ console w
       = (if getParam_robot_description treeless then [] else [ROS_ERROR_no_urdf])
         ++ (if fst (initString treeless) then [] else [ROS_ERROR_parse_urdf])
         ++ [ROS_ERROR_kdl_tree]
    /\ snd (robot_InitKDLData update_lift_slide w) = Crash NullDeref
    /\ console (fst (robot_InitKDLData update_lift_slide w))
       = console w ++ unknown_entries [] 0 (js_name update_lift_slide)
    /\ snd (robot_GetTransforms update_lift_slide [] false w) = Crash NullDeref.
Proof.
  apply (ctor_without_tree_leaves_unusable_object 0 as_double Translation.Identity
           Translation.mul (fun f => f) Sliding.ChainFk_JntToCart
           Sliding.TreeFk_JntToCart treeless update_lift_slide [] false).
  - reflexivity.
  - reflexivity.
  - vm_compute. discriminate.
Defined.

(** Well-formedness of the robot through one call of each kind. *)
Lemma well_formed_is_invariant_witness :
  well_formed (this (fst (robot_InitKDLData update_lift_slide selected)))
  /\ well_formed
       (this (fst (robot_GetTransforms update_lift_slide [] false selected)))
  /\ well_formed (this (fst (GetPartMeshPaths 5 [] selected))).
Proof.
  exact (well_formed_is_invariant 0 Translation.Identity Translation.mul
           (fun f => f) Sliding.ChainFk_JntToCart Sliding.TreeFk_JntToCart
           update_lift_slide [] false 5 [] selected selected_well_formed).
Defined.

Lemma collaborators_chain (sg : KDL.Segment) :
  sg ∈ KDL.segments (snd (getChain collaborators)) ->
  KDL.movable sg = true ->
  KDL.getJointName (KDL.getJoint sg)
  ∈ snd <$> movable_joints (KDL.getSegments (snd (treeFromUrdfModel collaborators))).
Proof.
  intros Hsg _.
  change (KDL.segments (snd (getChain collaborators)))
    with [seg "base" "slide" KDL.TransX] in Hsg.
  apply list_elem_of_singleton in Hsg as ->.
  cbn [treeFromUrdfModel collaborators snd]. rewrite robot_movable_joints.
  right. left.
Qed.

(** Construction, selection and resolution of the robot, in sequence. *)
Lemma construction_selection_resolution_complete_witness :
  exists (w1 w2 w3 : RobotWorld) (paths : list string),
    RobotState_ctor 0 as_double Translation.Identity collaborators = (w1, Ok tt)
    /\ GetPartMeshPaths 5 [] w1 = (w2, Ok paths)
    /\ robot_GetTransforms update_lift_slide [] false w2 = (w3, Ok [])
    /\ well_formed (this w3)
    /\ forall n,
         n ∈ segment_names (KDL.getSegments robot_tree) ->
         n ∈ part_mesh_map_ (this w2) ->
         frame_map_ (this w3) !! n
         = Some (Translation.mul (cam_frame_ (this w3))
                   (snd (Sliding.TreeFk_JntToCart robot_tree
                           (jnt_array_ (this w3)) Translation.Identity n))).
Proof.
  apply (construction_selection_resolution_complete 0 as_double Translation.Identity
           Translation.mul (fun f => f) Sliding.ChainFk_JntToCart
           Sliding.TreeFk_JntToCart collaborators 5 update_lift_slide [] false
           {| URDF.name := "base"; URDF.parent_link := None;
              URDF.visual := mesh "base.dae" |}).
  - exact collaborators_valid.
  - exact collaborators_chain.
  - vm_compute. reflexivity.
  - reflexivity.
  - exact robot_root_file_size.
  - exact robot_links_descend.
  - reflexivity.
  - vm_compute. discriminate.
Defined.
